(** * mini-yaml (Yaml.cpp): node tree, block parser and block emitter

    A shallow embedding of [src/yaml/Yaml.cpp].

    - [std::string] is a list of characters ([str]); positions are [nat],
      [std::string::npos] is [None] of [option nat].  Strings are shorter
      than [2^63] bytes ([std::string::max_size]), so no position
      computation of the source wraps.
    - [std::map<K, Node*>] is a list of entries kept in ascending key order
      (what iteration with [begin()]/[end()] observes).
    - [size_t] keys of [SequenceImp::m_Sequence] are [N] with the 64-bit
      wrap-around of [it->first + 1] written out.
    - a loop that the source runs on iterators is a [Fixpoint] on fuel; its
      result is [None] when the loop is still running after [fuel] rounds. *)

From Stdlib Require Import Ascii String.
From Stdlib Require Import List NArith Arith Bool Lia Sorted.
Import ListNotations.
Open Scope list_scope.

(* ================================================================== *)
(** ** std::string                                                      *)
(* ================================================================== *)

Definition str := list ascii.

Definition lit (s : string) : str := list_ascii_of_string s.
Arguments lit s%_string.

Definition char_eqb (a b : ascii) : bool := Ascii.eqb a b.

Fixpoint char_in (c : ascii) (set : str) : bool :=
  match set with
  | [] => false
  | d :: set' => char_eqb c d || char_in c set'
  end.

Definition str_eqb (a b : str) : bool :=
  if list_eq_dec ascii_dec a b then true else false.

(** First index [>= i] (counted from [i] at the head of [s]) whose
    character satisfies [p]. *)
Fixpoint find_from (p : ascii -> bool) (s : str) (i : nat) : option nat :=
  match s with
  | [] => None
  | c :: s' => if p c then Some i else find_from p s' (S i)
  end.

(** Last such index. *)
Fixpoint find_last_from (p : ascii -> bool) (s : str) (i : nat) : option nat :=
  match s with
  | [] => None
  | c :: s' =>
      match find_last_from p s' (S i) with
      | Some j => Some j
      | None => if p c then Some i else None
      end
  end.

(** [s.find_first_of(set, pos)] *)
Definition find_first_of (set : str) (s : str) (pos : nat) : option nat :=
  find_from (fun c => char_in c set) (skipn pos s) pos.

(** [s.find_first_of(c, pos)] *)
Definition find_char (c : ascii) (s : str) (pos : nat) : option nat :=
  find_from (char_eqb c) (skipn pos s) pos.

(** [s.find_first_not_of(set, pos)] *)
Definition find_first_not_of (set : str) (s : str) (pos : nat) : option nat :=
  find_from (fun c => negb (char_in c set)) (skipn pos s) pos.

(** [s.find_last_not_of(set)] *)
Definition find_last_not_of (set : str) (s : str) : option nat :=
  find_last_from (fun c => negb (char_in c set)) s 0.

(** [s.substr(pos)] and [s.substr(pos, len)], for [pos <= s.size()]. *)
Definition substr_from (s : str) (pos : nat) : str := skipn pos s.
Definition substr (s : str) (pos len : nat) : str := firstn len (skipn pos s).

(** [s.resize(n)] for [n <= s.size()]. *)
Definition resize (s : str) (n : nat) : str := firstn n s.

(** [s[i]] *)
Definition char_at (s : str) (i : nat) : ascii := nth i s zero.

(** [std::string(n, ' ')] *)
Definition spaces (n : nat) : str := repeat " "%char n.

(** [operator<] of [std::string]: lexicographic on unsigned bytes. *)
Fixpoint str_ltb (a b : str) : bool :=
  match a, b with
  | [], [] => false
  | [], _ :: _ => true
  | _ :: _, [] => false
  | c :: a', d :: b' =>
      if N.ltb (N_of_ascii c) (N_of_ascii d) then true
      else if N.ltb (N_of_ascii d) (N_of_ascii c) then false
      else str_ltb a' b'
  end.

(** Lines as [std::getline] delivers them: the pieces between ['\n']; the
    last piece is delivered too, also when it is empty. *)
Definition newline : ascii := "010"%char.

Fixpoint getlines_aux (s : str) (cur : str) : list str :=
  match s with
  | [] => [rev cur]
  | c :: s' =>
      if char_eqb c newline then rev cur :: getlines_aux s' []
      else getlines_aux s' (c :: cur)
  end.

Definition getlines (s : str) : list str := getlines_aux s [].

(* ================================================================== *)
(** ** size_t                                                           *)
(* ================================================================== *)

Definition SIZE_MOD : N := 2 ^ 64.

(** [k + 1] on [size_t]. *)
Definition size_t_succ (k : N) : N := ((k + 1) mod SIZE_MOD)%N.

(* ================================================================== *)
(** ** std::map                                                         *)
(* ================================================================== *)

Section StdMap.
Context {K V : Type}.
Variable ltb : K -> K -> bool.

Definition std_map : Type := list (K * V).

(** [m.find(k)]: the mapped value, or [None] for [m.end()]. *)
Fixpoint map_find (m : std_map) (k : K) : option V :=
  match m with
  | [] => None
  | (k', v) :: m' =>
      if ltb k k' then None
      else if ltb k' k then map_find m' k
      else Some v
  end.

(** [m.insert({k, v})]: an existing entry is kept as it is. *)
Fixpoint map_insert (m : std_map) (k : K) (v : V) : std_map :=
  match m with
  | [] => [(k, v)]
  | (k', v') :: m' =>
      if ltb k k' then (k, v) :: m
      else if ltb k' k then (k', v') :: map_insert m' k v
      else m
  end.

(** [m[k] = v]: insert or overwrite. *)
Fixpoint map_assign (m : std_map) (k : K) (v : V) : std_map :=
  match m with
  | [] => [(k, v)]
  | (k', v') :: m' =>
      if ltb k k' then (k, v) :: m
      else if ltb k' k then (k', v') :: map_assign m' k v
      else (k, v) :: m'
  end.

(** [m.erase(k)] *)
Fixpoint map_erase (m : std_map) (k : K) : std_map :=
  match m with
  | [] => []
  | (k', v') :: m' =>
      if ltb k k' then m
      else if ltb k' k then (k', v') :: map_erase m' k
      else m'
  end.

(** Key of [m.begin()]. *)
Definition map_first_key (m : std_map) : option K :=
  match m with
  | [] => None
  | (k, _) :: _ => Some k
  end.

(** Key of [--m.end()]. *)
Fixpoint map_last_key (m : std_map) : option K :=
  match m with
  | [] => None
  | [(k, _)] => Some k
  | _ :: m' => map_last_key m'
  end.

(** Key the iterator at [k] points to after [it++]. *)
Fixpoint map_next_key (m : std_map) (k : K) : option K :=
  match m with
  | [] => None
  | (k', _) :: m' => if ltb k k' then Some k' else map_next_key m' k
  end.

Definition map_keys (m : std_map) : list K := map fst m.

Definition keys_below (m : list (K * V)) (k : K) : Prop :=
  Forall (fun e => ltb (fst e) k = true) m.

Definition keys_above (k : K) (m : list (K * V)) : Prop :=
  Forall (fun e => ltb k (fst e) = true) m.

(** The representation invariant of [std::map]: keys strictly ascending. *)
Fixpoint ascending (m : list (K * V)) : Prop :=
  match m with
  | [] => True
  | e :: m' => keys_above (fst e) m' /\ ascending m'
  end.
End StdMap.

(* ================================================================== *)
(** ** Node                                                             *)
(* ================================================================== *)

Inductive eType := NoneType | SequenceType | MapType | ScalarType.

Definition eType_eqb (a b : eType) : bool :=
  match a, b with
  | NoneType, NoneType | SequenceType, SequenceType
  | MapType, MapType | ScalarType, ScalarType => true
  | _, _ => false
  end.

(** [NodeImp]: [m_Type] with the [TypeImp] it owns ([m_pImp] is null
    exactly for [None]). *)
Unset Elimination Schemes.
Inductive Node : Type :=
| NoneNode
| ScalarNode (m_Value : str)
| SequenceNode (m_Sequence : list (N * Node))
| MapNode (m_Map : list (str * Node)).
Set Elimination Schemes.

(** Induction over a node and the children it owns. *)
Fixpoint Node_ind (P : Node -> Prop)
    (HNone : P NoneNode)
    (HScalar : forall v, P (ScalarNode v))
    (HSequence : forall m, Forall (fun e => P (snd e)) m -> P (SequenceNode m))
    (HMap : forall m, Forall (fun e => P (snd e)) m -> P (MapNode m))
    (n : Node) {struct n} : P n :=
  match n with
  | NoneNode => HNone
  | ScalarNode v => HScalar v
  | SequenceNode m =>
      HSequence m
        ((fix children (l : list (N * Node)) : Forall (fun e => P (snd e)) l :=
            match l with
            | [] => Forall_nil _
            | e :: l' =>
                Forall_cons e (Node_ind P HNone HScalar HSequence HMap (snd e))
                  (children l')
            end) m)
  | MapNode m =>
      HMap m
        ((fix children (l : list (str * Node)) : Forall (fun e => P (snd e)) l :=
            match l with
            | [] => Forall_nil _
            | e :: l' =>
                Forall_cons e (Node_ind P HNone HScalar HSequence HMap (snd e))
                  (children l')
            end) m)
  end.

Definition Node_Type (n : Node) : eType :=
  match n with
  | NoneNode => NoneType
  | ScalarNode _ => ScalarType
  | SequenceNode _ => SequenceType
  | MapNode _ => MapType
  end.

Definition IsNone (n : Node) : bool := eType_eqb (Node_Type n) NoneType.
Definition IsSequence (n : Node) : bool := eType_eqb (Node_Type n) SequenceType.
Definition IsMap (n : Node) : bool := eType_eqb (Node_Type n) MapType.
Definition IsScalar (n : Node) : bool := eType_eqb (Node_Type n) ScalarType.

Definition Node_Clear (n : Node) : Node := NoneNode.

Definition InitSequence (n : Node) : Node :=
  match n with
  | SequenceNode _ => n
  | _ => SequenceNode []
  end.

Definition InitMap (n : Node) : Node :=
  match n with
  | MapNode _ => n
  | _ => MapNode []
  end.

Definition InitScalar (n : Node) : Node :=
  match n with
  | ScalarNode _ => n
  | _ => ScalarNode []
  end.

Definition Node_Size (n : Node) : N :=
  match n with
  | SequenceNode m => N.of_nat (length m)
  | MapNode m => N.of_nat (length m)
  | _ => 0%N
  end.

Definition Node_AsString (n : Node) : str :=
  match n with
  | ScalarNode v => v
  | _ => []
  end.

(** [Node::operator=(const std::string &)] *)
Definition Node_assign_string (n : Node) (value : str) : Node :=
  match InitScalar n with
  | ScalarNode _ => ScalarNode value
  | n' => n'
  end.

(* ================================================================== *)
(** ** SequenceImp                                                      *)
(* ================================================================== *)

(** [m_Sequence].  The mapped [Node*] owns its node, except for the
    copies that [PushFront] and [Insert] write under further keys: those
    alias the node they were copied from.  The loops below are driven by
    the keys alone. *)
Definition SequenceImp : Type := list (N * Node).

(** [it->second] for the iterator at key [k]. *)
Definition seq_second (m : SequenceImp) (k : N) : Node :=
  match map_find N.ltb m k with
  | Some v => v
  | None => NoneNode
  end.

(** [new Node] followed by [m_Sequence.insert({k, pNode})].  The second
    component says where the node that the operation returns lives:
    [Some k] when the map took it, [None] when the key was taken already
    and the returned node stays outside the tree. *)
Definition seq_insert_new (m : SequenceImp) (k : N) : SequenceImp * option N :=
  match map_find N.ltb m k with
  | Some _ => (m, None)
  | None => (map_insert N.ltb m k NoneNode, Some k)
  end.

Definition SequenceImp_GetSize (m : SequenceImp) : N := N.of_nat (length m).

Definition SequenceImp_GetNode (m : SequenceImp) (index : N) : option Node :=
  map_find N.ltb m index.

(** The [while] loop of [SequenceImp::Insert]: [it] is never advanced.
    The source copies the pointer, [m_Sequence[it->first + 1] = it->second],
    so that both positions hold one and the same node.  The children are
    held by value here: the loop records what each position holds, not
    that two positions are one object. *)
Fixpoint Insert_loop (fuel : nat) (m : SequenceImp) (it : option N) (index : N)
  : option SequenceImp :=
  match it with
  | None => Some m
  | Some k =>
      match fuel with
      | O => None
      | S fuel' =>
          let m' := map_assign N.ltb m (size_t_succ k) (seq_second m k) in
          if N.eqb k index then Some m'
          else Insert_loop fuel' m' (Some k) index
      end
  end.

Definition SequenceImp_Insert (fuel : nat) (m : SequenceImp) (index : N)
  : option (SequenceImp * option N) :=
  if N.eqb (SequenceImp_GetSize m) 0 then Some (seq_insert_new m 0%N)
  else if N.leb (SequenceImp_GetSize m) index then
    match map_last_key m with
    | Some k => Some (seq_insert_new m k)
    | None => Some (m, None)
    end
  else
    match Insert_loop fuel m (map_first_key m) index with
    | Some m' => Some (seq_insert_new m' index)
    | None => None
    end.

(** The [for] loop of [SequenceImp::PushFront]: it walks the map while it
    writes the key after the current one.  As in [Insert_loop] the source
    copies pointers and the positions written share one node; here each
    position holds the value of that node. *)
Fixpoint PushFront_loop (fuel : nat) (m : SequenceImp) (it : option N)
  : option SequenceImp :=
  match it with
  | None => Some m
  | Some k =>
      match fuel with
      | O => None
      | S fuel' =>
          let m' := map_assign N.ltb m (size_t_succ k) (seq_second m k) in
          PushFront_loop fuel' m' (map_next_key N.ltb m' k)
      end
  end.

Definition SequenceImp_PushFront (fuel : nat) (m : SequenceImp)
  : option (SequenceImp * option N) :=
  match PushFront_loop fuel m (map_first_key m) with
  | Some m' => Some (seq_insert_new m' 0%N)
  | None => None
  end.

Definition SequenceImp_PushBack (m : SequenceImp) : SequenceImp * option N :=
  let index :=
    match map_last_key m with
    | Some k => size_t_succ k
    | None => 0%N
    end in
  seq_insert_new m index.

Definition SequenceImp_Erase (m : SequenceImp) (index : N) : SequenceImp :=
  map_erase N.ltb m index.

(* ================================================================== *)
(** ** MapImp                                                           *)
(* ================================================================== *)

Definition MapImp : Type := list (str * Node).

Definition MapImp_GetSize (m : MapImp) : N := N.of_nat (length m).

(** [MapImp::GetNode(key)]: find, or insert a new node.  The node returned
    is the one under [key] in the resulting map. *)
Definition MapImp_GetNode (m : MapImp) (key : str) : MapImp :=
  match map_find str_ltb m key with
  | Some _ => m
  | None => map_insert str_ltb m key NoneNode
  end.

Definition MapImp_Erase (m : MapImp) (key : str) : MapImp :=
  map_erase str_ltb m key.

(* ================================================================== *)
(** ** Node operations                                                  *)
(* ================================================================== *)

(** An operation that returns a [Node &] gives the node after the
    operation and the place of the node returned. *)
Definition Node_Insert (fuel : nat) (n : Node) (index : N)
  : option (Node * option N) :=
  match InitSequence n with
  | SequenceNode m =>
      match SequenceImp_Insert fuel m index with
      | Some (m', r) => Some (SequenceNode m', r)
      | None => None
      end
  | n' => Some (n', None)
  end.

Definition Node_PushFront (fuel : nat) (n : Node) : option (Node * option N) :=
  match InitSequence n with
  | SequenceNode m =>
      match SequenceImp_PushFront fuel m with
      | Some (m', r) => Some (SequenceNode m', r)
      | None => None
      end
  | n' => Some (n', None)
  end.

Definition Node_PushBack (n : Node) : Node * option N :=
  match InitSequence n with
  | SequenceNode m =>
      let (m', r) := SequenceImp_PushBack m in (SequenceNode m', r)
  | n' => (n', None)
  end.

(** [Node::operator[](size_t)]: the node after the coercion, and the child
    found; [None] stands for the cleared [g_NoneNode]. *)
Definition Node_at (n : Node) (index : N) : Node * option Node :=
  match InitSequence n with
  | SequenceNode m => (SequenceNode m, SequenceImp_GetNode m index)
  | n' => (n', None)
  end.

(** The node a reference from [Node_at] reads as. *)
Definition deref (r : option Node) : Node :=
  match r with
  | Some c => c
  | None => NoneNode
  end.

(** [Node::operator[](const std::string &)]: the node after the coercion;
    the child returned is the one under [key]. *)
Definition Node_at_key (n : Node) (key : str) : Node :=
  match InitMap n with
  | MapNode m => MapNode (MapImp_GetNode m key)
  | n' => n'
  end.

Definition Node_Erase (n : Node) (index : N) : Node :=
  match n with
  | SequenceNode m => SequenceNode (SequenceImp_Erase m index)
  | _ => n
  end.

Definition Node_Erase_key (n : Node) (key : str) : Node :=
  match n with
  | MapNode m => MapNode (MapImp_Erase m key)
  | _ => n
  end.

(** What [Begin()] .. [End()] visits: the children in key order, those of
    a map with their keys.  For a sequence the key that [operator*] hands
    back cannot be read (see [KeyRef]); the empty key stands in its
    place. *)
Definition Node_iterate (n : Node) : list (str * Node) :=
  match n with
  | SequenceNode m => map (fun e => ([], snd e)) m
  | MapNode m => m
  | _ => []
  end.

(** Writing through the reference that [PushBack] returned. *)
Definition set_child (n : Node) (r : option N) (c : Node) : Node :=
  match n, r with
  | SequenceNode m, Some k => SequenceNode (map_assign N.ltb m k c)
  | _, _ => n
  end.

(** Writing through the reference that [operator[](key)] returned. *)
Definition set_child_key (n : Node) (key : str) (c : Node) : Node :=
  match n with
  | MapNode m => MapNode (map_assign str_ltb m key c)
  | _ => n
  end.

(** Reading through it. *)
Definition get_child_key (n : Node) (key : str) : Node :=
  match n with
  | MapNode m =>
      match map_find str_ltb m key with
      | Some c => c
      | None => NoneNode
      end
  | _ => NoneNode
  end.

(** [child-at(i)] finds a child. *)
Definition present (n : Node) (i : N) : bool :=
  match snd (Node_at n i) with
  | Some _ => true
  | None => false
  end.

Definition dense (n : Node) : Prop :=
  forall i, (i < Node_Size n)%N -> present n i = true.

(* ================================================================== *)
(** ** CopyNode and deep-copy assignment                                *)
(* ================================================================== *)

(** The two loops of [CopyNode]; [copy] is [CopyNode] itself on a child. *)
Section CopyChildren.
Variable copy : Node -> Node -> Node.

Fixpoint copy_sequence (l : list (N * Node)) (to : Node) : Node :=
  match l with
  | [] => to
  | (_, currentNode) :: l' =>
      let (to1, r) := Node_PushBack to in
      let newNode := copy currentNode NoneNode in
      copy_sequence l' (set_child to1 r newNode)
  end.

Fixpoint copy_map (l : list (str * Node)) (to : Node) : Node :=
  match l with
  | [] => to
  | (key, currentNode) :: l' =>
      let to1 := Node_at_key to key in
      let newNode := copy currentNode (get_child_key to1 key) in
      copy_map l' (set_child_key to1 key newNode)
  end.
End CopyChildren.

(** [CopyNode(from, to)]; the result is [to] afterwards. *)
Fixpoint CopyNode (from : Node) (to : Node) {struct from} : Node :=
  match from with
  | SequenceNode m => copy_sequence CopyNode m to
  | MapNode m => copy_map CopyNode m to
  | ScalarNode v => Node_assign_string to v
  | NoneNode => to
  end.

(** The nodes a program holds, each owning its own tree.  Two references
    are the same node exactly when they are the same place. *)
Definition Store : Type := nat -> Node.

Definition store_set (st : Store) (x : nat) (n : Node) : Store :=
  fun y => if Nat.eqb y x then n else st y.

(** [Node::operator=(const Node & node)] on [*this]: [Clear()], then
    [CopyNode(node, *this)], which reads [node] after the clear. *)
Definition Node_assign (st : Store) (this node : nat) : Store :=
  let st1 := store_set st this (Node_Clear (st this)) in
  store_set st1 this (CopyNode (st1 node) (st1 this)).

(** What [CopyNode] makes of a tree in a cleared target: the children in
    iteration order, those of a sequence under the keys [0, 1, 2, ...]; a
    sequence or map without children leaves the target [None]. *)
Section CopiedChildren.
Variable copied : Node -> Node.

Fixpoint copied_sequence (l : list (N * Node)) (i : nat) : list (N * Node) :=
  match l with
  | [] => []
  | (_, c) :: l' => (N.of_nat i, copied c) :: copied_sequence l' (S i)
  end.

Fixpoint copied_map (l : list (str * Node)) : list (str * Node) :=
  match l with
  | [] => []
  | (k, c) :: l' => (k, copied c) :: copied_map l'
  end.
End CopiedChildren.

Fixpoint copied (n : Node) : Node :=
  match n with
  | SequenceNode [] => NoneNode
  | SequenceNode m => SequenceNode (copied_sequence copied m 0)
  | MapNode [] => NoneNode
  | MapNode m => MapNode (copied_map copied m)
  | _ => n
  end.

Section Children.
Variable P : Node -> Prop.

Fixpoint all_children {K : Type} (l : list (K * Node)) : Prop :=
  match l with
  | [] => True
  | e :: l' => P (snd e) /\ all_children l'
  end.
End Children.

(** What [std::map] guarantees of a tree: map keys strictly ascending; a
    sequence, keyed by [size_t], holds at most [2^64] children. *)
Fixpoint well_formed (n : Node) : Prop :=
  match n with
  | SequenceNode m =>
      (N.of_nat (length m) <= SIZE_MOD)%N /\ all_children well_formed m
  | MapNode m => ascending str_ltb m /\ all_children well_formed m
  | _ => True
  end.

(** Every sequence of the tree is dense, and no sequence or map of it is
    without children. *)
Fixpoint full (n : Node) : Prop :=
  match n with
  | SequenceNode m =>
      m <> [] /\ map fst m = map N.of_nat (seq 0 (length m))
      /\ all_children full m
  | MapNode m => m <> [] /\ all_children full m
  | _ => True
  end.

(* ================================================================== *)
(** ** Quotes, escapes, line folding                                    *)
(* ================================================================== *)

Definition dquote : ascii := "034"%char.
Definition squote : ascii := "039"%char.
Definition backslash : ascii := "092"%char.
Definition space : ascii := " "%char.
Definition tab : ascii := "009"%char.
Definition cr : ascii := "013"%char.

Definition blanks : str := [space; tab].

(** No double quote in the string. *)
Definition no_dquote (s : str) : Prop :=
  Forall (fun c => char_eqb c dquote = false) s.

(** [input] with every single quote replaced by [c]. *)
Definition replace_squotes (c : ascii) (input : str) : str :=
  map (fun x => if char_eqb x squote then c else x) input.

(** The [while] loop of [FindQuote]; [start] is [None] exactly while
    [foundStart] is false.  Result: return value, [start], [end]. *)
Fixpoint FindQuote_loop (fuel : nat) (input : str) (qPos : nat)
    (start : option nat) : bool * option nat * option nat :=
  match fuel with
  | O => (false, start, None)
  | S fuel' =>
      match find_first_of [dquote; squote] input qPos with
      | None => (false, start, None)
      | Some q =>
          let token := char_at input q in
          let next (st : option nat) :=
            if Nat.eqb (q + 1) (length input) then (false, st, None)
            else FindQuote_loop fuel' input (q + 1) st in
          if char_eqb token dquote
             && (Nat.eqb q 0 || negb (char_eqb (char_at input (q - 1)) backslash))
          then
            match start with
            | None => next (Some q)
            | Some _ => (true, start, Some q)
            end
          else next start
      end
  end.

Definition FindQuote (input : str) (searchPos : nat)
  : bool * option nat * option nat :=
  FindQuote_loop (S (length input)) input searchPos None.

(** A double quote that [FindQuote] takes as one: not the second of a
    backslash and a double quote. *)
Definition quote_at (input : str) (i : nat) : bool :=
  char_eqb (char_at input i) dquote
  && (Nat.eqb i 0 || negb (char_eqb (char_at input (i - 1)) backslash)).

(** The first [while] loop of [FindNotCited]: all quote pairs. *)
Fixpoint FindNotCited_quotes (fuel : nat) (input : str) (quoteEnd : nat)
  : list (nat * nat) :=
  match fuel with
  | O => []
  | S fuel' =>
      match FindQuote input quoteEnd with
      | (true, Some qs, Some qe) =>
          if Nat.eqb (qe + 1) (length input) then [(qs, qe)]
          else (qs, qe) :: FindNotCited_quotes fuel' input (qe + 1)
      | _ => []
      end
  end.

(** The second [while] loop: result is [(tokenPos or npos, preQuoteCount)]. *)
Fixpoint FindNotCited_scan (input : str) (token : ascii)
    (quotes : list (nat * nat)) (tokenPos : nat) (preQuoteCount : nat)
  : option nat * nat :=
  match quotes with
  | [] => (Some tokenPos, preQuoteCount)
  | (qs, qe) :: quotes' =>
      if Nat.ltb tokenPos qs then (Some tokenPos, preQuoteCount)
      else
        let preQuoteCount := S preQuoteCount in
        if Nat.leb tokenPos qe then
          if Nat.eqb (tokenPos + 1) (length input) then (None, preQuoteCount)
          else
            match find_char token input (tokenPos + 1) with
            | None => (None, preQuoteCount)
            | Some p => FindNotCited_scan input token quotes' p preQuoteCount
            end
        else FindNotCited_scan input token quotes' tokenPos preQuoteCount
  end.

(** [FindNotCited(input, token, preQuoteCount)] *)
Definition FindNotCited_count (input : str) (token : ascii) : option nat * nat :=
  match find_char token input 0 with
  | None => (None, 0)
  | Some tokenPos =>
      match FindNotCited_quotes (S (length input)) input 0 with
      | [] => (Some tokenPos, 0)
      | quotes => FindNotCited_scan input token quotes tokenPos 0
      end
  end.

(** [FindNotCited(input, token)] *)
Definition FindNotCited (input : str) (token : ascii) : option nat :=
  fst (FindNotCited_count input token).

Definition KeyShouldBeCited (key : str) : bool :=
  match find_first_of (dquote :: lit ":{}[],&*#?|-<>=!%@") key 0 with
  | Some _ => true
  | None => false
  end.

(** [input.replace(pos, n, by)] *)
Definition replace (input : str) (pos n : nat) (by_ : str) : str :=
  firstn pos input ++ by_ ++ skipn (pos + n) input.

(** The [while] loop of [AddEscapeTokens] for one token. *)
Fixpoint AddEscapeTokens_loop (fuel : nat) (input : str) (token : ascii)
    (found : option nat) : str :=
  match fuel, found with
  | S fuel', Some f =>
      let input' := replace input f 1 [backslash; token] in
      AddEscapeTokens_loop fuel' input' token (find_char token input' (f + 2))
  | _, _ => input
  end.

Fixpoint AddEscapeTokens (input : str) (tokens : str) : str :=
  match tokens with
  | [] => input
  | token :: tokens' =>
      AddEscapeTokens
        (AddEscapeTokens_loop (length input) input token (find_char token input 0))
        tokens'
  end.

Fixpoint RemoveAllEscapeTokens_loop (fuel : nat) (input : str)
    (found : option nat) : str :=
  match fuel, found with
  | S fuel', Some f =>
      if Nat.eqb (f + 1) (length input) then input
      else
        let input' := replace input f 2 [char_at input (f + 1)] in
        RemoveAllEscapeTokens_loop fuel' input' (find_char backslash input' (f + 1))
  | _, _ => input
  end.

Definition RemoveAllEscapeTokens (input : str) : str :=
  RemoveAllEscapeTokens_loop (length input) input (find_char backslash input 0).

(** The [while] loop of [LineFolding].  [lastPos + maxLength] cannot wrap:
    after a break [maxLength < input.size()]. *)
Fixpoint LineFolding_loop (fuel : nat) (input : str) (maxLength : nat)
    (currentPos lastPos : nat) (spacePos : option nat) (folded : list str)
  : option (list str) :=
  if Nat.ltb currentPos (length input) then
    match fuel with
    | O => None
    | S fuel' =>
        let currentPos := lastPos + maxLength in
        let spacePos :=
          if Nat.ltb currentPos (length input)
          then find_char space input currentPos
          else spacePos in
        let finish :=
          let endLine := substr_from input lastPos in
          if Nat.eqb (length endLine) 0 then folded else folded ++ [endLine] in
        match spacePos with
        | None => Some finish
        | Some sp =>
            if Nat.leb (length input) currentPos then Some finish
            else
              LineFolding_loop fuel' input maxLength currentPos (sp + 1) spacePos
                (folded ++ [substr input lastPos (sp - lastPos)])
        end
    end
  else Some folded.

(** [LineFolding(input, folded, maxLength)]: the pieces left in [folded];
    the value returned is their number. *)
Definition LineFolding (input : str) (maxLength : nat) : option (list str) :=
  if Nat.eqb (length input) 0 then Some []
  else LineFolding_loop (S (length input)) input maxLength 0 0 None [].

(* ================================================================== *)
(** ** Exceptions and outcomes                                          *)
(* ================================================================== *)

Inductive ErrorMessage :=
| g_ErrorInvalidCharacter
| g_ErrorKeyMissing
| g_ErrorKeyIncorrect
| g_ErrorValueIncorrect
| g_ErrorTabInOffset
| g_ErrorBlockSequenceNotAllowed
| g_ErrorUnexpectedDocumentEnd
| g_ErrorDiffEntryNotAllowed
| g_ErrorIncorrectOffset
| g_ErrorSequenceError
| g_ErrorCannotOpenFile
| g_ErrorIndentation.

(** The exception classes, with the message and the line it cites. *)
Inductive Exception :=
| InternalException (message : ErrorMessage) (line : nat)
| ParsingException (message : ErrorMessage) (line : nat)
| OperationException (message : ErrorMessage).

(** How a piece of code ends: normally, by a throw, in undefined
    behaviour (a dereferenced [end()] iterator), or still running when the
    fuel of the model is used up. *)
Inductive outcome (A : Type) :=
| Ok (a : A)
| Throw (e : Exception)
| Undefined
| OutOfFuel.
Arguments Ok {A} a.
Arguments Throw {A} e.
Arguments Undefined {A}.
Arguments OutOfFuel {A}.

(* ================================================================== *)
(** ** ReaderLine                                                       *)
(* ================================================================== *)

(** [NextLine] is written by [PostProcessLines] and read by [Print] only;
    it is left out. *)
Record ReaderLine := mkLine {
  Data : str;
  No : nat;
  Offset : nat;
  Type_ : eType;
  Flags : N
}.

Definition new_ReaderLine (data : str) (no offset : nat) : ReaderLine :=
  mkLine data no offset NoneType 0.

Inductive eFlag := LiteralScalarFlag | FoldedScalarFlag | ScalarNewlineFlag.

Definition m_FlagMask (flag : eFlag) : N :=
  match flag with
  | LiteralScalarFlag => 1
  | FoldedScalarFlag => 2
  | ScalarNewlineFlag => 4
  end.

Definition SetFlag (l : ReaderLine) (flag : eFlag) : ReaderLine :=
  mkLine (Data l) (No l) (Offset l) (Type_ l) (N.lor (Flags l) (m_FlagMask flag)).

Definition GetFlag (l : ReaderLine) (flag : eFlag) : bool :=
  negb (N.eqb (N.land (Flags l) (m_FlagMask flag)) 0).

Definition CopyScalarFlags (l from : ReaderLine) : ReaderLine :=
  let newFlags := N.land (Flags from) (N.lor (N.lor 1 2) 4) in
  mkLine (Data l) (No l) (Offset l) (Type_ l) (N.lor (Flags l) newFlags).

Definition set_Data (l : ReaderLine) (d : str) : ReaderLine :=
  mkLine d (No l) (Offset l) (Type_ l) (Flags l).

Definition set_Offset (l : ReaderLine) (o : nat) : ReaderLine :=
  mkLine (Data l) (No l) o (Type_ l) (Flags l).

Definition set_Type (l : ReaderLine) (t : eType) : ReaderLine :=
  mkLine (Data l) (No l) (Offset l) t (Flags l).

(* ================================================================== *)
(** ** ReaderImp::ReadLines                                             *)
(* ================================================================== *)

(** The character check of [ReadLines]: position of the first character
    that is neither a tab nor in [32, 125]. *)
Definition invalid_char (c : ascii) : bool :=
  negb (char_eqb c tab)
  && (Nat.ltb (nat_of_ascii c) 32 || Nat.ltb 125 (nat_of_ascii c)).

(** "Remove comment" of [ReadLines]. *)
Definition remove_comment (line : str) : str :=
  match FindNotCited line "#"%char with
  | Some commentPos => resize line commentPos
  | None => line
  end.


(** The [while] loop of [ReadLines] over the lines [std::getline]
    delivers.  The result carries [m_Lines] as the loop leaves it. *)
Fixpoint ReadLines_read (raw : list str) (lineNo : nat)
    (documentStartFound : bool) (m_Lines : list ReaderLine)
  : list ReaderLine * outcome unit :=
  match raw with
  | [] => (m_Lines, Ok tt)
  | line :: raw' =>
      let lineNo := S lineNo in
      let line := remove_comment line in
      if negb documentStartFound && str_eqb line (lit "---") then
        ReadLines_read raw' lineNo true []
      else if str_eqb line (lit "...") then (m_Lines, Ok tt)
      else
        let line :=
          if negb (Nat.eqb (length line) 0)
             && char_eqb (char_at line (length line - 1)) cr
          then resize line (length line - 1)
          else line in
        if Nat.eqb (length line) 0 then
          ReadLines_read raw' lineNo documentStartFound m_Lines
        else
          match find_from invalid_char line 0 with
          | Some i =>
              (m_Lines, Throw (ParsingException g_ErrorInvalidCharacter lineNo))
          | None =>
              ReadLines_read raw' lineNo documentStartFound
                (m_Lines ++ [new_ReaderLine line lineNo 0])
          end
  end.

(** [a < b] on positions where [a] may be [npos]. *)
Definition npos_ltb (a : option nat) (b : nat) : bool :=
  match a with
  | Some x => Nat.ltb x b
  | None => false
  end.

(** The [for] loop of [ReadLines]: offsets and trimming.  [done] are the
    lines before the iterator. *)
Fixpoint ReadLines_trim (done rest : list ReaderLine)
  : list ReaderLine * outcome unit :=
  match rest with
  | [] => (done, Ok tt)
  | pLine :: rest' =>
      let firstTabPos := find_first_of [tab] (Data pLine) 0 in
      let startOffset := find_first_not_of blanks (Data pLine) 0 in
      let endOffset := find_last_not_of blanks (Data pLine) in
      match startOffset, endOffset with
      | Some so, Some eo =>
          if npos_ltb firstTabPos so then
            (done ++ rest, Throw (ParsingException g_ErrorTabInOffset (No pLine)))
          else
            let pLine' :=
              set_Offset
                (set_Data pLine (substr (substr_from (Data pLine) so) 0 (eo - so + 1)))
                so in
            ReadLines_trim (done ++ [pLine']) rest'
      | _, _ => ReadLines_trim done rest'
      end
  end.

Definition ReadLines (stream : str) : list ReaderLine * outcome unit :=
  match ReadLines_read (getlines stream) 0 false [] with
  | (m_Lines, Ok _) => ReadLines_trim [] m_Lines
  | r => r
  end.

(* ================================================================== *)
(** ** ReaderImp::PostProcessLines                                      *)
(* ================================================================== *)

Definition IsSequenceStart (data : str) : bool :=
  if Nat.eqb (length data) 0 || negb (char_eqb (char_at data 0) "-"%char)
  then false
  else if Nat.leb 2 (length data) && negb (char_eqb (char_at data 1) space)
  then false
  else true.

(** The iterator [it] of the post-processing functions is the split of
    [m_Lines] into the lines before it ([done]) and the lines from it on.
    Each function returns the split it leaves and its result. *)
Definition PostProcessSequence (done : list ReaderLine) (pLine : ReaderLine)
    (rest : list ReaderLine) : list ReaderLine * list ReaderLine * bool :=
  if negb (IsSequenceStart (Data pLine)) then (done, pLine :: rest, false)
  else
    let pLine := set_Type pLine SequenceType in
    match find_first_not_of blanks (Data pLine) 1 with
    | None => (done ++ [pLine], rest, true)
    | Some valueStart =>
        let newLine := substr_from (Data pLine) valueStart in
        (done ++ [set_Data pLine []],
         new_ReaderLine newLine (No pLine) (Offset pLine + valueStart) :: rest,
         false)
    end.

(** The value region of a map line: where it starts and what it holds;
    [None] when [value] stays empty and [valueStart] stays [npos]. *)
Definition mapping_value (data : str) (tokenPos : nat) : option (nat * str) :=
  if Nat.eqb (tokenPos + 1) (length data) then None
  else
    match find_first_not_of blanks data (tokenPos + 1) with
    | Some valueStart => Some (valueStart, substr_from data valueStart)
    | None => None
    end.

Definition PostProcessMapping (done : list ReaderLine) (pLine : ReaderLine)
    (rest : list ReaderLine)
  : list ReaderLine * list ReaderLine * outcome bool :=
  match FindNotCited_count (Data pLine) ":"%char with
  | (None, _) => (done, pLine :: rest, Ok false)
  | (Some tokenPos, preKeyQuotes) =>
      if Nat.ltb 1 preKeyQuotes then
        (done, pLine :: rest, Throw (ParsingException g_ErrorKeyIncorrect (No pLine)))
      else
        let data := Data pLine in
        let pLine := set_Type pLine MapType in
        let key := substr data 0 tokenPos in
        match find_last_not_of blanks key with
        | None =>
            (done, pLine :: rest,
             Throw (ParsingException g_ErrorKeyMissing (No pLine)))
        | Some keyEnd =>
            let key := resize key (keyEnd + 1) in
            if Nat.eqb preKeyQuotes 1
               && (negb (char_eqb (char_at key 0) dquote)
                   || negb (char_eqb (char_at key (length key - 1)) dquote))
            then
              (done, pLine :: rest,
               Throw (ParsingException g_ErrorKeyIncorrect (No pLine)))
            else
              let key :=
                if Nat.eqb preKeyQuotes 1 then substr key 1 (length key - 2)
                else key in
              let key := RemoveAllEscapeTokens key in
              let value := mapping_value data tokenPos in
              if match value with
                 | Some (_, v) => IsSequenceStart v
                 | None => false
                 end
              then
                (done, pLine :: rest,
                 Throw (ParsingException g_ErrorBlockSequenceNotAllowed (No pLine)))
              else
                let pLine := set_Data pLine key in
                match value with
                | Some (valueStart, value) =>
                    if str_eqb value (lit "|") then
                      (done ++ [SetFlag (SetFlag pLine LiteralScalarFlag) ScalarNewlineFlag],
                       rest, Ok false)
                    else if str_eqb value (lit ">") then
                      (done ++ [SetFlag (SetFlag pLine FoldedScalarFlag) ScalarNewlineFlag],
                       rest, Ok false)
                    else if str_eqb value (lit "|-") then
                      (done ++ [SetFlag pLine LiteralScalarFlag], rest, Ok false)
                    else if str_eqb value (lit ">-") then
                      (done ++ [SetFlag pLine FoldedScalarFlag], rest, Ok false)
                    else if match rest with
                            | next :: _ => Nat.ltb (Offset pLine) (Offset next)
                            | [] => false
                            end
                    then
                      (done ++ [pLine], rest,
                       Throw (ParsingException g_ErrorIncorrectOffset (No pLine)))
                    else
                      let '(found, quoteStart, quoteEnd) := FindQuote value 0 in
                      if found || char_eqb (char_at value 0) dquote then
                        if match quoteStart with Some 0 => true | _ => false end
                           && negb match quoteEnd with
                                   | Some e => Nat.eqb e (length value - 1)
                                   | None => false
                                   end
                        then
                          (done ++ [pLine], rest,
                           Throw (ParsingException g_ErrorValueIncorrect (No pLine)))
                        else
                          (done ++ [pLine],
                           new_ReaderLine (substr value 1 (length value - 2))
                             (No pLine) valueStart :: rest,
                           Ok false)
                      else
                        (done ++ [pLine],
                         new_ReaderLine value (No pLine) valueStart :: rest,
                         Ok false)
                | None =>
                    match rest with
                    | next :: _ =>
                        if Nat.leb (Offset next) (Offset pLine) then
                          (done ++ [pLine;
                                    set_Type (new_ReaderLine [] (No pLine) (tokenPos + 1))
                                      ScalarType],
                           rest, Ok true)
                        else (done ++ [pLine], rest, Ok true)
                    | [] => (done ++ [pLine], rest, Ok true)
                    end
                end
        end
  end.

(** The merging loop of [PostProcessScalar]. *)
Fixpoint PostProcessScalar_merge (pLine : ReaderLine) (rest : list ReaderLine)
  : ReaderLine * list ReaderLine :=
  let finish :=
    if GetFlag pLine ScalarNewlineFlag
    then set_Data pLine (Data pLine ++ [newline])
    else pLine in
  match rest with
  | [] => (finish, [])
  | pNextLine :: rest' =>
      if Nat.ltb (Offset pNextLine) (Offset pLine) then (finish, rest)
      else
        let sep :=
          if GetFlag pLine LiteralScalarFlag then [newline]
          else if GetFlag pLine FoldedScalarFlag then [space]
          else [] in
        let data :=
          Data pLine ++ sep ++ spaces (Offset pNextLine - Offset pLine)
            ++ Data pNextLine in
        PostProcessScalar_merge (set_Data pLine data) rest'
  end.

(** [PostProcessScalar(it)]; with [it] at [end()] the source dereferences
    the end iterator. *)
Definition PostProcessScalar (done : list ReaderLine) (lines : list ReaderLine)
  : list ReaderLine * list ReaderLine * outcome unit :=
  match lines with
  | [] => (done, [], Undefined)
  | pLine :: rest =>
      let pLine := set_Type pLine ScalarType in
      let pLine :=
        match rev done with
        | pPrevLine :: _ => CopyScalarFlags pLine pPrevLine
        | [] => pLine
        end in
      if GetFlag pLine FoldedScalarFlag || GetFlag pLine LiteralScalarFlag then
        let (pLine', rest') := PostProcessScalar_merge pLine rest in
        (done ++ [pLine'], rest', Ok tt)
      else (done ++ [pLine], rest, Ok tt)
  end.

(** One round of the first [for] loop of [PostProcessLines], with the
    iterator at [pLine]: the split of the lines it leaves.  A line that
    [PostProcessSequence] splits goes on to [PostProcessMapping] in the same
    round. *)
Definition PostProcess_round (done : list ReaderLine) (pLine : ReaderLine)
    (rest : list ReaderLine)
  : list ReaderLine * list ReaderLine * outcome unit :=
  match PostProcessSequence done pLine rest with
  | (done1, rest1, true) => (done1, rest1, Ok tt)
  | (done1, [], false) => (done1, [], Undefined)
  | (done1, pLine1 :: rest1, false) =>
      match PostProcessMapping done1 pLine1 rest1 with
      | (done2, rest2, Ok true) => (done2, rest2, Ok tt)
      | (done2, rest2, Ok false) => PostProcessScalar done2 rest2
      | (done2, rest2, Throw e) => (done2, rest2, Throw e)
      | (done2, rest2, Undefined) => (done2, rest2, Undefined)
      | (done2, rest2, OutOfFuel) => (done2, rest2, OutOfFuel)
      end
  end.

(** The first [for] loop of [PostProcessLines]. *)
Fixpoint PostProcessLines_loop (fuel : nat) (done rest : list ReaderLine)
  : list ReaderLine * outcome unit :=
  match rest with
  | [] => (done, Ok tt)
  | pLine :: rest' =>
      match fuel with
      | O => (done ++ rest, OutOfFuel)
      | S fuel' =>
          match PostProcess_round done pLine rest' with
          | (done1, rest1, Ok _) => PostProcessLines_loop fuel' done1 rest1
          | (done1, rest1, Throw e) => (done1 ++ rest1, Throw e)
          | (done1, rest1, Undefined) => (done1 ++ rest1, Undefined)
          | (done1, rest1, OutOfFuel) => (done1 ++ rest1, OutOfFuel)
          end
      end
  end.

Definition PostProcessLines (m_Lines : list ReaderLine)
  : list ReaderLine * outcome unit :=
  match PostProcessLines_loop (S (length m_Lines)) [] m_Lines with
  | (lines, Ok _) =>
      match rev lines with
      | back :: _ =>
          if negb (eType_eqb (Type_ back) ScalarType) then
            (lines, Throw (ParsingException g_ErrorUnexpectedDocumentEnd (No back)))
          else (lines, Ok tt)
      | [] => (lines, Ok tt)
      end
  | r => r
  end.

(* ================================================================== *)
(** ** ReaderImp::ProcessRoot and the tree builders                     *)
(* ================================================================== *)

(** [ProcessScalar(node, it)] *)
Definition ProcessScalar (node : Node) (lines : list ReaderLine)
  : Node * outcome (list ReaderLine) :=
  match lines with
  | pLine :: rest => (Node_assign_string node (Data pLine), Ok rest)
  | [] => (node, Undefined)
  end.

(** What [ProcessSequence] and [ProcessMap] do after the value of an entry
    is built: look at the line the iterator is at. *)
Inductive after_value := Leave | Again | Fail (e : Exception).

Definition check_next (pLine : ReaderLine) (lines : list ReaderLine)
  : after_value :=
  match lines with
  | [] => Leave
  | pNextLine :: _ =>
      if Nat.ltb (Offset pNextLine) (Offset pLine) then Leave
      else if Nat.ltb (Offset pLine) (Offset pNextLine) then
        Fail (ParsingException g_ErrorIncorrectOffset (No pNextLine))
      else if negb (eType_eqb (Type_ pNextLine) (Type_ pLine)) then
        Fail (InternalException g_ErrorDiffEntryNotAllowed (No pNextLine))
      else Again
  end.

(** A tree builder: the node as it is left, and the lines from the
    iterator on. *)
Definition builder : Type :=
  Node -> list ReaderLine -> Node * outcome (list ReaderLine).

(** The [switch (valueType)] of the builders, on the line [vLine] the
    iterator is at. *)
Definition process_value (seq_ map_ : builder) (vLine : ReaderLine) : builder :=
  match Type_ vLine with
  | SequenceType => seq_
  | MapType => map_
  | ScalarType => ProcessScalar
  | NoneType => fun child rest => (child, Ok rest)
  end.

(** The end of a round of the builders' loop: [node2] is the node with the
    value built, [again] the next round. *)
Definition after_round (again : builder) (pLine : ReaderLine) (node2 : Node)
    (res : outcome (list ReaderLine)) : Node * outcome (list ReaderLine) :=
  match res with
  | Ok rest' =>
      match check_next pLine rest' with
      | Leave => (node2, Ok rest')
      | Fail e => (node2, Throw e)
      | Again => again node2 rest'
      end
  | Throw e => (node2, Throw e)
  | Undefined => (node2, Undefined)
  | OutOfFuel => (node2, OutOfFuel)
  end.

(** [ProcessSequence(node, it)] and [ProcessMap(node, it)]. *)
Fixpoint ProcessSequence (fuel : nat) (node : Node) (lines : list ReaderLine)
  {struct fuel} : Node * outcome (list ReaderLine) :=
  match fuel with
  | O => (node, OutOfFuel)
  | S fuel' =>
      match lines with
      | [] => (node, Ok [])
      | pLine :: rest =>
          let (node1, r) := Node_PushBack node in
          match rest with
          | [] =>
              (node1,
               Throw (InternalException g_ErrorUnexpectedDocumentEnd (No pLine)))
          | vLine :: _ =>
              let (childNode, res) :=
                process_value (ProcessSequence fuel') (ProcessMap fuel') vLine
                  NoneNode rest in
              after_round (ProcessSequence fuel') pLine
                (set_child node1 r childNode) res
          end
      end
  end
with ProcessMap (fuel : nat) (node : Node) (lines : list ReaderLine)
  {struct fuel} : Node * outcome (list ReaderLine) :=
  match fuel with
  | O => (node, OutOfFuel)
  | S fuel' =>
      match lines with
      | [] => (node, Ok [])
      | pLine :: rest =>
          let node1 := Node_at_key node (Data pLine) in
          match rest with
          | [] =>
              (node1,
               Throw (InternalException g_ErrorUnexpectedDocumentEnd (No pLine)))
          | vLine :: _ =>
              let (childNode, res) :=
                process_value (ProcessSequence fuel') (ProcessMap fuel') vLine
                  (get_child_key node1 (Data pLine)) rest in
              after_round (ProcessMap fuel') pLine
                (set_child_key node1 (Data pLine) childNode) res
          end
      end
  end.

Definition ProcessRoot (root : Node) (m_Lines : list ReaderLine)
  : Node * outcome unit :=
  match m_Lines with
  | [] => (root, Ok tt)
  | pLine :: _ =>
      let fuel := S (length m_Lines) in
      let (root', res) :=
        process_value (ProcessSequence fuel) (ProcessMap fuel) pLine
          root m_Lines in
      match res with
      | Ok [] => (root', Ok tt)
      | Ok (_ :: _) =>
          (root', Throw (InternalException g_ErrorUnexpectedDocumentEnd (No pLine)))
      | Throw e => (root', Throw e)
      | Undefined => (root', Undefined)
      | OutOfFuel => (root', OutOfFuel)
      end
  end.

(* ================================================================== *)
(** ** ReaderImp::Parse                                                 *)
(* ================================================================== *)

(** What a parse leaves behind: the target root and [m_Lines]. *)
Record ReaderState := mkState {
  root : Node;
  m_Lines : list ReaderLine
}.

Definition ClearLines (st : ReaderState) : ReaderState :=
  mkState (root st) [].

(** The [try] block of [ReaderImp::Parse]. *)
Definition Parse_try (root0 : Node) (stream : str) : ReaderState * outcome unit :=
  let root1 := Node_Clear root0 in
  match ReadLines stream with
  | (lines, Ok _) =>
      match PostProcessLines lines with
      | (lines', Ok _) =>
          let (root2, res) := ProcessRoot root1 lines' in
          (mkState root2 lines', res)
      | (lines', res) => (mkState root1 lines', res)
      end
  | (lines, res) => (mkState root1 lines, res)
  end.

(** [ReaderImp::Parse]: the [catch (Exception e)] handler clears the lines
    and the root and throws the exception on. *)
Definition ReaderImp_Parse (root0 : Node) (stream : str)
  : ReaderState * outcome unit :=
  match Parse_try root0 stream with
  | (st, Throw e) =>
      let st1 := ClearLines st in
      (mkState (Node_Clear (root st1)) (m_Lines st1), Throw e)
  | r => r
  end.

(** [Yaml::Parse(root, stream)]: the reader is deleted on every way out;
    what the caller keeps is the root. *)
Definition Parse (root0 : Node) (stream : str) : Node * outcome unit :=
  let (st, res) := ReaderImp_Parse root0 stream in (root st, res).

(* ================================================================== *)
(** ** Serialize                                                        *)
(* ================================================================== *)

Record SerializeConfig := mkConfig {
  SpaceIndentation : nat;
  ScalarMaxLength : nat;
  SequencMapNewline : bool;
  MapScalarNewline : bool
}.

(** The pieces [LineFolding] leaves in [folded]. *)
Definition LineFolding_pieces (input : str) (maxLength : nat) : list str :=
  match LineFolding input maxLength with
  | Some folded => folded
  | None => []
  end.

(** The [ScalarType] case of [SerializeLoop]. *)
Definition SerializeScalar (value : str) (useLevel : bool) (level : nat)
    (config : SerializeConfig) : str :=
  if Nat.eqb (length value) 0 then [newline]
  else
    let lines := getlines value in
    let endNewline := Nat.eqb (length (last lines [])) 0 in
    let lines := if endNewline then removelast lines else lines in
    let plain :=
      (if useLevel then spaces level else []) ++ value ++ [newline] in
    let block (indicator : ascii) (lines : list str) :=
      [indicator] ++ (if endNewline then [] else lit "-") ++ [newline]
        ++ concat (map (fun l => spaces level ++ l ++ [newline]) lines) in
    if Nat.ltb 1 (length lines) then block "|"%char lines
    else
      let frontLine := hd [] lines in
      if Nat.eqb (ScalarMaxLength config) 0
         || Nat.leb (length frontLine) (ScalarMaxLength config)
      then plain
      else
        let folded := LineFolding_pieces frontLine (ScalarMaxLength config) in
        if Nat.eqb (length folded) 1 then plain else block ">"%char folded.

(** The key as [SerializeLoop] writes it, with [": "]. *)
Definition serialize_key (k : str) : str :=
  let key := AddEscapeTokens k [backslash; dquote] in
  if KeyShouldBeCited key then [dquote] ++ key ++ [dquote] ++ lit ": "
  else key ++ lit ": ".

(** The loops of [SerializeLoop] over the children; [serialize] is
    [SerializeLoop] itself on a child. *)
Section SerializeChildren.
Variable serialize : Node -> bool -> nat -> str.
Variable config : SerializeConfig.
Variable level : nat.

(** What one entry of a sequence appends. *)
Definition serialize_item (value : Node) : str :=
  let useLevel :=
    IsSequence value || (IsMap value && SequencMapNewline config) in
  spaces level ++ lit "- "
    ++ (if useLevel then [newline] else [])
    ++ serialize value useLevel (level + 2).

(** What one entry of a map appends; [indent] is [useLevel || count > 0]. *)
Definition serialize_entry (indent : bool) (key : str) (value : Node) : str :=
  let useLevel :=
    negb (IsScalar value) || (IsScalar value && MapScalarNewline config) in
  (if indent then spaces level else [])
    ++ serialize_key key
    ++ (if useLevel then [newline] else [])
    ++ serialize value useLevel (level + SpaceIndentation config).

Fixpoint serialize_sequence (l : list (N * Node)) : str :=
  match l with
  | [] => []
  | (_, value) :: l' =>
      if IsNone value then serialize_sequence l'
      else serialize_item value ++ serialize_sequence l'
  end.

Fixpoint serialize_map (l : list (str * Node)) (useLevel : bool) (count : nat)
  : str :=
  match l with
  | [] => []
  | (key, value) :: l' =>
      if IsNone value then serialize_map l' useLevel count
      else
        serialize_entry (useLevel || Nat.ltb 0 count) key value
          ++ serialize_map l' true (S count)
  end.
End SerializeChildren.

(** [SerializeLoop(node, stream, useLevel, level, config)]: what it
    appends to the stream. *)
Fixpoint SerializeLoop (config : SerializeConfig) (node : Node)
    (useLevel : bool) (level : nat) {struct node} : str :=
  match node with
  | SequenceNode m =>
      serialize_sequence (SerializeLoop config) config level m
  | MapNode m =>
      serialize_map (SerializeLoop config) config level m useLevel 0
  | ScalarNode value => SerializeScalar value useLevel level config
  | NoneNode => []
  end.

(** [Serialize(root, string, config)] *)
Definition Serialize (root : Node) (config : SerializeConfig) : outcome str :=
  if Nat.ltb (SpaceIndentation config) 2
  then Throw (OperationException g_ErrorIndentation)
  else Ok (SerializeLoop config root false 0).

(* ================================================================== *)
(** ** Sequences built at the tail                                      *)
(* ================================================================== *)

(** Keys [0, 1, ..., size-1]. *)
Definition dense_keys (m : SequenceImp) : Prop :=
  map fst m = map N.of_nat (seq 0 (length m)).

(** A sequence reached from the empty one by [PushBack], by [PushFront]
    on a sequence without children, and by [Erase] at the last position or
    beyond it. *)
Inductive tail_built : Node -> Prop :=
| tail_built_empty : tail_built (SequenceNode [])
| tail_built_PushBack n :
    tail_built n -> tail_built (fst (Node_PushBack n))
| tail_built_PushFront n fuel n' r :
    tail_built n -> Node_Size n = 0%N ->
    Node_PushFront fuel n = Some (n', r) -> tail_built n'
| tail_built_Erase n i :
    tail_built n -> (Node_Size n <= i + 1)%N -> tail_built (Node_Erase n i).

(* ================================================================== *)
(** ** Maps as programs build them                                      *)
(* ================================================================== *)

(** A map reached from the empty one by [operator[](key)], by writing
    through the reference it returns, and by [Erase(key)]. *)
Inductive map_built : Node -> Prop :=
| map_built_empty : map_built (MapNode [])
| map_built_at_key n key :
    map_built n -> map_built (Node_at_key n key)
| map_built_write n key c :
    map_built n -> map_built (set_child_key (Node_at_key n key) key c)
| map_built_Erase n key :
    map_built n -> map_built (Node_Erase_key n key).

(* ================================================================== *)
(** ** Plain keys, plain payloads and lines of text                     *)
(* ================================================================== *)

(** The characters [ReadLines] accepts besides the tab. *)
Definition printable (c : ascii) : bool :=
  Nat.leb 32 (nat_of_ascii c) && Nat.leb (nat_of_ascii c) 125.


(** A key that [SerializeLoop] writes bare and unchanged. *)
Definition key_char (c : ascii) : bool :=
  printable c
  && negb (char_in c (backslash :: dquote :: lit ":{}[],&*#?|-<>=!%@")).

(** Not empty, no space at either end. *)
Definition trimmed (s : str) : bool :=
  negb (Nat.eqb (length s) 0)
  && negb (char_eqb (char_at s 0) space)
  && negb (char_eqb (char_at s (length s - 1)) space).



Definition plain_key (k : str) : bool := trimmed k && forallb key_char k.

(** A line of the emitted text: indentation, text, and whether a space
    trails the text. *)
Record pline := mkP {
  p_offset : nat;
  p_text : str;
  p_trail : bool
}.

Definition line_text (l : pline) : str :=
  spaces (p_offset l) ++ p_text l ++ (if p_trail l then [space] else []).

Definition render_line (l : pline) : str := line_text l ++ [newline].

Definition render (ls : list pline) : str := concat (map render_line ls).



(** The line [ReadLines] makes of an emitted line. *)
Definition read_line (no : nat) (l : pline) : ReaderLine :=
  mkLine (p_text l) no (p_offset l) NoneType 0.

Fixpoint read_lines (no : nat) (ls : list pline) : list ReaderLine :=
  match ls with
  | [] => []
  | l :: tl => read_line no l :: read_lines (S no) tl
  end.

(** The post-processed lines of a tree whose entries sit at [offset]. *)
Definition scalar_line (s : str) (l : ReaderLine) : Prop :=
  Type_ l = ScalarType /\ Data l = s /\ Flags l = 0%N.

Definition key_line (offset : nat) (k : str) (l : ReaderLine) : Prop :=
  Type_ l = MapType /\ Offset l = offset /\ Data l = k /\ Flags l = 0%N.


(** What [ReadLines] needs of an emitted line to hand it on unchanged. *)
Definition text_char (c : ascii) : bool :=
  printable c && negb (char_eqb "#"%char c).

Definition good_pline (l : pline) : Prop :=
  trimmed (p_text l) = true
  /\ Forall (fun c => text_char c = true) (p_text l)
  /\ p_text l <> lit "---" /\ p_text l <> lit "...".

(** Lines whose flags are all clear. *)
Definition flags_ok (ls : list ReaderLine) : Prop :=
  Forall (fun l => Flags l = 0%N) ls.


(** A builder that does not run out of fuel on [lines] and leaves fewer
    lines than it was given. *)
Definition builder_ok (b : builder) (bound : nat) : Prop :=
  forall node lines,
    length lines < bound ->
    snd (b node lines) <> OutOfFuel
    /\ forall rest', snd (b node lines) = Ok rest' ->
                     length rest' <= length lines - 1.


(* ================================================================== *)
(** ** Iterator                                                         *)
(* ================================================================== *)

(** [Iterator] and [ConstIterator]: [m_Type] with the [std::map] iterator
    of [m_pImp], which is the map it walks and a position in it counted
    from [begin()]; [end()] is the position after the last entry.  An
    iterator without [m_pImp] has the type [None]. *)
Inductive Iterator :=
| NoneIterator
| SequenceIterator (m : SequenceImp) (pos : nat)
| MapIterator (m : MapImp) (pos : nat).

(** [Node::Begin()] *)
Definition Node_Begin (n : Node) : Iterator :=
  match n with
  | SequenceNode m => SequenceIterator m 0
  | MapNode m => MapIterator m 0
  | _ => NoneIterator
  end.

(** [Node::End()] *)
Definition Node_End (n : Node) : Iterator :=
  match n with
  | SequenceNode m => SequenceIterator m (length m)
  | MapNode m => MapIterator m (length m)
  | _ => NoneIterator
  end.

(** The first component of what [operator*] returns, a
    [const std::string &]: for a map it refers to the key stored in the
    map; for a sequence and for an iterator of the type None it refers to
    a temporary string that is destroyed before the caller can read it. *)
Inductive KeyRef :=
| KeyOf (key : str)
| Dangling.

(** [operator*]: the reference to the key and the child; [None] where the
    source dereferences [end()]. *)
Definition Iterator_deref (it : Iterator) : option (KeyRef * Node) :=
  match it with
  | SequenceIterator m pos =>
      match nth_error m pos with
      | Some e => Some (Dangling, snd e)
      | None => None
      end
  | MapIterator m pos =>
      match nth_error m pos with
      | Some e => Some (KeyOf (fst e), snd e)
      | None => None
      end
  | NoneIterator => Some (Dangling, NoneNode)
  end.

(** [operator++]; [None] where the source increments [end()]. *)
Definition Iterator_incr (it : Iterator) : option Iterator :=
  match it with
  | SequenceIterator m pos =>
      if Nat.ltb pos (length m) then Some (SequenceIterator m (S pos)) else None
  | MapIterator m pos =>
      if Nat.ltb pos (length m) then Some (MapIterator m (S pos)) else None
  | NoneIterator => Some NoneIterator
  end.

(** [operator--]; [None] where the source decrements [begin()]. *)
Definition Iterator_decr (it : Iterator) : option Iterator :=
  match it with
  | SequenceIterator m (S pos) => Some (SequenceIterator m pos)
  | MapIterator m (S pos) => Some (MapIterator m pos)
  | SequenceIterator _ O | MapIterator _ O => None
  | NoneIterator => Some NoneIterator
  end.

(** [operator==], on iterators of one node: two iterators of the type
    [None] are not equal. *)
Definition Iterator_eq (a b : Iterator) : bool :=
  match a, b with
  | SequenceIterator _ p, SequenceIterator _ q => Nat.eqb p q
  | MapIterator _ p, MapIterator _ q => Nat.eqb p q
  | _, _ => false
  end.

(** [operator!=] *)
Definition Iterator_neq (a b : Iterator) : bool := negb (Iterator_eq a b).

(** The loop [for(auto it = n.Begin(); it != n.End(); it++)] of [CopyNode]
    and [SerializeLoop], collecting [*it]. *)
Fixpoint iterate_loop (fuel : nat) (it end_ : Iterator)
  : outcome (list (KeyRef * Node)) :=
  if Iterator_neq it end_ then
    match fuel with
    | O => OutOfFuel
    | S fuel' =>
        match Iterator_deref it, Iterator_incr it with
        | Some e, Some it' =>
            match iterate_loop fuel' it' end_ with
            | Ok l => Ok (e :: l)
            | r => r
            end
        | _, _ => Undefined
        end
    end
  else Ok [].

(* ================================================================== *)
(** ** A tree without its None children                                 *)
(* ================================================================== *)

(** The children that are not None, each without its None children. *)
Section WithoutNone.
Variable without_None : Node -> Node.

Fixpoint without_None_children {K : Type} (l : list (K * Node))
  : list (K * Node) :=
  match l with
  | [] => []
  | (k, c) :: l' =>
      if IsNone c then without_None_children l'
      else (k, without_None c) :: without_None_children l'
  end.
End WithoutNone.

Fixpoint without_None (n : Node) : Node :=
  match n with
  | SequenceNode m => SequenceNode (without_None_children without_None m)
  | MapNode m => MapNode (without_None_children without_None m)
  | _ => n
  end.

(** The bit of [Flags] that [m_FlagMask] gives a flag. *)
Definition flag_bit (flag : eFlag) : N :=
  match flag with
  | LiteralScalarFlag => 0
  | FoldedScalarFlag => 1
  | ScalarNewlineFlag => 2
  end.

(** The pieces with one space between them. *)
Fixpoint join_spaces (pieces : list str) : str :=
  match pieces with
  | [] => []
  | [p] => p
  | p :: ps => p ++ [space] ++ join_spaces ps
  end.

(** The string with a backslash in front of every [token]. *)
Definition escape_token (token : ascii) (s : str) : str :=
  flat_map (fun c => if char_eqb token c then [backslash; c] else [c]) s.

(** A line as [ReadLines] keeps it: not empty, no blank at either end,
    no character but tabs and those in [32, 125], no type and no flag
    yet. *)
Definition read_line_ok (l : ReaderLine) : Prop :=
  Data l <> []
  /\ char_in (char_at (Data l) 0) blanks = false
  /\ char_in (char_at (Data l) (length (Data l) - 1)) blanks = false
  /\ Forall (fun c => invalid_char c = false) (Data l)
  /\ Type_ l = NoneType /\ Flags l = 0%N /\ 1 <= No l.

(** A line that holds nothing but blanks and a comment. *)
Definition blank_or_comment (line : str) : bool :=
  match find_first_not_of blanks line 0 with
  | None => true
  | Some i => char_eqb (char_at line i) "#"%char
  end.

(** Lines of blanks only. *)
Definition all_blank (s : str) : Prop :=
  Forall (fun c => char_in c blanks = true) s.

(** Neither a double quote nor a backslash. *)
Definition unquoted_char (c : ascii) : bool :=
  negb (char_eqb c dquote) && negb (char_eqb c backslash).

(** A builder that leaves a tree of dense sequences and of sequences and
    maps with children, when it is given one. *)
Definition builder_full (b : builder) : Prop :=
  forall node lines, full node -> full (fst (b node lines)).

(** A character that a double-quoted value holds and the reader hands
    on: printable, and none of the double quote, the backslash and [#]. *)
Definition quoted_char (c : ascii) : bool :=
  printable c && negb (char_in c (dquote :: backslash :: lit "#")).

(** The indicator of a block scalar: literal [|] or folded [>], with [-]
    when the last newline is not kept. *)
Definition block_indicator (literal keep : bool) : str :=
  (if literal then lit "|" else lit ">") ++ (if keep then [] else lit "-").

(** What the lines of a block scalar after the first add to it: each
    after the separator, with the spaces by which it is indented further
    than the first line. *)
Fixpoint merge_block (sep : str) (offset : nat) (ls : list pline) : str :=
  match ls with
  | [] => []
  | l :: tl =>
      sep ++ spaces (p_offset l - offset) ++ p_text l
        ++ merge_block sep offset tl
  end.

(** The value of a block scalar whose lines are [l :: tl]. *)
Definition block_value (literal keep : bool) (l : pline) (tl : list pline)
  : str :=
  p_text l
    ++ merge_block (if literal then [newline] else [space]) (p_offset l) tl
    ++ (if keep then [newline] else []).

(** The flags that [PostProcessMapping] sets for a block indicator. *)
Definition block_flags (literal keep : bool) : N :=
  N.lor (if literal then 1 else 2) (if keep then 4 else 0).

(* ================================================================== *)
(** ** Round trip: the trees and the lines written for them            *)
(* ================================================================== *)


(** A character that [ReadLines] accepts: the tab and [32, 125]. *)
Definition line_char (c : ascii) : bool := char_eqb c tab || printable c.




Definition cite_set : str := dquote :: lit ":{}[],&*#?|-<>=!%@".



(** [SerializeLoop] writes the payload on one line: it is not longer than
    the scalar max length, or there is no such length, or [LineFolding]
    leaves it in one piece. *)
Definition one_line (config : SerializeConfig) (s : str) : bool :=
  Nat.eqb (ScalarMaxLength config) 0
  || Nat.leb (length s) (ScalarMaxLength config)
  || Nat.eqb (length (LineFolding_pieces s (ScalarMaxLength config))) 1.



(** The children of a sequence or map: a line follows the text of every
    child but the last, and the text of the last one when a line follows
    the text of the parent. *)
Section RoundtripChildren.
Variable rt : bool -> Node -> Prop.

End RoundtripChildren.








(** The lines [SerializeLoop] writes for a tree at [level]. *)
Section EmittedLines.
Variable config : SerializeConfig.
Variable lines_of : Node -> nat -> list pline.




End EmittedLines.


(** A text without double quote and without [#]. *)
Definition plain_text (t : str) : Prop :=
  Forall (fun x => char_eqb x dquote = false /\ char_eqb "#"%char x = false) t.










Section TreeLines.
Variable config : SerializeConfig.
Variable lines_of : Node -> nat -> list ReaderLine -> Prop.


End TreeLines.



(** A payload that [SerializeLoop] folds. *)
Definition folded (config : SerializeConfig) (n : Node) : bool :=
  match n with
  | ScalarNode s => negb (one_line config s)
  | _ => false
  end.








(** [Parse], into an empty root, of the text that [Serialize] returns. *)
Definition reparse (config : SerializeConfig) (n : Node) : Node * outcome unit :=
  match Serialize n config with
  | Ok text => Parse NoneNode text
  | Throw e => (NoneNode, Throw e)
  | Undefined => (NoneNode, Undefined)
  | OutOfFuel => (NoneNode, OutOfFuel)
  end.

(* ================================================================== *)
(** * Properties                                                        *)
(* ================================================================== *)

(** ** std::map over a strict total order *)

Section StdMapFacts.
Context {K V : Type}.
Variable ltb : K -> K -> bool.
Hypothesis ltb_irrefl : forall a, ltb a a = false.
Hypothesis ltb_trans : forall a b c, ltb a b = true -> ltb b c = true -> ltb a c = true.
Hypothesis ltb_total : forall a b, ltb a b = false -> ltb b a = false -> a = b.

Lemma ltb_asym a b : ltb a b = true -> ltb b a = false.
Proof.
  intros H. destruct (ltb b a) eqn:E; [|reflexivity].
  rewrite <- (ltb_irrefl a). symmetry. eauto.
Qed.

Lemma keys_below_app (m1 m2 : list (K * V)) k :
  keys_below ltb (m1 ++ m2) k <-> keys_below ltb m1 k /\ keys_below ltb m2 k.
Proof. unfold keys_below. apply Forall_app. Qed.

Lemma keys_above_trans a b (m : list (K * V)) :
  ltb a b = true -> keys_above ltb b m -> keys_above ltb a m.
Proof.
  intros Hab H. unfold keys_above in *. rewrite Forall_forall in *.
  intros e He. eauto.
Qed.

Lemma map_find_below (m : list (K * V)) k : keys_below ltb m k -> map_find ltb m k = None.
Proof.
  induction m as [|[k' v'] m IH]; simpl; intros H; [reflexivity|].
  inversion H; subst; simpl in *.
  rewrite (ltb_asym _ _ H2), H2. auto.
Qed.

Lemma map_find_above (m : list (K * V)) k : keys_above ltb k m -> map_find ltb m k = None.
Proof.
  destruct m as [|[k' v'] m]; simpl; intros H; [reflexivity|].
  inversion H; subst; simpl in *. now rewrite H2.
Qed.

Lemma map_find_app_last (m : list (K * V)) k v :
  keys_below ltb m k -> map_find ltb (m ++ [(k, v)]) k = Some v.
Proof.
  induction m as [|[k' v'] m IH]; simpl; intros H.
  - now rewrite ltb_irrefl.
  - inversion H; subst; simpl in *.
    rewrite (ltb_asym _ _ H2), H2. auto.
Qed.

Lemma map_find_app_below (m : list (K * V)) k k' v :
  ltb k' k = true -> map_find ltb (m ++ [(k, v)]) k' = map_find ltb m k'.
Proof.
  intros Hk. induction m as [|[k0 v0] m IH]; simpl.
  - now rewrite Hk.
  - destruct (ltb k' k0); [reflexivity|]. destruct (ltb k0 k'); auto.
Qed.

Lemma map_insert_below (m : list (K * V)) k v :
  keys_below ltb m k -> map_insert ltb m k v = m ++ [(k, v)].
Proof.
  induction m as [|[k' v'] m IH]; simpl; intros H; [reflexivity|].
  inversion H; subst; simpl in *.
  rewrite (ltb_asym _ _ H2), H2. now rewrite IH.
Qed.

Lemma map_assign_below (m : list (K * V)) k v :
  keys_below ltb m k -> map_assign ltb m k v = m ++ [(k, v)].
Proof.
  induction m as [|[k' v'] m IH]; simpl; intros H; [reflexivity|].
  inversion H; subst; simpl in *.
  rewrite (ltb_asym _ _ H2), H2. now rewrite IH.
Qed.

Lemma map_assign_app_last (m : list (K * V)) k v v' :
  keys_below ltb m k -> map_assign ltb (m ++ [(k, v)]) k v' = m ++ [(k, v')].
Proof.
  induction m as [|[k' v0] m IH]; simpl; intros H.
  - now rewrite ltb_irrefl.
  - inversion H; subst; simpl in *.
    rewrite (ltb_asym _ _ H2), H2. now rewrite IH.
Qed.

Lemma map_erase_below (m : list (K * V)) k : keys_below ltb m k -> map_erase ltb m k = m.
Proof.
  induction m as [|[k' v'] m IH]; simpl; intros H; [reflexivity|].
  inversion H; subst; simpl in *.
  rewrite (ltb_asym _ _ H2), H2. now rewrite IH.
Qed.

Lemma map_erase_app_last (m : list (K * V)) k v :
  keys_below ltb m k -> map_erase ltb (m ++ [(k, v)]) k = m.
Proof.
  induction m as [|[k' v'] m IH]; simpl; intros H.
  - now rewrite ltb_irrefl.
  - inversion H; subst; simpl in *.
    rewrite (ltb_asym _ _ H2), H2. now rewrite IH.
Qed.

Lemma map_find_In (m : list (K * V)) k v :
  ascending ltb m -> In (k, v) m -> map_find ltb m k = Some v.
Proof.
  induction m as [|[k' v'] m IH]; simpl; intros Hs Hin; [contradiction|].
  destruct Hs as [Hab Hs]. destruct Hin as [E|Hin].
  - inversion E; subst. now rewrite ltb_irrefl.
  - assert (Hlt : ltb k' k = true).
    { unfold keys_above in Hab. rewrite Forall_forall in Hab.
      apply (Hab (k, v) Hin). }
    rewrite (ltb_asym _ _ Hlt), Hlt. auto.
Qed.

Lemma map_find_Some_In (m : list (K * V)) k v : map_find ltb m k = Some v -> In (k, v) m.
Proof.
  induction m as [|[k' v'] m IH]; simpl; [discriminate|].
  destruct (ltb k k') eqn:E1; [discriminate|].
  destruct (ltb k' k) eqn:E2.
  - intros H. right. auto.
  - intros H. inversion H; subst. left. f_equal. symmetry. now apply ltb_total.
Qed.

Lemma map_insert_keys_above a (m : list (K * V)) k v :
  ltb a k = true -> keys_above ltb a m -> keys_above ltb a (map_insert ltb m k v).
Proof.
  intros Hak. induction m as [|[k' v'] m IH]; simpl; intros H.
  - constructor; [assumption|constructor].
  - inversion H; subst; simpl in *.
    destruct (ltb k k'); [constructor; assumption|].
    destruct (ltb k' k); [|assumption].
    constructor; [assumption|]. now apply IH.
Qed.

Lemma map_insert_ascending (m : list (K * V)) k v :
  ascending ltb m -> ascending ltb (map_insert ltb m k v).
Proof.
  induction m as [|[k' v'] m IH]; simpl; intros Hs.
  - split; [constructor|exact I].
  - destruct Hs as [Hab Hs].
    destruct (ltb k k') eqn:E1.
    + simpl. split; [|split; assumption].
      constructor; [assumption|]. now apply keys_above_trans with k'.
    + destruct (ltb k' k) eqn:E2.
      * simpl. split; [now apply map_insert_keys_above|auto].
      * simpl. split; assumption.
Qed.

Lemma map_insert_keys (m : list (K * V)) k v x :
  In x (map fst (map_insert ltb m k v)) <-> x = k \/ In x (map fst m).
Proof.
  induction m as [|[k' v'] m IH]; simpl.
  - intuition.
  - destruct (ltb k k') eqn:E1; simpl; [intuition|].
    destruct (ltb k' k) eqn:E2; simpl.
    + rewrite IH. intuition.
    + assert (k = k') by now apply ltb_total. subst. intuition.
Qed.

Lemma map_erase_keys_above a (m : list (K * V)) k :
  keys_above ltb a m -> keys_above ltb a (map_erase ltb m k).
Proof.
  induction m as [|[k' v'] m IH]; simpl; intros H; [assumption|].
  inversion H; subst.
  destruct (ltb k k'); [assumption|]. destruct (ltb k' k); [|assumption].
  constructor; [assumption|]. now apply IH.
Qed.

Lemma map_erase_ascending (m : list (K * V)) k : ascending ltb m -> ascending ltb (map_erase ltb m k).
Proof.
  induction m as [|[k' v'] m IH]; simpl; intros Hs; [exact I|].
  destruct Hs as [Hab Hs].
  destruct (ltb k k'); [split; assumption|].
  destruct (ltb k' k); [|assumption].
  simpl. split; [now apply map_erase_keys_above|auto].
Qed.

Lemma ascending_app (m : list (K * V)) k v :
  ascending ltb m -> keys_below ltb m k -> ascending ltb (m ++ [(k, v)]).
Proof.
  induction m as [|[k' v'] m IH]; simpl; intros Hs Hb.
  - split; [constructor|exact I].
  - destruct Hs as [Hab Hs]. inversion Hb; subst; simpl in *. split; [|auto].
    unfold keys_above. apply Forall_app. split; [assumption|].
    constructor; [assumption|constructor].
Qed.

Lemma map_last_key_app (m : list (K * V)) k v : map_last_key (m ++ [(k, v)]) = Some k.
Proof.
  induction m as [|[k' v'] m IH]; simpl; [reflexivity|].
  rewrite IH. destruct (m ++ [(k, v)]) eqn:E; [|reflexivity].
  destruct m; discriminate.
Qed.

Lemma map_next_key_app_last (m : list (K * V)) k v k' :
  keys_below ltb m k -> ltb k k' = true ->
  map_next_key ltb (m ++ [(k, v); (k', v)]) k = Some k'.
Proof.
  induction m as [|[k0 v0] m IH]; simpl; intros H Hk.
  - now rewrite ltb_irrefl, Hk.
  - inversion H; subst; simpl in *. rewrite (ltb_asym _ _ H2). auto.
Qed.

Lemma map_assign_keys_above a (m : list (K * V)) k v :
  ltb a k = true -> keys_above ltb a m -> keys_above ltb a (map_assign ltb m k v).
Proof.
  intros Hak. induction m as [|[k' v'] m IH]; simpl; intros H.
  - constructor; [assumption|constructor].
  - inversion H; subst; simpl in *.
    destruct (ltb k k'); [constructor; assumption|].
    destruct (ltb k' k); constructor; try assumption. now apply IH.
Qed.

Lemma map_assign_ascending (m : list (K * V)) k v :
  ascending ltb m -> ascending ltb (map_assign ltb m k v).
Proof.
  induction m as [|[k' v'] m IH]; simpl; intros Hs.
  - split; [constructor|exact I].
  - destruct Hs as [Hab Hs].
    destruct (ltb k k') eqn:E1.
    + simpl. split; [|split; assumption].
      constructor; [assumption|]. now apply keys_above_trans with k'.
    + destruct (ltb k' k) eqn:E2.
      * simpl. split; [now apply map_assign_keys_above|auto].
      * assert (k = k') by now apply ltb_total. subst.
        simpl. split; assumption.
Qed.

Lemma map_assign_keys (m : list (K * V)) k v x :
  In x (map fst (map_assign ltb m k v)) <-> x = k \/ In x (map fst m).
Proof.
  induction m as [|[k' v'] m IH]; simpl.
  - intuition.
  - destruct (ltb k k') eqn:E1; simpl; [intuition|].
    destruct (ltb k' k) eqn:E2; simpl.
    + rewrite IH. intuition.
    + assert (k = k') by now apply ltb_total. subst. intuition.
Qed.

End StdMapFacts.

(** ** The two key orders *)

Lemma N_ltb_irrefl (a : N) : N.ltb a a = false.
Proof. apply N.ltb_irrefl. Qed.

Lemma N_ltb_trans (a b c : N) :
  N.ltb a b = true -> N.ltb b c = true -> N.ltb a c = true.
Proof. rewrite !N.ltb_lt. lia. Qed.

Lemma N_ltb_total (a b : N) : N.ltb a b = false -> N.ltb b a = false -> a = b.
Proof. rewrite !N.ltb_ge. lia. Qed.

Lemma str_ltb_irrefl (a : str) : str_ltb a a = false.
Proof.
  induction a as [|c a IH]; simpl; [reflexivity|].
  now rewrite N.ltb_irrefl.
Qed.

Lemma str_ltb_trans (a b c : str) :
  str_ltb a b = true -> str_ltb b c = true -> str_ltb a c = true.
Proof.
  revert b c. induction a as [|x a IH]; intros [|y b] [|z c]; simpl;
    try discriminate; try reflexivity.
  destruct (N.ltb_spec (N_of_ascii x) (N_of_ascii y));
  destruct (N.ltb_spec (N_of_ascii y) (N_of_ascii x));
  destruct (N.ltb_spec (N_of_ascii y) (N_of_ascii z));
  destruct (N.ltb_spec (N_of_ascii z) (N_of_ascii y));
  destruct (N.ltb_spec (N_of_ascii x) (N_of_ascii z));
  destruct (N.ltb_spec (N_of_ascii z) (N_of_ascii x));
  try discriminate; try reflexivity; try lia.
  apply IH.
Qed.

Lemma str_ltb_total (a b : str) :
  str_ltb a b = false -> str_ltb b a = false -> a = b.
Proof.
  revert b. induction a as [|x a IH]; intros [|y b]; simpl;
    try discriminate; try reflexivity.
  destruct (N.ltb_spec (N_of_ascii x) (N_of_ascii y));
  destruct (N.ltb_spec (N_of_ascii y) (N_of_ascii x));
  try discriminate; try lia.
  intros H1 H2. f_equal; [|now apply IH].
  assert (E : N_of_ascii x = N_of_ascii y) by lia.
  rewrite <- (ascii_N_embedding x), <- (ascii_N_embedding y). now rewrite E.
Qed.

(** ** Dense sequences *)

Lemma dense_keys_snoc (m : SequenceImp) (v : Node) :
  dense_keys m -> dense_keys (m ++ [(N.of_nat (length m), v)]).
Proof.
  unfold dense_keys. intros H.
  rewrite length_app, map_app. simpl.
  rewrite Nat.add_1_r, seq_S, map_app. simpl. now rewrite H.
Qed.

Lemma dense_keys_unsnoc (m : SequenceImp) (e : N * Node) :
  dense_keys (m ++ [e]) -> dense_keys m /\ fst e = N.of_nat (length m).
Proof.
  unfold dense_keys. rewrite length_app, map_app. simpl.
  rewrite Nat.add_1_r, seq_S, map_app. simpl. intros H.
  apply app_inj_tail in H. exact H.
Qed.

Lemma dense_keys_below (m : SequenceImp) (k : N) :
  dense_keys m -> (N.of_nat (length m) <= k)%N -> keys_below N.ltb m k.
Proof.
  unfold dense_keys, keys_below. intros H Hk.
  rewrite Forall_forall. intros e He.
  apply (in_map fst) in He. rewrite H in He.
  apply in_map_iff in He. destruct He as [i [Hi Hin]].
  apply in_seq in Hin. rewrite <- Hi. apply N.ltb_lt. lia.
Qed.

Lemma dense_keys_find (m : SequenceImp) (i : N) :
  dense_keys m -> (i < N.of_nat (length m))%N ->
  exists v, map_find N.ltb m i = Some v.
Proof.
  induction m as [|e m IH] using rev_ind; intros H Hi.
  - simpl in Hi. lia.
  - destruct e as [k v]. apply dense_keys_unsnoc in H. destruct H as [H Hk].
    simpl in Hk. subst k. rewrite length_app in Hi. simpl in Hi.
    destruct (N.eq_dec i (N.of_nat (length m))) as [E|E].
    + subst i. exists v.
      apply (map_find_app_last N.ltb N_ltb_irrefl N_ltb_trans).
      apply dense_keys_below; [assumption|lia].
    + destruct IH as [w Hw]; [assumption|lia|]. exists w.
      rewrite (map_find_app_below N.ltb); [assumption|].
      apply N.ltb_lt. lia.
Qed.

Lemma dense_keys_PushBack (m : SequenceImp) :
  dense_keys m -> dense_keys (fst (SequenceImp_PushBack m)).
Proof.
  intros H. unfold SequenceImp_PushBack, seq_insert_new.
  destruct m as [|e0 m0] using rev_ind.
  - simpl. reflexivity.
  - clear IHm0. destruct e0 as [k v].
    rewrite (map_last_key_app m0 k v).
    destruct (map_find N.ltb (m0 ++ [(k, v)]) (size_t_succ k)) eqn:F;
      [exact H|]. simpl.
    pose proof (dense_keys_unsnoc _ _ H) as [H0 Hk]. simpl in Hk.
    assert (Hlen : length (m0 ++ [(k, v)]) = S (length m0))
      by (rewrite length_app; simpl; lia).
    assert (Hs : size_t_succ k = N.of_nat (length (m0 ++ [(k, v)]))).
    { unfold size_t_succ.
      destruct (N.lt_ge_cases (k + 1) SIZE_MOD) as [Hlt|Hge].
      - rewrite N.mod_small by assumption. rewrite Hlen. lia.
      - exfalso.
        assert (Hm : ((k + 1) mod SIZE_MOD < SIZE_MOD)%N)
          by (apply N.mod_lt; unfold SIZE_MOD; discriminate).
        destruct (dense_keys_find (m0 ++ [(k, v)]) ((k + 1) mod SIZE_MOD) H)
          as [w Hw]; [rewrite Hlen; lia|].
        unfold size_t_succ in F. rewrite F in Hw. discriminate. }
    rewrite Hs.
    rewrite (map_insert_below N.ltb N_ltb_irrefl N_ltb_trans).
    + now apply dense_keys_snoc.
    + apply dense_keys_below; [assumption|lia].
Qed.

Lemma dense_keys_Erase_tail (m : SequenceImp) (i : N) :
  dense_keys m -> (N.of_nat (length m) <= i + 1)%N ->
  dense_keys (SequenceImp_Erase m i).
Proof.
  unfold SequenceImp_Erase. intros H Hi.
  destruct m as [|e0 m0] using rev_ind; [exact H|]. clear IHm0.
  destruct e0 as [k v].
  pose proof (dense_keys_unsnoc _ _ H) as [H0 Hk]. simpl in Hk.
  rewrite length_app in Hi. simpl in Hi.
  destruct (N.eq_dec i k) as [E|E].
  - subst i. rewrite (map_erase_app_last N.ltb N_ltb_irrefl N_ltb_trans);
      [assumption|]. apply dense_keys_below; [assumption|lia].
  - rewrite (map_erase_below N.ltb N_ltb_irrefl N_ltb_trans); [assumption|].
    apply dense_keys_below; [assumption|]. rewrite length_app. simpl. lia.
Qed.

Lemma tail_built_dense_keys (n : Node) :
  tail_built n -> exists m, n = SequenceNode m /\ dense_keys m.
Proof.
  induction 1 as [|n Hn IH|n fuel n' r Hn IH Hsz Hpf|n i Hn IH Hi].
  - exists []. split; reflexivity.
  - destruct IH as [m [-> Hm]]. unfold Node_PushBack. simpl.
    pose proof (dense_keys_PushBack m Hm) as Hd.
    destruct (SequenceImp_PushBack m) as [m' r]. simpl in *.
    exists m'. split; [reflexivity|assumption].
  - destruct IH as [m [-> Hm]]. simpl in Hsz.
    destruct m; [|simpl in Hsz; lia].
    destruct fuel; simpl in Hpf; inversion Hpf; subst;
      exists [(0%N, NoneNode)]; split; reflexivity.
  - destruct IH as [m [-> Hm]]. simpl in *.
    exists (SequenceImp_Erase m i). split; [reflexivity|].
    now apply dense_keys_Erase_tail.
Qed.

(** C3 (as stated, refuted): after push-back, push-back, erase-at(0) the
    sequence has size 1 and child-at(0) finds no child. *)
Lemma erase_front_leaves_hole :
  let S0 := Node_Erase (fst (Node_PushBack (fst (Node_PushBack (SequenceNode []))))) 0 in
  Node_Size S0 = 1%N /\ present S0 0 = false /\ ~ dense S0.
Proof.
  simpl. split; [reflexivity|]. split; [reflexivity|].
  intros H. specialize (H 0%N). simpl in H.
  discriminate H. reflexivity.
Qed.

(** C3 (amended): a sequence built from the empty one by push-back,
    push-front on a sequence without children, and erase-at of the last
    position (or beyond) has a child at every index below its size. *)
Theorem tail_built_dense (n : Node) : tail_built n -> dense n.
Proof.
  intros H. destruct (tail_built_dense_keys n H) as [m [-> Hm]].
  intros i Hi. unfold present, Node_at. simpl in *.
  destruct (dense_keys_find m i Hm Hi) as [v Hv].
  unfold SequenceImp_GetNode. now rewrite Hv.
Qed.

Lemma tail_built_dense_witness :
  dense (Node_Erase (fst (Node_PushBack (fst (Node_PushBack (SequenceNode []))))) 1).
Proof.
  apply tail_built_dense.
  apply tail_built_Erase; [|simpl; lia].
  apply tail_built_PushBack. apply tail_built_PushBack. apply tail_built_empty.
Defined.

(** ** The loops of PushFront and Insert *)

Lemma map_next_key_succ (m : SequenceImp) (k : N) :
  ascending N.ltb m -> In (k + 1)%N (map fst m) ->
  map_next_key N.ltb m k = Some (k + 1)%N.
Proof.
  induction m as [|[k' v'] m IH]; simpl; intros Hs Hin; [contradiction|].
  destruct Hs as [Hab Hs].
  destruct (N.ltb_spec k k') as [Hlt|Hge].
  - f_equal. destruct Hin as [E|Hin]; [assumption|].
    apply in_map_iff in Hin. destruct Hin as [e [He Hin]].
    unfold keys_above in Hab. rewrite Forall_forall in Hab.
    specialize (Hab e Hin). apply N.ltb_lt in Hab. lia.
  - destruct Hin as [E|Hin]; [lia|]. auto.
Qed.

(** While the key under the iterator is below [2^64 - 1], [PushFront]'s
    loop writes the next key and moves on to it. *)
Lemma PushFront_loop_runs (fuel : nat) :
  forall (m : SequenceImp) (k : N),
    ascending N.ltb m -> In k (map fst m) ->
    (k + N.of_nat fuel < SIZE_MOD)%N ->
    PushFront_loop fuel m (Some k) = None.
Proof.
  induction fuel as [|fuel IH]; intros m k Hs Hin Hk; [reflexivity|].
  simpl.
  assert (Hsucc : size_t_succ k = (k + 1)%N).
  { unfold size_t_succ. apply N.mod_small. lia. }
  rewrite Hsucc.
  set (m' := map_assign N.ltb m (k + 1)%N (seq_second m k)).
  assert (Hs' : ascending N.ltb m').
  { apply map_assign_ascending; try assumption.
    - exact N_ltb_trans.
    - exact N_ltb_total. }
  assert (Hin' : In (k + 1)%N (map fst m')).
  { apply (map_assign_keys N.ltb N_ltb_total). now left. }
  rewrite (map_next_key_succ m' k Hs' Hin').
  apply IH; [assumption|assumption|lia].
Qed.

(** C4 (code at the failing input): on every sequence that holds a child
    already, the loop of push-front is still running after any number of
    rounds below [2^64] minus the first key; it never gets to insert the
    new child at position 0. *)
Theorem PushFront_nonempty_runs_on (m : SequenceImp) (k0 : N) (fuel : nat) :
  ascending N.ltb m -> map_first_key m = Some k0 ->
  (k0 + N.of_nat fuel < SIZE_MOD)%N ->
  Node_PushFront fuel (SequenceNode m) = None.
Proof.
  intros Hs Hk Hf. unfold Node_PushFront, SequenceImp_PushFront. simpl.
  rewrite Hk. rewrite PushFront_loop_runs; [reflexivity|assumption| |assumption].
  destruct m as [|[k v] m]; [discriminate|]. simpl in Hk. inversion Hk.
  now left.
Qed.

Lemma PushFront_nonempty_runs_on_witness :
  Node_PushFront 1000 (fst (Node_PushBack (SequenceNode []))) = None.
Proof.
  apply (PushFront_nonempty_runs_on [(0%N, NoneNode)] 0 1000).
  - simpl. split; [constructor|exact I].
  - reflexivity.
  - reflexivity.
Defined.

Lemma Insert_loop_spins (fuel : nat) :
  forall (m : SequenceImp) (k index : N),
    k <> index -> Insert_loop fuel m (Some k) index = None.
Proof.
  induction fuel as [|fuel IH]; intros m k index Hne; [reflexivity|].
  simpl. destruct (N.eqb_spec k index); [contradiction|]. now apply IH.
Qed.

(** C5 (code at the failing input): insert-at(index) on a sequence whose
    first position is not [index] and whose size exceeds [index] never
    returns: the loop does not advance its iterator. *)
Theorem Insert_mid_sequence_never_returns (m : SequenceImp) (k0 index : N)
    (fuel : nat) :
  map_first_key m = Some k0 -> k0 <> index ->
  (index < SequenceImp_GetSize m)%N ->
  Node_Insert fuel (SequenceNode m) index = None.
Proof.
  intros Hk Hne Hlt. unfold Node_Insert, SequenceImp_Insert. simpl.
  destruct (N.eqb_spec (SequenceImp_GetSize m) 0) as [E|E]; [lia|].
  destruct (N.leb_spec (SequenceImp_GetSize m) index) as [Hle|_]; [lia|].
  rewrite Hk, Insert_loop_spins; [reflexivity|assumption].
Qed.

Lemma Insert_mid_sequence_never_returns_witness :
  Node_Insert 1000
    (fst (Node_PushBack (fst (Node_PushBack (SequenceNode []))))) 1 = None.
Proof.
  apply (Insert_mid_sequence_never_returns
           [(0%N, NoneNode); (1%N, NoneNode)] 0 1 1000).
  - reflexivity.
  - discriminate.
  - reflexivity.
Defined.

(** The reads and erasures of [Node] that cannot go wrong. *)
Lemma Node_at_out_of_bounds (n : Node) (i : N) :
  present n i = false -> Node_Type (deref (snd (Node_at n i))) = NoneType.
Proof.
  unfold present. destruct (snd (Node_at n i)); [discriminate|reflexivity].
Qed.

Lemma Node_Erase_wrong_kind (n : Node) (i : N) :
  Node_Type n <> SequenceType -> Node_Erase n i = n.
Proof. destruct n; simpl; intros H; try reflexivity. now elim H. Qed.

Lemma Node_Erase_key_wrong_kind (n : Node) (key : str) :
  Node_Type n <> MapType -> Node_Erase_key n key = n.
Proof. destruct n; simpl; intros H; try reflexivity. now elim H. Qed.

(** ** Map iteration and emission follow the key order *)

Lemma map_built_ascending (n : Node) :
  map_built n -> exists m, n = MapNode m /\ ascending str_ltb m.
Proof.
  induction 1 as [|n key Hn IH|n key c Hn IH|n key Hn IH].
  - exists []. split; [reflexivity|exact I].
  - destruct IH as [m [-> Hm]]. simpl. eexists. split; [reflexivity|].
    unfold MapImp_GetNode. destruct (map_find str_ltb m key); [assumption|].
    apply map_insert_ascending; auto using str_ltb_irrefl.
    exact str_ltb_trans.
  - destruct IH as [m [-> Hm]]. simpl. eexists. split; [reflexivity|].
    apply map_assign_ascending; try exact str_ltb_trans; try exact str_ltb_total.
    unfold MapImp_GetNode. destruct (map_find str_ltb m key); [assumption|].
    apply map_insert_ascending; auto using str_ltb_irrefl.
    exact str_ltb_trans.
  - destruct IH as [m [-> Hm]]. simpl. eexists. split; [reflexivity|].
    now apply map_erase_ascending.
Qed.

Lemma ascending_split (m : MapImp) (k1 k2 : str) (c1 c2 : Node) :
  ascending str_ltb m -> In (k1, c1) m -> In (k2, c2) m ->
  str_ltb k1 k2 = true ->
  exists pre mid post, m = pre ++ (k1, c1) :: mid ++ (k2, c2) :: post.
Proof.
  induction m as [|[k v] m IH]; simpl; intros Hs H1 H2 Hlt; [contradiction|].
  destruct Hs as [Hab Hs]. unfold keys_above in Hab.
  rewrite Forall_forall in Hab.
  destruct H1 as [E1|H1].
  - inversion E1; subst. destruct H2 as [E2|H2].
    + inversion E2; subst. now rewrite str_ltb_irrefl in Hlt.
    + apply in_split in H2. destruct H2 as [mid [post ->]].
      exists [], mid, post. reflexivity.
  - destruct H2 as [E2|H2].
    + inversion E2; subst. specialize (Hab _ H1). simpl in Hab.
      pose proof (str_ltb_trans _ _ _ Hlt Hab) as C.
      rewrite str_ltb_irrefl in C. discriminate.
    + destruct (IH Hs H1 H2 Hlt) as [pre [mid [post ->]]].
      exists ((k, v) :: pre), mid, post. reflexivity.
Qed.

Section SerializeMapFacts.
Variable serialize : Node -> bool -> nat -> str.
Variable config : SerializeConfig.
Variable level : nat.

Lemma serialize_map_app (pre : MapImp) :
  forall useLevel count, exists useLevel' count',
    forall post,
      serialize_map serialize config level (pre ++ post) useLevel count
      = serialize_map serialize config level pre useLevel count
          ++ serialize_map serialize config level post useLevel' count'.
Proof.
  induction pre as [|[k v] pre IH]; intros useLevel count; simpl.
  - exists useLevel, count. reflexivity.
  - destruct (IsNone v).
    + apply IH.
    + destruct (IH true (S count)) as [u [c H]]. exists u, c. intros post.
      now rewrite H, app_assoc.
Qed.

Lemma serialize_map_two (pre mid post : MapImp) (k1 k2 : str) (c1 c2 : Node) :
  IsNone c1 = false -> IsNone c2 = false ->
  forall useLevel count, exists u1 u2 a b c,
    serialize_map serialize config level
      (pre ++ (k1, c1) :: mid ++ (k2, c2) :: post) useLevel count
    = a ++ serialize_entry serialize config level u1 k1 c1
        ++ b ++ serialize_entry serialize config level u2 k2 c2 ++ c.
Proof.
  intros N1 N2 useLevel count.
  destruct (serialize_map_app pre useLevel count) as [u [n H]].
  rewrite H. simpl. rewrite N1.
  destruct (serialize_map_app mid true (S n)) as [u' [n' H']].
  rewrite H'. simpl. rewrite N2.
  exists (u || Nat.ltb 0 n), (u' || Nat.ltb 0 n').
  exists (serialize_map serialize config level pre useLevel count).
  exists (serialize_map serialize config level mid true (S n)).
  exists (serialize_map serialize config level post true (S n')).
  reflexivity.
Qed.

End SerializeMapFacts.

(** C1 (as stated, refuted): the key ["b"] is inserted before the key
    ["a"], yet iteration and the serialized text have ["a"] first. *)
Lemma map_order_is_not_insertion_order :
  let M :=
    set_child_key
      (Node_at_key
         (set_child_key (Node_at_key (MapNode []) (lit "b")) (lit "b")
            (ScalarNode (lit "1")))
         (lit "a"))
      (lit "a") (ScalarNode (lit "2")) in
  Node_iterate M
    = [(lit "a", ScalarNode (lit "2")); (lit "b", ScalarNode (lit "1"))]
  /\ Serialize M (mkConfig 2 64 false false)
     = Ok (lit "a: 2" ++ [newline] ++ lit "b: 1" ++ [newline]).
Proof. split; reflexivity. Qed.

(** C1 (amended): in every map node, iteration visits the entries in
    ascending byte order of their keys, whatever the order of insertion,
    and the emitter writes them in that order: if [k1 < k2] are keys of
    the map, the entry of [k1] precedes the entry of [k2] in the iteration
    and (for children that are not None) in the serialized output. *)
Theorem map_iteration_key_order (n : Node) (k1 k2 : str) (c1 c2 : Node) :
  map_built n ->
  In (k1, c1) (Node_iterate n) -> In (k2, c2) (Node_iterate n) ->
  str_ltb k1 k2 = true ->
  (exists pre mid post,
      Node_iterate n = pre ++ (k1, c1) :: mid ++ (k2, c2) :: post)
  /\ (IsNone c1 = false -> IsNone c2 = false ->
      forall config useLevel level, exists u1 u2 a b c,
        SerializeLoop config n useLevel level
        = a ++ serialize_entry (SerializeLoop config) config level u1 k1 c1
            ++ b ++ serialize_entry (SerializeLoop config) config level u2 k2 c2
            ++ c).
Proof.
  intros Hb H1 H2 Hlt.
  destruct (map_built_ascending n Hb) as [m [-> Hm]]. simpl in *.
  destruct (ascending_split m k1 k2 c1 c2 Hm H1 H2 Hlt) as [pre [mid [post E]]].
  split; [now exists pre, mid, post|].
  intros N1 N2 config useLevel level. rewrite E.
  now apply serialize_map_two.
Qed.

Lemma map_iteration_key_order_witness :
  let M :=
    set_child_key
      (Node_at_key
         (set_child_key (Node_at_key (MapNode []) (lit "b")) (lit "b")
            (ScalarNode (lit "1")))
         (lit "a"))
      (lit "a") (ScalarNode (lit "2")) in
  exists pre mid post,
    Node_iterate M
    = pre ++ (lit "a", ScalarNode (lit "2")) :: mid
        ++ (lit "b", ScalarNode (lit "1")) :: post.
Proof.
  intros M.
  refine (proj1 (map_iteration_key_order M (lit "a") (lit "b")
                   (ScalarNode (lit "2")) (ScalarNode (lit "1")) _ _ _ _)).
  - apply map_built_write. apply map_built_write. apply map_built_empty.
  - simpl. left. reflexivity.
  - simpl. right. left. reflexivity.
  - reflexivity.
Defined.

(** ** CopyNode *)

Lemma PushBack_dense_exact (acc : SequenceImp) :
  dense_keys acc -> (N.of_nat (length acc) < SIZE_MOD)%N ->
  SequenceImp_PushBack acc
  = (acc ++ [(N.of_nat (length acc), NoneNode)], Some (N.of_nat (length acc))).
Proof.
  intros H Hlen. unfold SequenceImp_PushBack, seq_insert_new.
  assert (Hb : keys_below N.ltb acc (N.of_nat (length acc)))
    by (apply dense_keys_below; [assumption|lia]).
  assert (Hidx : match map_last_key acc with
                 | Some k => size_t_succ k
                 | None => 0%N
                 end = N.of_nat (length acc)).
  { destruct acc as [|e0 m0] using rev_ind; [reflexivity|]. clear IHm0.
    destruct e0 as [k v]. rewrite (map_last_key_app m0 k v).
    apply dense_keys_unsnoc in H. destruct H as [_ Hk]. simpl in Hk.
    rewrite length_app in *. simpl in *. unfold size_t_succ.
    rewrite N.mod_small; lia. }
  rewrite Hidx.
  rewrite (map_find_below N.ltb N_ltb_irrefl N_ltb_trans) by assumption.
  now rewrite (map_insert_below N.ltb N_ltb_irrefl N_ltb_trans).
Qed.

Lemma copy_sequence_dense (l : list (N * Node)) :
  forall acc : SequenceImp,
    dense_keys acc ->
    (N.of_nat (length acc + length l) <= SIZE_MOD)%N ->
    Forall (fun e => CopyNode (snd e) NoneNode = copied (snd e)) l ->
    copy_sequence CopyNode l (SequenceNode acc)
    = SequenceNode (acc ++ copied_sequence copied l (length acc)).
Proof.
  induction l as [|[k c] l IH]; intros acc Hd Hlen Hc; simpl.
  - now rewrite app_nil_r.
  - inversion Hc as [|? ? Hc1 Hc2]; subst. simpl in *.
    unfold Node_PushBack. simpl.
    rewrite PushBack_dense_exact by (assumption || lia). simpl.
    rewrite (map_assign_app_last N.ltb N_ltb_irrefl N_ltb_trans)
      by (apply dense_keys_below; [assumption|lia]).
    rewrite Hc1, IH.
    + rewrite length_app. simpl. rewrite Nat.add_1_r.
      now rewrite <- app_assoc.
    + now apply dense_keys_snoc.
    + rewrite length_app. simpl. lia.
    + assumption.
Qed.

Lemma ascending_keys_only {V W : Type} (ltb : str -> str -> bool)
    (m1 : list (str * V)) (m2 : list (str * W)) :
  map fst m1 = map fst m2 -> ascending ltb m1 -> ascending ltb m2.
Proof.
  revert m2. induction m1 as [|[k v] m1 IH]; intros [|[k' w] m2] E;
    try discriminate; simpl; [trivial|].
  simpl in E. inversion E; subst. intros [Hab Hs]. split; [|now apply IH].
  unfold keys_above in *. rewrite Forall_forall in *.
  intros e He. apply (in_map fst) in He. rewrite <- H1 in He.
  apply in_map_iff in He. destruct He as [e' [<- He']]. auto.
Qed.

Lemma ascending_middle (acc l : MapImp) (k : str) (c : Node) :
  ascending str_ltb (acc ++ (k, c) :: l) -> keys_below str_ltb acc k.
Proof.
  induction acc as [|[k' v'] acc IH]; simpl; intros H; [constructor|].
  destruct H as [Hab Hs]. constructor; [|now apply IH].
  unfold keys_above in Hab. rewrite Forall_forall in Hab.
  apply (Hab (k, c)). apply in_or_app. right. now left.
Qed.

Lemma copy_map_ascending (l : MapImp) :
  forall acc : MapImp,
    ascending str_ltb (acc ++ l) ->
    Forall (fun e => CopyNode (snd e) NoneNode = copied (snd e)) l ->
    copy_map CopyNode l (MapNode acc) = MapNode (acc ++ copied_map copied l).
Proof.
  induction l as [|[k c] l IH]; intros acc Hs Hc; simpl.
  - now rewrite app_nil_r.
  - inversion Hc as [|? ? Hc1 Hc2]; subst. simpl in *.
    pose proof (ascending_middle _ _ _ _ Hs) as Hb.
    unfold MapImp_GetNode.
    rewrite (map_find_below str_ltb str_ltb_irrefl str_ltb_trans) by assumption.
    rewrite (map_insert_below str_ltb str_ltb_irrefl str_ltb_trans) by assumption.
    rewrite (map_find_app_last str_ltb str_ltb_irrefl str_ltb_trans) by assumption.
    rewrite (map_assign_app_last str_ltb str_ltb_irrefl str_ltb_trans) by assumption.
    rewrite Hc1, IH.
    + now rewrite <- app_assoc.
    + apply (ascending_keys_only str_ltb (acc ++ (k, c) :: l)); [|assumption].
      rewrite <- app_assoc. now rewrite !map_app.
    + assumption.
Qed.

Lemma all_children_Forall {K : Type} (P Q : Node -> Prop) (l : list (K * Node)) :
  all_children P l -> Forall (fun e => P (snd e) -> Q (snd e)) l ->
  Forall (fun e => Q (snd e)) l.
Proof.
  induction l as [|e l IH]; simpl; intros Ha Hf; [constructor|].
  destruct Ha as [Hp Ha]. inversion Hf; subst. constructor; auto.
Qed.

(** [CopyNode] into a cleared node. *)
Lemma CopyNode_copied (from : Node) :
  well_formed from -> CopyNode from NoneNode = copied from.
Proof.
  induction from as [|v|m IH|m IH] using Node_ind; intros Hwf;
    try reflexivity.
  - destruct Hwf as [Hlen Hch].
    pose proof (all_children_Forall _ (fun c => CopyNode c NoneNode = copied c) m Hch IH) as Hc.
    destruct m as [|[k c] m]; [reflexivity|].
    inversion Hc as [|? ? Hc1 Hc2]; subst. simpl in Hc1.
    cbn [CopyNode copy_sequence copied copied_sequence].
    change (Node_PushBack NoneNode)
      with (SequenceNode [(0%N, NoneNode)], Some 0%N).
    cbn [set_child map_assign]. rewrite N.ltb_irrefl.
    fold CopyNode. rewrite Hc1.
    rewrite (copy_sequence_dense m [(0%N, copied c)]).
    + reflexivity.
    + reflexivity.
    + simpl in *. lia.
    + assumption.
  - destruct Hwf as [Hs Hch].
    pose proof (all_children_Forall _ (fun c => CopyNode c NoneNode = copied c) m Hch IH) as Hc.
    destruct m as [|[k c] m]; [reflexivity|].
    inversion Hc as [|? ? Hc1 Hc2]; subst. simpl in Hc1.
    cbn [CopyNode copy_map copied copied_map].
    cbn [Node_at_key InitMap MapImp_GetNode map_find map_insert
         get_child_key set_child_key map_assign].
    rewrite str_ltb_irrefl. fold CopyNode. rewrite Hc1.
    rewrite (copy_map_ascending m [(k, copied c)]).
    + reflexivity.
    + apply (ascending_keys_only str_ltb ((k, c) :: m)); [reflexivity|assumption].
    + assumption.
Qed.

Lemma copied_sequence_full (m : list (N * Node)) (i : nat) :
  map fst m = map N.of_nat (seq i (length m)) ->
  Forall (fun e => copied (snd e) = snd e) m ->
  copied_sequence copied m i = m.
Proof.
  revert i. induction m as [|[k c] m IH]; intros i Hk Hc; [reflexivity|].
  simpl in *. inversion Hk; subst. inversion Hc; subst. simpl in *.
  f_equal; [now f_equal|]. now apply IH.
Qed.

Lemma copied_map_full (m : list (str * Node)) :
  Forall (fun e => copied (snd e) = snd e) m -> copied_map copied m = m.
Proof.
  induction m as [|[k c] m IH]; intros Hc; [reflexivity|].
  inversion Hc; subst. simpl in *. f_equal; [now f_equal|]. now apply IH.
Qed.

Lemma copied_full (n : Node) : full n -> copied n = n.
Proof.
  induction n as [|v|m IH|m IH] using Node_ind; intros Hf; try reflexivity.
  - destruct Hf as [Hne [Hk Hch]].
    pose proof (all_children_Forall _ (fun c => copied c = c) m Hch IH) as Hc.
    destruct m as [|e m]; [now elim Hne|].
    cbn [copied]. f_equal. now apply copied_sequence_full.
  - destruct Hf as [Hne Hch].
    pose proof (all_children_Forall _ (fun c => copied c = c) m Hch IH) as Hc.
    destruct m as [|e m]; [now elim Hne|].
    cbn [copied]. f_equal. now apply copied_map_full.
Qed.

(** C10 (as stated, refuted): the source is a sequence whose first child
    was erased; the target of the assignment is a distinct node.  The copy
    has a scalar at position 0, the source has no child there. *)
Lemma assign_copy_renumbers_sequence :
  let source :=
    Node_Erase
      (SequenceNode [(0%N, ScalarNode (lit "a")); (1%N, ScalarNode (lit "b"))]) 0 in
  let st := store_set (fun _ => NoneNode) 1 source in
  let st' := Node_assign st 0 1 in
  Node_Type (deref (snd (Node_at (st' 0) 0))) = ScalarType
  /\ Node_Type (deref (snd (Node_at (st' 1) 0))) = NoneType
  /\ st' 0 <> st' 1.
Proof.
  simpl. split; [reflexivity|]. split; [reflexivity|]. discriminate.
Qed.

(** C10 (amended): assigning a node to itself leaves it None.  For two
    distinct nodes that own separate trees, the source is unchanged and the
    target becomes a deep copy in iteration order: map children under
    their keys, sequence children under the positions 0, 1, 2, ..., a
    sequence or map without children copied as None.  The copy is equal to
    the source when every sequence of the source is dense and no sequence
    or map of it is without children. *)
Theorem Node_assign_deep_copy (st : Store) (this node : nat) :
  (this = node -> Node_assign st this node this = NoneNode)
  /\ (this <> node -> well_formed (st node) ->
      Node_assign st this node this = copied (st node)
      /\ Node_assign st this node node = st node
      /\ (full (st node) -> Node_assign st this node this = st node)).
Proof.
  unfold Node_assign, store_set, Node_Clear. split.
  - intros ->. rewrite !Nat.eqb_refl. reflexivity.
  - intros Hne Hwf. rewrite !Nat.eqb_refl.
    assert (E : Nat.eqb node this = false)
      by (apply Nat.eqb_neq; congruence).
    rewrite !E. rewrite (CopyNode_copied _ Hwf).
    split; [reflexivity|]. split; [reflexivity|].
    intros Hf. now apply copied_full.
Qed.

Lemma Node_assign_deep_copy_witness :
  let source :=
    MapNode [(lit "a", SequenceNode [(0%N, ScalarNode (lit "x"))])] in
  let st := store_set (fun _ => NoneNode) 1 source in
  Node_assign st 0 1 0 = source /\ Node_assign st 1 1 1 = NoneNode.
Proof.
  intros source st. split.
  - refine (proj2 (proj2 (proj2 (Node_assign_deep_copy st 0 1) _ _)) _).
    + discriminate.
    + simpl. repeat split; [constructor|apply N.leb_le; reflexivity].
    + simpl. repeat split; discriminate.
  - exact (proj1 (Node_assign_deep_copy st 1 1) eq_refl).
Defined.

(** ** std::string searches *)

Lemma find_from_Some (p : ascii -> bool) (s : str) :
  forall i j, find_from p s i = Some j ->
    i <= j < i + length s /\ p (nth (j - i) s zero) = true.
Proof.
  induction s as [|c s IH]; simpl; intros i j H; [discriminate|].
  destruct (p c) eqn:E.
  - inversion H; subst. rewrite Nat.sub_diag. split; [lia|assumption].
  - apply IH in H. destruct H as [Hr Hp]. split; [lia|].
    replace (j - i) with (S (j - S i)) by lia. assumption.
Qed.

Lemma find_from_None (p : ascii -> bool) (s : str) (i : nat) :
  find_from p s i = None <-> Forall (fun c => p c = false) s.
Proof.
  revert i. induction s as [|c s IH]; simpl; intros i.
  - split; [constructor|reflexivity].
  - destruct (p c) eqn:E.
    + split; [discriminate|]. intros H. inversion H; congruence.
    + rewrite IH. split.
      * intros H. now constructor.
      * intros H. now inversion H.
Qed.

Lemma find_char_Some (c : ascii) (s : str) (pos j : nat) :
  find_char c s pos = Some j ->
  pos <= j < length s /\ char_at s j = c.
Proof.
  unfold find_char, char_at. intros H.
  apply find_from_Some in H. destruct H as [Hr Hp].
  rewrite length_skipn in Hr. rewrite nth_skipn in Hp.
  replace (pos + (j - pos)) with j in Hp by lia.
  split; [lia|]. unfold char_eqb in Hp.
  apply Ascii.eqb_eq in Hp. now symmetry.
Qed.

(** ** LineFolding *)

Lemma LineFolding_loop_returns (input : str) (maxLength : nat) (fuel : nat) :
  forall currentPos lastPos spacePos folded,
    currentPos < length input ->
    length input - lastPos < fuel ->
    folded <> [] \/ lastPos < length input ->
    exists res,
      LineFolding_loop fuel input maxLength currentPos lastPos spacePos folded
      = Some res /\ 1 <= length res.
Proof.
  induction fuel as [|fuel IH];
    intros currentPos lastPos spacePos folded Hcur Hfuel Hinv; [lia|].
  simpl. destruct (Nat.ltb_spec currentPos (length input)) as [_|?]; [|lia].
  assert (Hfin : 1 <= length
            (if Nat.eqb (length (substr_from input lastPos)) 0 then folded
             else folded ++ [substr_from input lastPos])).
  { unfold substr_from. rewrite length_skipn.
    destruct (Nat.eqb_spec (length input - lastPos) 0) as [E|E].
    - destruct Hinv as [Hne|Hlt]; [|lia].
      destruct folded; [now elim Hne|simpl; lia].
    - rewrite length_app. simpl. lia. }
  set (cur := lastPos + maxLength).
  destruct (if Nat.ltb cur (length input) then find_char space input cur
            else spacePos) as [sp|] eqn:Esp.
  - destruct (Nat.leb_spec (length input) cur) as [Hle|Hgt].
    + eexists. split; [reflexivity|exact Hfin].
    + destruct (Nat.ltb_spec cur (length input)) as [_|?]; [|lia].
      apply find_char_Some in Esp. destruct Esp as [Hsp _].
      apply IH.
      * assumption.
      * unfold cur in *. lia.
      * left. destruct folded; discriminate.
  - eexists. split; [reflexivity|exact Hfin].
Qed.

Lemma LineFolding_no_space (input : str) (maxLength : nat) :
  input <> [] -> find_char space input maxLength = None ->
  LineFolding input maxLength = Some [input].
Proof.
  intros Hne Hf. unfold LineFolding.
  assert (Hlen : 0 < length input)
    by (destruct input; [now elim Hne|simpl; lia]).
  destruct (Nat.eqb_spec (length input) 0) as [E|_]; [lia|].
  simpl LineFolding_loop.
  destruct (Nat.ltb_spec 0 (length input)) as [_|?]; [|lia].
  rewrite Hf. unfold substr_from. simpl skipn.
  destruct (Nat.eqb_spec (length input) 0) as [E|_]; [lia|].
  destruct (Nat.ltb maxLength (length input)); reflexivity.
Qed.

(** C9 (as stated, refuted): for the empty input the rule produces no
    piece at all. *)
Lemma LineFolding_empty_input_no_piece :
  LineFolding [] 5 = Some [] /\ ~ 1 <= length (LineFolding_pieces [] 5).
Proof. split; [reflexivity|]. simpl. lia. Qed.

(** C9 (amended): for every input string that is not empty and every
    max-length L, line folding returns at least one piece, and returns two
    or more only if there is a space at or after position L; for the empty
    input it returns no piece. *)
Theorem LineFolding_pieces_count (input : str) (maxLength : nat) :
  LineFolding [] maxLength = Some []
  /\ (input <> [] ->
      exists folded,
        LineFolding input maxLength = Some folded
        /\ 1 <= length folded
        /\ (2 <= length folded ->
            exists sp, find_char space input maxLength = Some sp
                       /\ maxLength <= sp < length input
                       /\ char_at input sp = space)).
Proof.
  split; [reflexivity|]. intros Hne.
  assert (Hlen : 0 < length input)
    by (destruct input; [now elim Hne|simpl; lia]).
  destruct (LineFolding_loop_returns input maxLength (S (length input))
              0 0 None []) as [res [Hres Hone]]; try lia.
  exists res. unfold LineFolding.
  destruct (Nat.eqb_spec (length input) 0) as [E|_]; [lia|].
  split; [assumption|]. split; [assumption|].
  intros Htwo.
  destruct (find_char space input maxLength) as [sp|] eqn:Ef.
  - exists sp. split; [reflexivity|]. now apply find_char_Some.
  - pose proof (LineFolding_no_space input maxLength Hne Ef) as H1.
    unfold LineFolding in H1.
    destruct (Nat.eqb_spec (length input) 0) as [E|_]; [lia|].
    rewrite H1 in Hres. inversion Hres; subst. simpl in Htwo. lia.
Qed.

Lemma LineFolding_pieces_count_witness :
  exists folded,
    LineFolding (lit "aaa bbb ccc ddd") 5 = Some folded /\ 1 <= length folded.
Proof.
  destruct (proj2 (LineFolding_pieces_count (lit "aaa bbb ccc ddd") 5))
    as [folded [H1 [H2 _]]].
  - discriminate.
  - exists folded. split; assumption.
Defined.

(** ** Quotes *)

Lemma no_dquote_char_at (s : str) (i : nat) :
  no_dquote s -> char_eqb (char_at s i) dquote = false.
Proof.
  unfold no_dquote, char_at. revert i.
  induction s as [|c s IH]; intros i H.
  - destruct i; reflexivity.
  - inversion H; subst. destruct i; simpl; auto.
Qed.

Lemma FindQuote_loop_no_dquote (input : str) (fuel : nat) :
  no_dquote input ->
  forall qPos start,
    FindQuote_loop fuel input qPos start = (false, start, None).
Proof.
  intros Hn. induction fuel as [|fuel IH]; intros qPos start; [reflexivity|].
  simpl. destruct (find_first_of [dquote; squote] input qPos) as [q|];
    [|reflexivity].
  rewrite (no_dquote_char_at input q Hn). simpl.
  destruct (Nat.eqb (q + 1) (length input)); [reflexivity|apply IH].
Qed.

Lemma FindQuote_no_dquote (input : str) (searchPos : nat) :
  no_dquote input -> FindQuote input searchPos = (false, None, None).
Proof. intros H. unfold FindQuote. now apply FindQuote_loop_no_dquote. Qed.

Lemma FindNotCited_count_no_dquote (input : str) (token : ascii) :
  no_dquote input ->
  FindNotCited_count input token = (find_char token input 0, 0).
Proof.
  intros H. unfold FindNotCited_count.
  destruct (find_char token input 0); [|reflexivity].
  cbn [FindNotCited_quotes]. now rewrite FindQuote_no_dquote.
Qed.

(** C7 (as stated, refuted): in ['a#b'] the [#] lies between two single
    quotes and still starts the comment; in ['k: v'] the [:] between them
    is taken as the key separator.  Between double quotes neither
    happens. *)
Lemma single_quotes_do_not_cite :
  FindNotCited (lit "'a#b'") "#"%char = Some 2
  /\ FindNotCited ([dquote] ++ lit "a#b" ++ [dquote]) "#"%char = None
  /\ Parse NoneNode (lit "'a#b'") = (ScalarNode (lit "'a"), Ok tt)
  /\ Parse NoneNode (lit "'k: v'")
     = (MapNode [(lit "'k", ScalarNode (lit "v'"))], Ok tt).
Proof. repeat split; reflexivity. Qed.

Lemma find_from_ext (p q : ascii -> bool) (s : str) (i : nat) :
  Forall (fun x => p x = q x) s -> find_from p s i = find_from q s i.
Proof.
  revert i. induction s as [|x s IH]; intros i H; [reflexivity|].
  inversion H; subst. simpl. rewrite H2. now rewrite IH.
Qed.

Lemma find_from_map (p : ascii -> bool) (f : ascii -> ascii) (s : str) (i : nat) :
  find_from p (map f s) i = find_from (fun x => p (f x)) s i.
Proof.
  revert i. induction s as [|x s IH]; intros i; [reflexivity|].
  simpl. now rewrite IH.
Qed.

Lemma find_from_ge (p : ascii -> bool) (s : str) (i j : nat) :
  find_from p s i = Some j -> i <= j < i + length s.
Proof.
  revert i. induction s as [|x s IH]; intros i H; [discriminate|].
  simpl in H. destruct (p x).
  - inversion H; subst. simpl. lia.
  - apply IH in H. simpl. lia.
Qed.

Section SingleQuotes.
Variable c : ascii.
Hypothesis c_ordinary : char_in c [dquote; squote; backslash] = false.

Let f (x : ascii) : ascii := if char_eqb x squote then c else x.

Lemma replace_squotes_length (input : str) :
  length (replace_squotes c input) = length input.
Proof. apply length_map. Qed.

Lemma replace_squotes_skipn (input : str) (n : nat) :
  skipn n (replace_squotes c input) = replace_squotes c (skipn n input).
Proof. unfold replace_squotes. now rewrite skipn_map. Qed.

Lemma replace_squotes_char_at (input : str) (i : nat) :
  char_at (replace_squotes c input) i = f (char_at input i)
  \/ length input <= i.
Proof.
  unfold char_at, replace_squotes. destruct (Nat.lt_ge_cases i (length input)).
  - left. rewrite (nth_indep _ zero (f zero)) by (rewrite length_map; lia).
    now rewrite map_nth.
  - now right.
Qed.

Lemma f_dquote (x : ascii) : char_eqb (f x) dquote = char_eqb x dquote.
Proof.
  unfold f. destruct (char_eqb x squote) eqn:E.
  - apply Ascii.eqb_eq in E. subst x.
    simpl in c_ordinary. apply orb_false_iff in c_ordinary.
    destruct c_ordinary as [H _]. rewrite H. reflexivity.
  - reflexivity.
Qed.

Lemma f_backslash (x : ascii) : char_eqb (f x) backslash = char_eqb x backslash.
Proof.
  unfold f. destruct (char_eqb x squote) eqn:E.
  - apply Ascii.eqb_eq in E. subst x.
    simpl in c_ordinary. rewrite !orb_false_iff in c_ordinary.
    destruct c_ordinary as [_ [_ [H _]]]. rewrite H. reflexivity.
  - reflexivity.
Qed.

Lemma f_squote (x : ascii) : char_eqb (f x) squote = false.
Proof.
  unfold f. destruct (char_eqb x squote) eqn:E; [|assumption].
  simpl in c_ordinary. rewrite !orb_false_iff in c_ordinary.
  now destruct c_ordinary as [_ [H _]].
Qed.

Lemma f_token (token x : ascii) :
  char_in token [squote; c] = false ->
  char_eqb token (f x) = char_eqb token x.
Proof.
  intros H. simpl in H. rewrite !orb_false_iff in H. destruct H as [H1 [H2 _]].
  unfold f. destruct (char_eqb x squote) eqn:E; [|reflexivity].
  apply Ascii.eqb_eq in E. subst x. now rewrite H1, H2.
Qed.

Lemma find_char_replace_squotes (token : ascii) (input : str) (pos : nat) :
  char_in token [squote; c] = false ->
  find_char token (replace_squotes c input) pos = find_char token input pos.
Proof.
  intros H. unfold find_char. rewrite replace_squotes_skipn.
  unfold replace_squotes. rewrite find_from_map.
  apply find_from_ext. apply Forall_forall. intros x _. now apply f_token.
Qed.

(** With enough fuel the result of the loop of [FindQuote] does not depend
    on the fuel. *)
Lemma FindQuote_loop_fuel (input : str) (f1 f2 qPos : nat) (start : option nat) :
  length input - qPos < f1 -> length input - qPos < f2 ->
  FindQuote_loop f1 input qPos start = FindQuote_loop f2 input qPos start.
Proof.
  revert f2 qPos start. induction f1 as [|f1 IH]; intros f2 qPos start H1 H2;
    [lia|].
  destruct f2 as [|f2]; [lia|]. cbn [FindQuote_loop].
  destruct (find_first_of [dquote; squote] input qPos) as [q|] eqn:E;
    [|reflexivity].
  unfold find_first_of in E. apply find_from_ge in E.
  rewrite length_skipn in E.
  assert (Hn : forall st,
    (if Nat.eqb (q + 1) (length input) then (false, st, @None nat)
     else FindQuote_loop f1 input (q + 1) st)
    = (if Nat.eqb (q + 1) (length input) then (false, st, @None nat)
       else FindQuote_loop f2 input (q + 1) st)).
  { intros st. destruct (Nat.eqb (q + 1) (length input)); [reflexivity|].
    apply IH; lia. }
  destruct (char_eqb (char_at input q) dquote
            && (Nat.eqb q 0 || negb (char_eqb (char_at input (q - 1)) backslash))).
  - destruct start; [reflexivity|apply Hn].
  - apply Hn.
Qed.

(** The quote that [FindQuote] stops at next: without the single quotes it
    is the next double quote. *)
Lemma find_quote_replace_squotes (input : str) (qPos : nat) :
  find_first_of [dquote; squote] (replace_squotes c input) qPos
  = find_char dquote input qPos.
Proof.
  unfold find_first_of, find_char. rewrite replace_squotes_skipn.
  unfold replace_squotes. rewrite find_from_map.
  apply find_from_ext. apply Forall_forall. intros x _.
  cbn [char_in]. fold (f x). rewrite f_dquote, f_squote.
  rewrite !orb_false_r. unfold char_eqb. apply Ascii.eqb_sym.
Qed.

Lemma find_from_or (p r : ascii -> bool) (s : str) (i : nat) :
  match find_from (fun x => p x || r x) s i with
  | Some q =>
      if p (nth (q - i) s zero) then find_from p s i = Some q
      else find_from p s i = find_from p (skipn (S (q - i)) s) (S q)
  | None => find_from p s i = None
  end.
Proof.
  revert i. induction s as [|x s IH]; intros i; [reflexivity|].
  cbn [find_from]. destruct (p x) eqn:Ep; cbn [orb].
  - rewrite Nat.sub_diag. cbn [nth]. now rewrite Ep.
  - destruct (r x) eqn:Er.
    + rewrite Nat.sub_diag. cbn [nth skipn]. now rewrite Ep.
    + specialize (IH (S i)).
      destruct (find_from (fun x0 => p x0 || r x0) s (S i)) as [q|] eqn:E;
        [|assumption].
      apply find_from_ge in E.
      replace (q - i) with (S (q - S i)) by lia. cbn [nth skipn]. exact IH.
Qed.

Lemma nth_skipn_char_at (input : str) (pos q : nat) :
  pos <= q -> nth (q - pos) (skipn pos input) zero = char_at input q.
Proof.
  intros H. unfold char_at. rewrite nth_skipn. f_equal. lia.
Qed.

(** The quote [FindQuote] stops at, against the next double quote. *)
Lemma find_quote_dquote (input : str) (qPos : nat) :
  match find_first_of [dquote; squote] input qPos with
  | Some q =>
      qPos <= q < length input
      /\ (if char_eqb (char_at input q) dquote
          then find_char dquote input qPos = Some q
          else find_char dquote input qPos = find_char dquote input (q + 1))
  | None => find_char dquote input qPos = None
  end.
Proof.
  assert (Hsym : forall s i,
            find_from (char_eqb dquote) s i
            = find_from (fun x => char_eqb x dquote) s i).
  { intros s i. apply find_from_ext. apply Forall_forall. intros x _.
    apply Ascii.eqb_sym. }
  pose proof (find_from_or (fun x => char_eqb x dquote)
                (fun x => char_eqb x squote || false) (skipn qPos input) qPos)
    as H.
  unfold find_first_of.
  change (fun c0 => char_in c0 [dquote; squote])
    with (fun x => char_eqb x dquote || (char_eqb x squote || false)).
  destruct (find_from _ (skipn qPos input) qPos) as [q|] eqn:E.
  - pose proof (find_from_ge _ _ _ _ E) as Hq. rewrite length_skipn in Hq.
    split; [lia|].
    rewrite nth_skipn_char_at in H by lia.
    destruct (char_eqb (char_at input q) dquote).
    + unfold find_char. now rewrite Hsym.
    + unfold find_char.
      rewrite (Hsym (skipn qPos input)), (Hsym (skipn (q + 1) input)), H.
      rewrite skipn_skipn. f_equal; [f_equal|]; lia.
  - unfold find_char. now rewrite Hsym.
Qed.

Lemma replace_squotes_char_at_in (input : str) (i : nat) :
  i < length input -> char_at (replace_squotes c input) i = f (char_at input i).
Proof.
  intros H. destruct (replace_squotes_char_at input i); [assumption|lia].
Qed.

Lemma FindQuote_loop_replace_squotes (input : str) (fuel qPos : nat)
    (start : option nat) :
  length input - qPos < fuel ->
  FindQuote_loop fuel (replace_squotes c input) qPos start
  = FindQuote_loop fuel input qPos start.
Proof.
  revert qPos start. induction fuel as [|fuel IH]; intros qPos start Hf; [lia|].
  cbn [FindQuote_loop].
  rewrite find_quote_replace_squotes, replace_squotes_length.
  pose proof (find_quote_dquote input qPos) as H.
  destruct (find_first_of [dquote; squote] input qPos) as [q|] eqn:E.
  - destruct H as [Hq H].
    destruct (char_eqb (char_at input q) dquote) eqn:Ed.
    + rewrite H, replace_squotes_char_at_in, f_dquote, Ed by lia.
      assert (Eb : (Nat.eqb q 0
                    || negb (char_eqb (char_at (replace_squotes c input) (q - 1))
                               backslash))
                   = (Nat.eqb q 0
                      || negb (char_eqb (char_at input (q - 1)) backslash))).
      { destruct q as [|q']; [reflexivity|]. cbn [Nat.eqb orb].
        now rewrite replace_squotes_char_at_in, f_backslash by lia. }
      rewrite Eb. cbn [andb].
      destruct (Nat.eqb q 0 || negb (char_eqb (char_at input (q - 1)) backslash)).
      * destruct start; [reflexivity|].
        destruct (Nat.eqb (q + 1) (length input)); [reflexivity|].
        apply IH. lia.
      * destruct (Nat.eqb (q + 1) (length input)); [reflexivity|].
        apply IH. lia.
    + cbn [andb]. rewrite H.
      destruct (Nat.eqb_spec (q + 1) (length input)) as [El|El].
      * unfold find_char. rewrite El, skipn_all. reflexivity.
      * rewrite <- (IH (q + 1) start) by lia.
        rewrite (FindQuote_loop_fuel _ fuel (S fuel))
          by (rewrite replace_squotes_length; lia).
        cbn [FindQuote_loop].
        now rewrite find_quote_replace_squotes, replace_squotes_length.
  - now rewrite H.
Qed.

Lemma FindQuote_replace_squotes (input : str) (searchPos : nat) :
  FindQuote (replace_squotes c input) searchPos = FindQuote input searchPos.
Proof.
  unfold FindQuote. rewrite replace_squotes_length.
  apply FindQuote_loop_replace_squotes. lia.
Qed.

Lemma FindNotCited_quotes_replace_squotes (input : str) (fuel quoteEnd : nat) :
  FindNotCited_quotes fuel (replace_squotes c input) quoteEnd
  = FindNotCited_quotes fuel input quoteEnd.
Proof.
  revert quoteEnd. induction fuel as [|fuel IH]; intros quoteEnd; [reflexivity|].
  cbn [FindNotCited_quotes].
  rewrite FindQuote_replace_squotes, replace_squotes_length.
  destruct (FindQuote input quoteEnd) as [[[|] [qs|]] [qe|]]; try reflexivity.
  now rewrite IH.
Qed.

Lemma FindNotCited_scan_replace_squotes (input : str) (token : ascii)
    (quotes : list (nat * nat)) (tokenPos n : nat) :
  char_in token [squote; c] = false ->
  FindNotCited_scan (replace_squotes c input) token quotes tokenPos n
  = FindNotCited_scan input token quotes tokenPos n.
Proof.
  intros Ht. revert tokenPos n.
  induction quotes as [|[qs qe] quotes IH]; intros tokenPos n; [reflexivity|].
  cbn [FindNotCited_scan].
  rewrite replace_squotes_length, find_char_replace_squotes by assumption.
  destruct (Nat.ltb tokenPos qs); [reflexivity|].
  destruct (Nat.leb tokenPos qe); [|apply IH].
  destruct (Nat.eqb (tokenPos + 1) (length input)); [reflexivity|].
  destruct (find_char token input (tokenPos + 1)); [apply IH|reflexivity].
Qed.

Lemma FindNotCited_count_replace_squotes (input : str) (token : ascii) :
  char_in token [squote; c] = false ->
  FindNotCited_count (replace_squotes c input) token
  = FindNotCited_count input token.
Proof.
  intros Ht. unfold FindNotCited_count.
  rewrite find_char_replace_squotes, replace_squotes_length,
    FindNotCited_quotes_replace_squotes by assumption.
  destruct (find_char token input 0); [|reflexivity].
  destruct (FindNotCited_quotes (S (length input)) input 0); [reflexivity|].
  now apply FindNotCited_scan_replace_squotes.
Qed.
End SingleQuotes.

(** C7 (amended): a single quote opens no span and closes none.  On every
    line, with or without double quotes, [FindNotCited] finds the [#] that
    starts the comment and the [:] that separates the map key, and counts
    the spans before it, as it does when each single quote of the line is
    replaced by an ordinary character [c]; [FindQuote] finds the same
    spans.  On a line without a double quote the first [#] or [:] is the
    one found, also between two single quotes. *)
Theorem FindNotCited_ignores_single_quotes (input : str) (token c : ascii) :
  char_in c [dquote; squote; backslash] = false ->
  char_in token [squote; c] = false ->
  FindNotCited_count (replace_squotes c input) token
  = FindNotCited_count input token
  /\ FindNotCited (replace_squotes c input) token = FindNotCited input token
  /\ (forall searchPos,
        FindQuote (replace_squotes c input) searchPos = FindQuote input searchPos)
  /\ (no_dquote input ->
      FindNotCited input token = find_char token input 0
      /\ FindNotCited_count input token = (find_char token input 0, 0)).
Proof.
  intros Hc Ht. split; [|split; [|split]].
  - now apply FindNotCited_count_replace_squotes.
  - unfold FindNotCited. now rewrite FindNotCited_count_replace_squotes.
  - intros searchPos. now apply FindQuote_replace_squotes.
  - intros H. unfold FindNotCited.
    rewrite (FindNotCited_count_no_dquote input token H). split; reflexivity.
Qed.

Lemma FindNotCited_ignores_single_quotes_witness :
  FindNotCited_count
    (replace_squotes "x"%char (lit "'k': 'a " ++ [dquote] ++ lit "b'#c" ++ [dquote] ++ lit " '#d"))
    "#"%char
  = FindNotCited_count
      (lit "'k': 'a " ++ [dquote] ++ lit "b'#c" ++ [dquote] ++ lit " '#d") "#"%char.
Proof.
  refine (proj1 (FindNotCited_ignores_single_quotes _ "#"%char "x"%char _ _));
    reflexivity.
Defined.

(** ** Document markers in ReadLines *)


Lemma str_eqb_neq (a b : str) : a <> b -> str_eqb a b = false.
Proof.
  unfold str_eqb. destruct (list_eq_dec ascii_dec a b); congruence.
Qed.






(** ** The fuel of the parser's loops is enough *)

Lemma PostProcessScalar_merge_length (rest : list ReaderLine) :
  forall pLine,
    length (snd (PostProcessScalar_merge pLine rest)) <= length rest.
Proof.
  induction rest as [|n rest IH]; intros pLine; simpl; [lia|].
  destruct (Nat.ltb (Offset n) (Offset pLine)); simpl; [lia|].
  specialize (IH (set_Data pLine
    (Data pLine ++
     (if GetFlag pLine LiteralScalarFlag then [newline]
      else if GetFlag pLine FoldedScalarFlag then [space] else []) ++
     spaces (Offset n - Offset pLine) ++ Data n))).
  lia.
Qed.

Lemma PostProcessScalar_shape (done lines d r : list ReaderLine) (o : outcome unit) :
  PostProcessScalar done lines = (d, r, o) ->
  o <> OutOfFuel /\ (forall e, o <> Throw e)
  /\ (forall u, o = Ok u -> S (length r) <= length lines).
Proof.
  unfold PostProcessScalar. destruct lines as [|pLine rest].
  - intros H. inversion H; subst. repeat split; discriminate.
  - match goal with
    | |- context [if ?c then _ else _] => destruct c
    end.
    + match goal with
      | |- context [PostProcessScalar_merge ?l rest] =>
          pose proof (PostProcessScalar_merge_length rest l) as Hl;
          destruct (PostProcessScalar_merge l rest) as [l' rest']
      end.
      intros H. inversion H; subst. simpl in *.
      repeat split; try discriminate. intros; lia.
    + intros H. inversion H; subst. simpl.
      repeat split; try discriminate. intros; lia.
Qed.

Lemma PostProcessMapping_shape (done : list ReaderLine) (pLine : ReaderLine)
    (rest d r : list ReaderLine) (o : outcome bool) :
  PostProcessMapping done pLine rest = (d, r, o) ->
  o <> OutOfFuel /\ o <> Undefined
  /\ (o = Ok true -> length r <= length rest)
  /\ (o = Ok false -> length r <= S (length rest)).
Proof.
  unfold PostProcessMapping.
  repeat match goal with
         | |- context [match ?x with _ => _ end] =>
             match type of x with
             | sumbool _ _ => fail 1
             | _ => destruct x eqn:?
             end
         | |- context [let '_ := ?x in _] => destruct x eqn:?
         end.
  all: intros H; inversion H; subst; simpl.
  all: repeat split; try discriminate; intros; lia.
Qed.

Lemma PostProcess_round_shape (done : list ReaderLine) (pLine : ReaderLine)
    (rest d r : list ReaderLine) (o : outcome unit) :
  PostProcess_round done pLine rest = (d, r, o) ->
  o <> OutOfFuel /\ (forall u, o = Ok u -> length r <= length rest).
Proof.
  unfold PostProcess_round, PostProcessSequence.
  destruct (negb (IsSequenceStart (Data pLine))).
  - destruct (PostProcessMapping done pLine rest) as [[d2 r2] o2] eqn:E.
    apply PostProcessMapping_shape in E. destruct E as [E1 [E2 [E3 E4]]].
    destruct o2 as [[|]|e| |].
    + intros H. inversion H; subst. split; [discriminate|]. intros. now apply E3.
    + intros H. apply PostProcessScalar_shape in H.
      destruct H as [H1 [H2 H3]]. split; [assumption|].
      intros u Hu. specialize (H3 u Hu). specialize (E4 eq_refl). lia.
    + intros H. inversion H; subst. split; discriminate.
    + now elim E2.
    + now elim E1.
  - destruct (find_first_not_of blanks (Data (set_Type pLine SequenceType)) 1).
    + match goal with
      | |- context [PostProcessMapping ?a ?b ?c] =>
          destruct (PostProcessMapping a b c) as [[d2 r2] o2] eqn:E
      end.
      apply PostProcessMapping_shape in E. destruct E as [E1 [E2 [E3 E4]]].
      destruct o2 as [[|]|e| |].
      * intros H. inversion H; subst. split; [discriminate|].
        intros. now apply E3.
      * intros H. apply PostProcessScalar_shape in H.
        destruct H as [H1 [H2 H3]]. split; [assumption|].
        intros u Hu. specialize (H3 u Hu). specialize (E4 eq_refl). lia.
      * intros H. inversion H; subst. split; discriminate.
      * now elim E2.
      * now elim E1.
    + destruct rest; intros H; inversion H; subst; (split; [discriminate|]);
        intros; lia.
Qed.

Lemma PostProcessLines_loop_fuel (fuel : nat) :
  forall done rest,
    length rest < fuel ->
    snd (PostProcessLines_loop fuel done rest) <> OutOfFuel.
Proof.
  induction fuel as [|fuel IH]; intros done rest Hlen; [lia|].
  destruct rest as [|pLine rest]; simpl; [discriminate|].
  destruct (PostProcess_round done pLine rest) as [[d r] o] eqn:E.
  apply PostProcess_round_shape in E. destruct E as [E1 E2].
  destruct o as [u|e| |]; simpl; try discriminate.
  - apply IH. specialize (E2 u eq_refl). simpl in Hlen. lia.
  - now elim E1.
Qed.

Lemma ProcessScalar_ok (bound : nat) : builder_ok ProcessScalar bound.
Proof.
  intros node [|pLine rest] _; simpl; split; try discriminate.
  intros rest' H. inversion H; subst. lia.
Qed.

Lemma process_value_ok (seq_ map_ : builder) (bound : nat) (vLine : ReaderLine)
    (child : Node) (lines : list ReaderLine) :
  builder_ok seq_ bound -> builder_ok map_ bound ->
  length lines < bound ->
  snd (process_value seq_ map_ vLine child lines) <> OutOfFuel
  /\ forall rest', snd (process_value seq_ map_ vLine child lines) = Ok rest' ->
                   length rest' <= length lines.
Proof.
  intros Hs Hm Hlen. unfold process_value.
  destruct (Type_ vLine); simpl.
  - split; [discriminate|]. intros rest' H. inversion H; subst. lia.
  - destruct (Hs child lines Hlen) as [H1 H2]. split; [assumption|].
    intros rest' H. specialize (H2 rest' H). lia.
  - destruct (Hm child lines Hlen) as [H1 H2]. split; [assumption|].
    intros rest' H. specialize (H2 rest' H). lia.
  - destruct (ProcessScalar_ok bound child lines Hlen) as [H1 H2].
    split; [assumption|]. intros rest' H. specialize (H2 rest' H). lia.
Qed.

Lemma after_round_ok (again : builder) (bound n : nat) (pLine : ReaderLine)
    (node2 : Node) (res : outcome (list ReaderLine)) :
  builder_ok again bound -> n < bound ->
  res <> OutOfFuel ->
  (forall rest', res = Ok rest' -> length rest' <= n) ->
  snd (after_round again pLine node2 res) <> OutOfFuel
  /\ forall rest', snd (after_round again pLine node2 res) = Ok rest' ->
                   length rest' <= n.
Proof.
  intros Ha Hn Hres Hlen. unfold after_round.
  destruct res as [rest1|e| |]; simpl; try (split; [discriminate|]; discriminate).
  - specialize (Hlen rest1 eq_refl).
    destruct (check_next pLine rest1); simpl.
    + split; [discriminate|]. intros rest' H. inversion H; subst. assumption.
    + assert (Hl : length rest1 < bound) by lia.
      destruct (Ha node2 rest1 Hl) as [H1 H2]. split; [assumption|].
      intros rest' H. specialize (H2 rest' H). lia.
    + split; discriminate.
  - now elim Hres.
Qed.

Lemma Process_fuel (fuel : nat) :
  builder_ok (ProcessSequence fuel) fuel /\ builder_ok (ProcessMap fuel) fuel.
Proof.
  induction fuel as [|fuel [IHs IHm]].
  - split; intros node lines Hlen; lia.
  - assert (Ws : builder_ok (ProcessSequence fuel) (S fuel -1))
      by (now replace (S fuel - 1) with fuel by lia).
    split; intros node lines Hlen.
    + destruct lines as [|pLine rest]; simpl.
      { split; [discriminate|]. intros rest' H. inversion H; subst. simpl; lia. }
      destruct (Node_PushBack node) as [node1 r].
      destruct rest as [|vLine rest0]; simpl; [split; discriminate|].
      simpl in Hlen.
      assert (Hl : length (vLine :: rest0) < fuel) by (simpl; lia).
      destruct (process_value_ok (ProcessSequence fuel) (ProcessMap fuel) fuel
                  vLine NoneNode (vLine :: rest0) IHs IHm Hl) as [H1 H2].
      destruct (process_value (ProcessSequence fuel) (ProcessMap fuel) vLine
                  NoneNode (vLine :: rest0)) as [childNode res].
      simpl in H1, H2.
      destruct (after_round_ok (ProcessSequence fuel) fuel (S (length rest0))
                  pLine (set_child node1 r childNode) res IHs) as [G1 G2];
        try assumption; try lia.
      split; [assumption|]. intros rest' H. specialize (G2 rest' H). lia.
    + destruct lines as [|pLine rest]; simpl.
      { split; [discriminate|]. intros rest' H. inversion H; subst. simpl; lia. }
      destruct rest as [|vLine rest0]; simpl; [split; discriminate|].
      simpl in Hlen.
      assert (Hl : length (vLine :: rest0) < fuel) by (simpl; lia).
      destruct (process_value_ok (ProcessSequence fuel) (ProcessMap fuel) fuel
                  vLine (get_child_key (Node_at_key node (Data pLine)) (Data pLine))
                  (vLine :: rest0) IHs IHm Hl) as [H1 H2].
      destruct (process_value (ProcessSequence fuel) (ProcessMap fuel) vLine
                  (get_child_key (Node_at_key node (Data pLine)) (Data pLine))
                  (vLine :: rest0)) as [childNode res].
      simpl in H1, H2.
      destruct (after_round_ok (ProcessMap fuel) fuel (S (length rest0))
                  pLine
                  (set_child_key (Node_at_key node (Data pLine)) (Data pLine)
                     childNode) res IHm) as [G1 G2];
        try assumption; try lia.
      split; [assumption|]. intros rest' H. specialize (G2 rest' H). lia.
Qed.

Lemma ProcessRoot_fuel (root0 : Node) (lines : list ReaderLine) :
  snd (ProcessRoot root0 lines) <> OutOfFuel.
Proof.
  unfold ProcessRoot. destruct lines as [|pLine rest]; [discriminate|].
  destruct (Process_fuel (S (length (pLine :: rest)))) as [Hs Hm].
  destruct (process_value_ok _ _ (S (length (pLine :: rest))) pLine root0
              (pLine :: rest) Hs Hm (Nat.lt_succ_diag_r _)) as [H1 _].
  destruct (process_value _ _ pLine root0 (pLine :: rest)) as [root' res].
  simpl in H1. destruct res as [[|? ?]|e| |]; simpl; try discriminate.
  now elim H1.
Qed.

Lemma ReadLines_read_fuel (raw : list str) :
  forall lineNo documentStartFound lines,
    snd (ReadLines_read raw lineNo documentStartFound lines) <> OutOfFuel.
Proof.
  induction raw as [|line raw IH]; intros lineNo dsf lines;
    [simpl; discriminate|]. cbn [ReadLines_read].
  destruct (negb dsf && str_eqb (remove_comment line) (lit "---")); [apply IH|].
  destruct (str_eqb (remove_comment line) (lit "...")); [discriminate|].
  match goal with
  | |- context [if Nat.eqb (length ?l) 0 then _ else _] =>
      destruct (Nat.eqb (length l) 0); [apply IH|];
      destruct (find_from invalid_char l 0); [discriminate|apply IH]
  end.
Qed.

Lemma ReadLines_trim_fuel (rest : list ReaderLine) :
  forall done, snd (ReadLines_trim done rest) <> OutOfFuel.
Proof.
  induction rest as [|pLine rest IH]; intros done; simpl; [discriminate|].
  destruct (find_first_not_of blanks (Data pLine) 0); [|apply IH].
  destruct (find_last_not_of blanks (Data pLine)); [|apply IH].
  match goal with
  | |- context [if ?c then _ else _] => destruct c
  end; [discriminate|apply IH].
Qed.

Lemma ReadLines_fuel (stream : str) : snd (ReadLines stream) <> OutOfFuel.
Proof.
  unfold ReadLines.
  pose proof (ReadLines_read_fuel (getlines stream) 0 false []) as H.
  destruct (ReadLines_read (getlines stream) 0 false []) as [lines [u|e| |]];
    simpl in *; try discriminate; [apply ReadLines_trim_fuel|now elim H].
Qed.

Lemma PostProcessLines_fuel (lines : list ReaderLine) :
  snd (PostProcessLines lines) <> OutOfFuel.
Proof.
  unfold PostProcessLines.
  pose proof (PostProcessLines_loop_fuel (S (length lines)) [] lines
                (Nat.lt_succ_diag_r _)) as H.
  destruct (PostProcessLines_loop (S (length lines)) [] lines)
    as [lines' [u|e| |]]; simpl in *; try discriminate; [|now elim H].
  destruct (rev lines'); [discriminate|].
  match goal with
  | |- context [if ?c then _ else _] => destruct c; discriminate
  end.
Qed.

Lemma Parse_try_fuel (root0 : Node) (stream : str) :
  snd (Parse_try root0 stream) <> OutOfFuel.
Proof.
  unfold Parse_try.
  pose proof (ReadLines_fuel stream) as H1.
  destruct (ReadLines stream) as [lines [u|e| |]]; simpl in *;
    try discriminate; [|now elim H1].
  pose proof (PostProcessLines_fuel lines) as H2.
  destruct (PostProcessLines lines) as [lines' [u'|e| |]]; simpl in *;
    try discriminate; [|now elim H2].
  pose proof (ProcessRoot_fuel (Node_Clear root0) lines') as H3.
  destruct (ProcessRoot (Node_Clear root0) lines') as [root2 res].
  exact H3.
Qed.

(** Without the handler a failing parse leaves lines and a partly built
    root behind. *)
Lemma Parse_try_leaves_partial_state :
  Parse_try NoneNode
    (lit "a: 1" ++ [newline] ++ lit "b:" ++ [newline] ++ lit "  - x" ++ [newline]
       ++ lit "  c: 2" ++ [newline])
  = (mkState
       (MapNode [(lit "a", ScalarNode (lit "1"));
                 (lit "b", SequenceNode [(0%N, ScalarNode (lit "x"))])])
       [mkLine (lit "a") 1 0 MapType 0; mkLine (lit "1") 1 3 ScalarType 0;
        mkLine (lit "b") 2 0 MapType 0; mkLine [] 3 2 SequenceType 0;
        mkLine (lit "x") 3 4 ScalarType 0; mkLine (lit "c") 4 2 MapType 0;
        mkLine (lit "2") 4 3 ScalarType 0],
     Throw (InternalException g_ErrorDiffEntryNotAllowed 4)).
Proof. reflexivity. Qed.

(** Every throw that reaches the caller of [Parse] was thrown in the
    [try] block. *)
Lemma Parse_throw_from_try (root0 : Node) (stream : str) (st : ReaderState)
    (e : Exception) :
  ReaderImp_Parse root0 stream = (st, Throw e) ->
  exists st0, Parse_try root0 stream = (st0, Throw e).
Proof.
  unfold ReaderImp_Parse.
  destruct (Parse_try root0 stream) as [st0 [u|e0| |]]; intros H;
    try discriminate.
  inversion H; subst. now exists st0.
Qed.

(** C6: whenever the [try] block of [ReaderImp::Parse] throws, in
    [ReadLines], in [PostProcessLines] or in the tree builders, whatever
    lines and whatever part of the tree it leaves behind in [st0], the
    handler frees the lines, resets the root to None and throws the same
    exception on: the caller of [Parse] receives that exception and a root
    that is None. *)
Theorem Parse_failure_clears (root0 : Node) (stream : str) (st0 : ReaderState)
    (e : Exception) :
  Parse_try root0 stream = (st0, Throw e) ->
  ReaderImp_Parse root0 stream = (mkState NoneNode [], Throw e)
  /\ Parse root0 stream = (NoneNode, Throw e).
Proof.
  intros H. unfold Parse, ReaderImp_Parse. rewrite H. split; reflexivity.
Qed.

Lemma Parse_failure_clears_witness :
  Parse_try (ScalarNode (lit "old"))
    (lit "a: 1" ++ [newline] ++ lit "b:" ++ [newline] ++ lit "  - x" ++ [newline]
       ++ lit "  c: 2" ++ [newline])
  = (mkState
       (MapNode [(lit "a", ScalarNode (lit "1"));
                 (lit "b", SequenceNode [(0%N, ScalarNode (lit "x"))])])
       [mkLine (lit "a") 1 0 MapType 0; mkLine (lit "1") 1 3 ScalarType 0;
        mkLine (lit "b") 2 0 MapType 0; mkLine [] 3 2 SequenceType 0;
        mkLine (lit "x") 3 4 ScalarType 0; mkLine (lit "c") 4 2 MapType 0;
        mkLine (lit "2") 4 3 ScalarType 0],
     Throw (InternalException g_ErrorDiffEntryNotAllowed 4))
  /\ Parse (ScalarNode (lit "old"))
       (lit "a: 1" ++ [newline] ++ lit "b:" ++ [newline] ++ lit "  - x"
          ++ [newline] ++ lit "  c: 2" ++ [newline])
     = (NoneNode, Throw (InternalException g_ErrorDiffEntryNotAllowed 4)).
Proof.
  assert (H : Parse_try (ScalarNode (lit "old"))
    (lit "a: 1" ++ [newline] ++ lit "b:" ++ [newline] ++ lit "  - x" ++ [newline]
       ++ lit "  c: 2" ++ [newline])
  = (mkState
       (MapNode [(lit "a", ScalarNode (lit "1"));
                 (lit "b", SequenceNode [(0%N, ScalarNode (lit "x"))])])
       [mkLine (lit "a") 1 0 MapType 0; mkLine (lit "1") 1 3 ScalarType 0;
        mkLine (lit "b") 2 0 MapType 0; mkLine [] 3 2 SequenceType 0;
        mkLine (lit "x") 3 4 ScalarType 0; mkLine (lit "c") 4 2 MapType 0;
        mkLine (lit "2") 4 3 ScalarType 0],
     Throw (InternalException g_ErrorDiffEntryNotAllowed 4)))
    by reflexivity.
  split; [exact H|].
  exact (proj2 (Parse_failure_clears _ _ _ _ H)).
Defined.

(** ** Plain keys and payloads in the emitted text *)

Ltac ascii_cases c :=
  destruct c as [[|] [|] [|] [|] [|] [|] [|] [|]];
  vm_compute; intros; try reflexivity; try discriminate.



Lemma key_char_facts (c : ascii) :
  key_char c = true ->
  printable c = true /\ char_eqb c dquote = false
  /\ char_eqb ":"%char c = false /\ char_eqb "#"%char c = false
  /\ char_eqb backslash c = false /\ char_eqb dquote c = false
  /\ char_eqb c "-"%char = false
  /\ char_in c (dquote :: lit ":{}[],&*#?|-<>=!%@") = false.
Proof. ascii_cases c; repeat split. Qed.

Lemma forallb_Forall {A : Type} (p : A -> bool) (l : list A) :
  forallb p l = true <-> Forall (fun x => p x = true) l.
Proof.
  induction l as [|x l IH]; simpl.
  - split; [constructor|reflexivity].
  - rewrite andb_true_iff, IH. split.
    + intros [H1 H2]. now constructor.
    + intros H. inversion H; subst. now split.
Qed.

Lemma find_char_None (c : ascii) (s : str) :
  Forall (fun x => char_eqb c x = false) s -> find_char c s 0 = None.
Proof. intros H. unfold find_char. simpl. now apply find_from_None. Qed.


Lemma getlines_aux_line (s t cur : str) :
  Forall (fun c => char_eqb c newline = false) s ->
  getlines_aux (s ++ newline :: t) cur = (rev cur ++ s) :: getlines_aux t [].
Proof.
  revert cur. induction s as [|c s IH]; intros cur H; simpl.
  - now rewrite app_nil_r.
  - inversion H; subst. rewrite H2, IH by assumption. simpl.
    now rewrite <- app_assoc.
Qed.

Section PlainScalar.
Variable config : SerializeConfig.


Lemma trimmed_facts (s : str) :
  trimmed s = true ->
  exists c s', s = c :: s' /\ char_eqb c space = false
               /\ char_eqb (char_at s (length s - 1)) space = false.
Proof.
  unfold trimmed. rewrite !andb_true_iff, !negb_true_iff.
  intros [[H1 H2] H3]. destruct s as [|c s']; [discriminate|].
  exists c, s'. repeat split; assumption.
Qed.
End PlainScalar.

Lemma plain_key_facts (k : str) :
  plain_key k = true ->
  trimmed k = true /\ Forall (fun c => key_char c = true) k.
Proof.
  unfold plain_key. rewrite andb_true_iff, forallb_Forall. tauto.
Qed.



Lemma render_cons (l : pline) (tl : list pline) :
  render (l :: tl) = render_line l ++ render tl.
Proof. reflexivity. Qed.





(** ** ReadLines on lines of plain text *)

Lemma text_char_facts (c : ascii) :
  text_char c = true ->
  printable c = true /\ char_eqb "#"%char c = false
  /\ char_eqb c newline = false /\ char_eqb c tab = false
  /\ char_eqb c cr = false /\ invalid_char c = false
  /\ char_in c [tab] = false.
Proof. ascii_cases c; repeat split. Qed.

Lemma char_at_Forall (P : ascii -> Prop) (s : str) (i : nat) :
  Forall P s -> i < length s -> P (char_at s i).
Proof.
  unfold char_at. revert i. induction s as [|c s IH]; intros i H Hi;
    simpl in Hi; [lia|].
  inversion H; subst. destruct i; simpl; [assumption|]. apply IH; [assumption|lia].
Qed.

Lemma find_from_skip (p : ascii -> bool) (a b : str) (i : nat) :
  Forall (fun c => p c = false) a ->
  find_from p (a ++ b) i = find_from p b (i + length a).
Proof.
  revert i. induction a as [|c a IH]; intros i H; simpl.
  - now rewrite Nat.add_0_r.
  - inversion H; subst. rewrite H2, IH by assumption. f_equal. lia.
Qed.

Lemma find_last_from_at (p : ascii -> bool) (a b : str) (c : ascii) (i : nat) :
  p c = true -> Forall (fun x => p x = false) b ->
  find_last_from p (a ++ c :: b) i = Some (i + length a).
Proof.
  intros Hc Hb. revert i. induction a as [|x a IH]; intros i; simpl.
  - assert (E : find_last_from p b (S i) = None).
    { clear Hc. revert i. induction b as [|y b IHb]; intros i; simpl;
        [reflexivity|]. inversion Hb; subst. rewrite IHb by assumption.
      now rewrite H1. }
    rewrite E, Hc. f_equal. lia.
  - rewrite IH. f_equal. lia.
Qed.

Lemma spaces_Forall (P : ascii -> Prop) (n : nat) :
  P space -> Forall P (spaces n).
Proof. intros H. unfold spaces. induction n; simpl; constructor; auto. Qed.

Lemma trimmed_snoc (s : str) :
  trimmed s = true ->
  exists a c, s = a ++ [c] /\ char_eqb c space = false.
Proof.
  intros H. destruct (trimmed_facts s H) as [c0 [s' [E [_ Hl]]]].
  assert (Hne : s <> []) by (rewrite E; discriminate).
  destruct (exists_last Hne) as [a [c Ea]]. exists a, c. split; [assumption|].
  rewrite Ea in Hl. unfold char_at in Hl. rewrite length_app in Hl. simpl in Hl.
  replace (length a + 1 - 1) with (length a) in Hl by lia.
  now rewrite nth_middle in Hl.
Qed.

Section ReadEmitted.

Lemma line_text_chars (l : pline) :
  good_pline l -> Forall (fun c => text_char c = true) (line_text l).
Proof.
  intros [_ [Hc _]]. unfold line_text. apply Forall_app. split.
  - now apply spaces_Forall.
  - apply Forall_app. split; [assumption|].
    destruct (p_trail l); repeat constructor.
Qed.

Lemma line_text_not_empty (l : pline) :
  good_pline l -> Nat.eqb (length (line_text l)) 0 = false.
Proof.
  intros [Ht _]. destruct (trimmed_facts _ Ht) as [c [s' [E _]]].
  unfold line_text. rewrite E, !length_app. simpl.
  apply Nat.eqb_neq. lia.
Qed.

Lemma line_text_not_marker (l : pline) (m : str) :
  good_pline l -> p_text l <> m -> trimmed m = true -> line_text l <> m.
Proof.
  intros [Ht _] Hne Hm E.
  destruct (trimmed_facts _ Ht) as [c [s' [Ec [Hc _]]]].
  destruct (trimmed_facts _ Hm) as [d [m' [Em [Hd Hl]]]].
  destruct (trimmed_snoc _ Hm) as [ma [mc [Ema Hmc]]].
  unfold line_text in E.
  destruct (p_offset l) as [|o].
  - simpl in E. destruct (p_trail l).
    + rewrite Ema in E.
      assert (E' : (p_text l ++ [space]) = ma ++ [mc]) by exact E.
      apply app_inj_tail in E'. destruct E' as [_ E']. subst mc. discriminate.
    + rewrite app_nil_r in E. contradiction.
  - simpl in E. rewrite Em in E. inversion E; subst. discriminate.
Qed.

Lemma remove_comment_line_text (l : pline) :
  good_pline l -> remove_comment (line_text l) = line_text l.
Proof.
  intros H. unfold remove_comment, FindNotCited, FindNotCited_count.
  rewrite find_char_None; [reflexivity|].
  eapply Forall_impl; [|exact (line_text_chars l H)].
  intros c Hc. now apply text_char_facts in Hc.
Qed.

Lemma ReadLines_read_good (l : pline) (raw : list str) (lineNo : nat)
    (documentStartFound : bool) (lines : list ReaderLine) :
  good_pline l ->
  ReadLines_read (line_text l :: raw) lineNo documentStartFound lines
  = ReadLines_read raw (S lineNo) documentStartFound
      (lines ++ [new_ReaderLine (line_text l) (S lineNo) 0]).
Proof.
  intros H. cbn [ReadLines_read]. rewrite (remove_comment_line_text l H).
  destruct H as [Ht [Hc [H1 H2]]].
  assert (Hg : good_pline l) by (repeat split; assumption).
  rewrite (str_eqb_neq _ _ (line_text_not_marker l _ Hg H1 eq_refl)).
  rewrite (str_eqb_neq _ _ (line_text_not_marker l _ Hg H2 eq_refl)).
  rewrite andb_false_r, (line_text_not_empty l Hg). cbn [negb andb].
  assert (Hcr : char_eqb (char_at (line_text l) (length (line_text l) - 1)) cr
                = false).
  { pose proof (line_text_not_empty l Hg) as Hn. apply Nat.eqb_neq in Hn.
    apply (char_at_Forall (fun c => char_eqb c cr = false)); [|lia].
    eapply Forall_impl; [|exact (line_text_chars l Hg)].
    intros c Hx. now apply text_char_facts in Hx. }
  rewrite Hcr, (line_text_not_empty l Hg).
  replace (find_from invalid_char (line_text l) 0) with (@None nat);
    [reflexivity|].
  symmetry. apply find_from_None.
  eapply Forall_impl; [|exact (line_text_chars l Hg)].
  intros c Hx. now apply text_char_facts in Hx.
Qed.

Lemma ReadLines_read_emitted (ls : list pline) :
  Forall good_pline ls ->
  forall lineNo documentStartFound lines,
    ReadLines_read (map line_text ls ++ [[]]) lineNo documentStartFound lines
    = (lines ++ map (fun l => new_ReaderLine (line_text (snd l)) (fst l) 0)
                  (combine (seq (S lineNo) (length ls)) ls),
       Ok tt).
Proof.
  induction 1 as [|l ls Hl Hls IH]; intros lineNo dsf lines.
  - cbn [map app ReadLines_read].
    change (remove_comment []) with (@nil ascii).
    change (str_eqb [] (lit "---")) with false.
    change (str_eqb [] (lit "...")) with false.
    rewrite andb_false_r. simpl. now rewrite app_nil_r.
  - cbn [map app]. rewrite (ReadLines_read_good l _ _ _ _ Hl), IH.
    cbn [length seq combine map fst snd]. now rewrite <- app_assoc.
Qed.

Lemma ReadLines_trim_good (l : pline) (no : nat) (done rest : list ReaderLine) :
  good_pline l ->
  ReadLines_trim done (new_ReaderLine (line_text l) no 0 :: rest)
  = ReadLines_trim (done ++ [read_line no l]) rest.
Proof.
  intros Hg. pose proof Hg as [Ht [Hc _]].
  destruct (trimmed_facts _ Ht) as [c [s' [Ec [Hcs _]]]].
  destruct (trimmed_snoc _ Ht) as [a [d [Ea Hd]]].
  assert (Hnb : forall x, text_char x = true -> char_eqb x space = false ->
                          negb (char_in x blanks) = true).
  { clear. intros x. ascii_cases x. }
  cbn [ReadLines_trim]. unfold new_ReaderLine. cbn [Data].
  assert (E1 : find_first_of [tab] (line_text l) 0 = None).
  { unfold find_first_of. simpl skipn. apply find_from_None.
    eapply Forall_impl; [|exact (line_text_chars l Hg)].
    intros x Hx. now apply text_char_facts in Hx. }
  assert (E2 : find_first_not_of blanks (line_text l) 0 = Some (p_offset l)).
  { unfold find_first_not_of, line_text. simpl skipn.
    rewrite find_from_skip.
    - assert (Hcb : negb (char_in c blanks) = true).
      { apply Hnb; [|assumption]. rewrite Forall_forall in Hc. apply Hc.
        rewrite Ec. now left. }
      rewrite Ec. cbn [app find_from]. rewrite Hcb.
      f_equal. unfold spaces. now rewrite repeat_length.
    - apply spaces_Forall. reflexivity. }
  assert (E3 : find_last_not_of blanks (line_text l)
               = Some (p_offset l + length a)).
  { unfold find_last_not_of, line_text. rewrite Ea, <- !app_assoc.
    rewrite app_assoc. simpl app.
    rewrite (find_last_from_at _ (spaces (p_offset l) ++ a)).
    - rewrite length_app. unfold spaces. now rewrite repeat_length.
    - apply Hnb; [|assumption]. rewrite Forall_forall in Hc. apply Hc.
      rewrite Ea. apply in_or_app. right. now left.
    - destruct (p_trail l); repeat constructor. }
  rewrite E1, E2, E3. cbn [npos_ltb].
  f_equal. f_equal. unfold read_line, set_Offset, set_Data. cbn [Data No Offset Type_ Flags].
  f_equal. unfold substr, substr_from, line_text. simpl skipn.
  rewrite skipn_app. unfold spaces at 1. rewrite skipn_all2
    by (unfold spaces; rewrite repeat_length; lia).
  unfold spaces. rewrite repeat_length, Nat.sub_diag. simpl skipn. simpl app.
  replace (p_offset l + length a - p_offset l + 1) with (length (p_text l))
    by (rewrite Ea, length_app; simpl; lia).
  rewrite firstn_app, Nat.sub_diag, firstn_all. simpl. now rewrite app_nil_r.
Qed.

Lemma ReadLines_trim_emitted (ls : list pline) :
  Forall good_pline ls ->
  forall no done,
    ReadLines_trim done
      (map (fun l => new_ReaderLine (line_text (snd l)) (fst l) 0)
         (combine (seq no (length ls)) ls))
    = (done ++ read_lines no ls, Ok tt).
Proof.
  induction 1 as [|l ls Hl Hls IH]; intros no done.
  - simpl. now rewrite app_nil_r.
  - cbn [length seq combine map fst snd read_lines].
    rewrite (ReadLines_trim_good l no done _ Hl), IH.
    now rewrite <- app_assoc.
Qed.

Lemma render_getlines (ls : list pline) :
  Forall good_pline ls ->
  getlines (render ls) = map line_text ls ++ [[]].
Proof.
  unfold getlines. induction 1 as [|l ls Hl Hls IH]; [reflexivity|].
  rewrite render_cons. unfold render_line. rewrite <- app_assoc. simpl app.
  rewrite getlines_aux_line.
  - simpl. now rewrite IH.
  - eapply Forall_impl; [|exact (line_text_chars l Hl)].
    intros c Hc. now apply text_char_facts in Hc.
Qed.

Lemma ReadLines_emitted (ls : list pline) :
  Forall good_pline ls -> ReadLines (render ls) = (read_lines 1 ls, Ok tt).
Proof.
  intros H. unfold ReadLines.
  rewrite (render_getlines ls H), (ReadLines_read_emitted ls H).
  cbn [app]. apply (ReadLines_trim_emitted ls H 1 []).
Qed.

End ReadEmitted.

Lemma trimmed_intro (s s' a : str) (c d : ascii) :
  s = c :: s' -> s = a ++ [d] ->
  char_eqb c space = false -> char_eqb d space = false ->
  trimmed s = true.
Proof.
  intros E1 E2 Hc Hd. unfold trimmed.
  rewrite !andb_true_iff, !negb_true_iff. repeat split.
  - rewrite E1. reflexivity.
  - rewrite E1. exact Hc.
  - rewrite E2. unfold char_at. rewrite length_app. simpl.
    replace (length a + 1 - 1) with (length a) by lia.
    now rewrite nth_middle.
Qed.

Lemma trimmed_app (a b : str) :
  trimmed a = true -> trimmed b = true -> trimmed (a ++ b) = true.
Proof.
  intros Ha Hb.
  destruct (trimmed_facts a Ha) as [c [a' [Ea [Hc _]]]].
  destruct (trimmed_snoc b Hb) as [b' [d [Eb Hd]]].
  apply (trimmed_intro (a ++ b) (a' ++ b) (a ++ b') c d); try assumption.
  - now rewrite Ea.
  - now rewrite Eb, app_assoc.
Qed.


Lemma key_char_text_char (c : ascii) :
  key_char c = true -> text_char c = true.
Proof. ascii_cases c. Qed.


Section EmittedGood.
Variable config : SerializeConfig.


Lemma good_key (o : nat) (k : str) :
  plain_key k = true -> good_pline (mkP o (k ++ lit ":") true).
Proof.
  intros H. apply plain_key_facts in H. destruct H as [Ht Hc].
  destruct (trimmed_facts _ Ht) as [c [k' [Ek [Hcs _]]]].
  assert (Hc0 : key_char c = true).
  { rewrite Forall_forall in Hc. apply Hc. rewrite Ek. now left. }
  unfold good_pline. simpl p_text. repeat split.
  - now apply trimmed_app.
  - apply Forall_app. split; [|repeat constructor].
    eapply Forall_impl; [|exact Hc]. apply key_char_text_char.
  - rewrite Ek. intros E. inversion E; subst.
    apply key_char_facts in Hc0. destruct Hc0 as [_ [_ [_ [_ [_ [_ [Hm _]]]]]]].
    discriminate.
  - intros E. change (lit "...") with (lit ".." ++ ["."%char]) in E.
    apply app_inj_tail in E. destruct E as [_ E]. discriminate.
Qed.

Lemma good_key_value (o : nat) (k : str) (l : pline) :
  plain_key k = true -> good_pline l ->
  good_pline (mkP o ((k ++ lit ": ") ++ p_text l) (p_trail l)).
Proof.
  intros H [Htl [Hcl _]]. apply plain_key_facts in H. destruct H as [Ht Hc].
  destruct (trimmed_facts _ Ht) as [c [k' [Ek [Hcs _]]]].
  assert (Hc0 : key_char c = true).
  { rewrite Forall_forall in Hc. apply Hc. rewrite Ek. now left. }
  unfold good_pline. simpl p_text. repeat split.
  - rewrite <- app_assoc. apply trimmed_app; [assumption|].
    destruct (trimmed_snoc _ Htl) as [a [d [Ea Hd]]].
    apply (trimmed_intro _ (" "%char :: p_text l) (lit ": " ++ a) ":"%char d);
      try reflexivity; try assumption.
    rewrite Ea. reflexivity.
  - apply Forall_app. split; [|assumption].
    apply Forall_app. split; [|repeat constructor].
    eapply Forall_impl; [|exact Hc]. apply key_char_text_char.
  - rewrite Ek. intros E. inversion E; subst.
    apply key_char_facts in Hc0. destruct Hc0 as [_ [_ [_ [_ [_ [_ [Hm _]]]]]]].
    discriminate.
  - intros E. apply (f_equal (@length ascii)) in E.
    destruct (trimmed_facts _ Htl) as [x [t' [Et _]]].
    rewrite Ek, Et, !length_app in E. simpl in E. lia.
Qed.
End EmittedGood.

(** ** PostProcessLines on a line with a plain key *)

Lemma GetFlag_clear (l : ReaderLine) (f : eFlag) :
  Flags l = 0%N -> GetFlag l f = false.
Proof. unfold GetFlag. intros ->. destruct f; reflexivity. Qed.

Lemma PostProcessScalar_plain (done rest : list ReaderLine) (l : ReaderLine) :
  flags_ok done -> Flags l = 0%N ->
  exists l',
    scalar_line (Data l) l'
    /\ PostProcessScalar done (l :: rest) = (done ++ [l'], rest, Ok tt).
Proof.
  intros Hd Hl. unfold PostProcessScalar.
  set (l1 := match rev done with
             | pPrevLine :: _ => CopyScalarFlags (set_Type l ScalarType) pPrevLine
             | [] => set_Type l ScalarType
             end).
  assert (H1 : scalar_line (Data l) l1).
  { unfold l1, scalar_line. destruct (rev done) as [|p tl] eqn:E.
    - simpl. auto.
    - assert (Hp : Flags p = 0%N).
      { unfold flags_ok in Hd. rewrite Forall_forall in Hd. apply Hd.
        apply in_rev. rewrite E. now left. }
      unfold CopyScalarFlags. simpl. rewrite Hl, Hp. auto. }
  exists l1. split; [assumption|].
  destruct H1 as [_ [_ Hf]].
  now rewrite !(GetFlag_clear l1 _ Hf).
Qed.

Lemma FindNotCited_count_no_token (input : str) (token : ascii) :
  find_char token input 0 = None -> FindNotCited_count input token = (None, 0).
Proof. intros H. unfold FindNotCited_count. now rewrite H. Qed.

Lemma find_char_app (c : ascii) (k t : str) :
  Forall (fun x => char_eqb c x = false) k ->
  find_char c (k ++ c :: t) 0 = Some (length k).
Proof.
  intros H. unfold find_char. simpl skipn. rewrite find_from_skip by assumption.
  simpl. unfold char_eqb. now rewrite Ascii.eqb_refl.
Qed.

Lemma RemoveAllEscapeTokens_plain (k : str) :
  Forall (fun x => char_eqb backslash x = false) k ->
  RemoveAllEscapeTokens k = k.
Proof.
  intros H. unfold RemoveAllEscapeTokens. rewrite find_char_None by assumption.
  destruct (length k); reflexivity.
Qed.

Lemma find_last_not_of_trimmed (k : str) :
  trimmed k = true -> Forall (fun c => text_char c = true) k ->
  find_last_not_of blanks k = Some (length k - 1).
Proof.
  intros Ht Hc. destruct (trimmed_snoc k Ht) as [a [d [Ea Hd]]].
  unfold find_last_not_of. rewrite Ea.
  rewrite (find_last_from_at _ a []).
  - rewrite length_app. simpl. f_equal. lia.
  - rewrite Forall_forall in Hc.
    assert (Hx : text_char d = true)
      by (apply Hc; rewrite Ea; apply in_or_app; right; now left).
    revert Hx Hd. clear. ascii_cases d.
  - constructor.
Qed.

Section MappingRounds.
Variable config : SerializeConfig.

(** What the key part of a map line gives. *)
Lemma mapping_key_part (k t : str) :
  plain_key k = true -> no_dquote t ->
  let data := k ++ ":"%char :: t in
  FindNotCited_count data ":"%char = (Some (length k), 0)
  /\ find_last_not_of blanks (substr data 0 (length k)) = Some (length k - 1)
  /\ RemoveAllEscapeTokens (resize (substr data 0 (length k)) (length k - 1 + 1))
     = k
  /\ IsSequenceStart data = false.
Proof.
  intros Hk Ht data. apply plain_key_facts in Hk. destruct Hk as [Htr Hc].
  assert (Hsub : substr data 0 (length k) = k).
  { unfold substr, data. simpl skipn. rewrite firstn_app, Nat.sub_diag.
    simpl. now rewrite app_nil_r, firstn_all. }
  destruct (trimmed_facts k Htr) as [c [k' [Ek [Hcs _]]]].
  assert (Hlen : length k - 1 + 1 = length k) by (rewrite Ek; simpl; lia).
  repeat split.
  - rewrite FindNotCited_count_no_dquote.
    + unfold data. rewrite find_char_app; [reflexivity|].
      eapply Forall_impl; [|exact Hc]. intros a Ha.
      now apply key_char_facts in Ha.
    + unfold data, no_dquote. apply Forall_app. split.
      * eapply Forall_impl; [|exact Hc]. intros a Ha.
        now apply key_char_facts in Ha.
      * constructor; [reflexivity|assumption].
  - rewrite Hsub. apply find_last_not_of_trimmed; [assumption|].
    eapply Forall_impl; [|exact Hc]. apply key_char_text_char.
  - rewrite Hsub, Hlen. unfold resize. rewrite firstn_all.
    apply RemoveAllEscapeTokens_plain.
    eapply Forall_impl; [|exact Hc]. intros a Ha.
    now apply key_char_facts in Ha.
  - unfold data. rewrite Ek.
    assert (Hm : char_eqb c "-"%char = false).
    { rewrite Forall_forall in Hc.
      assert (Hx : key_char c = true) by (apply Hc; rewrite Ek; now left).
      now apply key_char_facts in Hx. }
    unfold IsSequenceStart. cbn [app length Nat.eqb orb char_at nth].
    now rewrite Hm.
Qed.

End MappingRounds.
(* ================================================================== *)
(** * Further properties of the node operations                         *)
(* ================================================================== *)

(** ** Lookup after insertion and erasure in a [std::map] *)

Section StdMapLookup.
Context {K V : Type}.
Variable ltb : K -> K -> bool.
Hypothesis ltb_irrefl : forall a, ltb a a = false.
Hypothesis ltb_trans : forall a b c, ltb a b = true -> ltb b c = true -> ltb a c = true.
Hypothesis ltb_total : forall a b, ltb a b = false -> ltb b a = false -> a = b.

Lemma map_find_insert_same (m : list (K * V)) k v :
  map_find ltb (map_insert ltb m k v) k
  = match map_find ltb m k with
    | Some w => Some w
    | None => Some v
    end.
Proof.
  induction m as [|[a w] m IH]; simpl.
  - now rewrite ltb_irrefl.
  - destruct (ltb k a) eqn:E1; simpl.
    + now rewrite ltb_irrefl.
    + destruct (ltb a k) eqn:E2; simpl; rewrite E1, E2; [exact IH|reflexivity].
Qed.

Lemma map_find_insert_other (m : list (K * V)) k v k' :
  k' <> k -> map_find ltb (map_insert ltb m k v) k' = map_find ltb m k'.
Proof.
  intros Hne. induction m as [|[a w] m IH]; simpl.
  - destruct (ltb k' k) eqn:E1; [reflexivity|].
    destruct (ltb k k') eqn:E2; [reflexivity|].
    elim Hne. now apply ltb_total.
  - destruct (ltb k a) eqn:E1; simpl.
    + destruct (ltb k' k) eqn:E3.
      * now rewrite (ltb_trans _ _ _ E3 E1).
      * destruct (ltb k k') eqn:E4; [reflexivity|].
        elim Hne. now apply ltb_total.
    + destruct (ltb a k) eqn:E2; simpl; [|reflexivity].
      destruct (ltb k' a); [reflexivity|].
      destruct (ltb a k'); [exact IH|reflexivity].
Qed.

Lemma map_insert_length (m : list (K * V)) k v :
  length (map_insert ltb m k v)
  = match map_find ltb m k with
    | Some _ => length m
    | None => S (length m)
    end.
Proof.
  induction m as [|[a w] m IH]; simpl; [reflexivity|].
  destruct (ltb k a) eqn:E1; simpl; [reflexivity|].
  destruct (ltb a k) eqn:E2; simpl; [|reflexivity].
  rewrite IH. now destruct (map_find ltb m k).
Qed.

Lemma map_find_erase_same (m : list (K * V)) k :
  ascending ltb m -> map_find ltb (map_erase ltb m k) k = None.
Proof.
  induction m as [|[a w] m IH]; simpl; intros Ha; [reflexivity|].
  destruct Ha as [Ha1 Ha2]. simpl in Ha1.
  destruct (ltb k a) eqn:E1; simpl.
  - now rewrite E1.
  - destruct (ltb a k) eqn:E2; simpl.
    + rewrite E1, E2. now apply IH.
    + assert (a = k) by now apply ltb_total. subst a.
      now apply map_find_above.
Qed.

Lemma map_find_erase_other (m : list (K * V)) k k' :
  ascending ltb m -> k' <> k ->
  map_find ltb (map_erase ltb m k) k' = map_find ltb m k'.
Proof.
  intros Ha Hne. induction m as [|[a w] m IH]; simpl; [reflexivity|].
  destruct Ha as [Ha1 Ha2]. simpl in Ha1.
  destruct (ltb k a) eqn:E1; simpl; [reflexivity|].
  destruct (ltb a k) eqn:E2; simpl.
  - destruct (ltb k' a); [reflexivity|].
    destruct (ltb a k'); [now apply IH|reflexivity].
  - assert (a = k) by now apply ltb_total. subst a.
    destruct (ltb k' k) eqn:E3.
    + apply map_find_above. now apply (keys_above_trans ltb ltb_trans k' k).
    + destruct (ltb k k') eqn:E4; [reflexivity|].
      elim Hne. now apply ltb_total.
Qed.

Lemma map_erase_length (m : list (K * V)) k :
  length (map_erase ltb m k)
  = match map_find ltb m k with
    | Some _ => length m - 1
    | None => length m
    end.
Proof.
  induction m as [|[a w] m IH]; simpl; [reflexivity|].
  destruct (ltb k a) eqn:E1; simpl; [reflexivity|].
  destruct (ltb a k) eqn:E2; simpl; [|lia].
  rewrite IH. destruct (map_find ltb m k) eqn:F; [|reflexivity].
  destruct m; [discriminate|simpl; lia].
Qed.

Lemma map_find_last_key (m : list (K * V)) k :
  ascending ltb m -> map_last_key m = Some k ->
  exists v, map_find ltb m k = Some v.
Proof.
  induction m as [|[a w] m IH]; simpl; intros Ha Hl; [discriminate|].
  destruct Ha as [Ha1 Ha2]. destruct m as [|e m'].
  - inversion Hl; subst. exists w. now rewrite ltb_irrefl.
  - destruct (IH Ha2 Hl) as [v Hv]. exists v.
    pose proof (map_find_Some_In ltb ltb_total _ _ _ Hv) as Hin.
    unfold keys_above in Ha1. rewrite Forall_forall in Ha1.
    specialize (Ha1 _ Hin). simpl in Ha1.
    change (map_find ltb ((a, w) :: e :: m') k)
      with (if ltb k a then None
            else if ltb a k then map_find ltb (e :: m') k else Some w).
    now rewrite (ltb_asym ltb ltb_irrefl ltb_trans _ _ Ha1), Ha1.
Qed.
End StdMapLookup.

(** ** Sequence operations *)

(** X1: on a sequence that is indexed densely from 0 and holds fewer than
    2^64 children, [PushBack] adds a None child at the position [Size],
    leaves the children it had as they are, and returns the new child. *)
Theorem PushBack_appends_at_size (m : SequenceImp) :
  dense_keys m -> (N.of_nat (length m) < SIZE_MOD)%N ->
  Node_PushBack (SequenceNode m)
  = (SequenceNode (m ++ [(Node_Size (SequenceNode m), NoneNode)]),
     Some (Node_Size (SequenceNode m))).
Proof.
  intros Hd Hlen. unfold Node_PushBack. cbn [InitSequence Node_Size].
  now rewrite (PushBack_dense_exact m Hd Hlen).
Qed.

Lemma PushBack_appends_at_size_witness :
  Node_PushBack (SequenceNode [(0%N, ScalarNode (lit "a")); (1%N, NoneNode)])
  = (SequenceNode [(0%N, ScalarNode (lit "a")); (1%N, NoneNode); (2%N, NoneNode)],
     Some 2%N).
Proof.
  apply (PushBack_appends_at_size
           [(0%N, ScalarNode (lit "a")); (1%N, NoneNode)]).
  - reflexivity.
  - apply N.ltb_lt. reflexivity.
Defined.

(** X2: a sequence operation on a node that is not a sequence, or is a
    sequence without children, drops what the node holds: [PushBack],
    [PushFront] and [Insert] at any index leave a sequence of one None child
    at position 0, and reading an index leaves the empty sequence and finds
    no child. *)
Theorem sequence_operation_on_other_kind (n : Node) (index : N) (fuel : nat) :
  InitSequence n = SequenceNode [] ->
  Node_PushBack n = (SequenceNode [(0%N, NoneNode)], Some 0%N)
  /\ Node_PushFront fuel n = Some (SequenceNode [(0%N, NoneNode)], Some 0%N)
  /\ Node_Insert fuel n index = Some (SequenceNode [(0%N, NoneNode)], Some 0%N)
  /\ Node_at n index = (SequenceNode [], None).
Proof.
  intros H. unfold Node_PushBack, Node_PushFront, Node_Insert, Node_at.
  rewrite H. repeat split; destruct fuel; reflexivity.
Qed.

Lemma sequence_operation_on_other_kind_witness :
  Node_PushBack (MapNode [(lit "k", ScalarNode (lit "v"))])
  = (SequenceNode [(0%N, NoneNode)], Some 0%N)
  /\ Node_PushFront 0 (MapNode [(lit "k", ScalarNode (lit "v"))])
     = Some (SequenceNode [(0%N, NoneNode)], Some 0%N)
  /\ Node_Insert 0 (MapNode [(lit "k", ScalarNode (lit "v"))]) 7
     = Some (SequenceNode [(0%N, NoneNode)], Some 0%N)
  /\ Node_at (MapNode [(lit "k", ScalarNode (lit "v"))]) 7
     = (SequenceNode [], None).
Proof.
  apply sequence_operation_on_other_kind. reflexivity.
Defined.

(** X3: [Insert] at an index at or beyond the size of a sequence that has
    children adds nothing: it offers the new node to the map under the last
    key, which is taken, so the sequence stays as it is and the node
    returned is not part of it. *)
Theorem Insert_past_end_adds_nothing (m : SequenceImp) (index : N) (fuel : nat) :
  m <> [] -> ascending N.ltb m ->
  (Node_Size (SequenceNode m) <= index)%N ->
  Node_Insert fuel (SequenceNode m) index = Some (SequenceNode m, None).
Proof.
  intros Hne Ha Hi. unfold Node_Insert. cbn [InitSequence].
  unfold SequenceImp_Insert, SequenceImp_GetSize. simpl in Hi.
  destruct (N.eqb_spec (N.of_nat (length m)) 0) as [E|_].
  - destruct m; [now elim Hne|discriminate].
  - apply N.leb_le in Hi. rewrite Hi.
    destruct (map_last_key m) as [k|] eqn:El; [|reflexivity].
    destruct (map_find_last_key N.ltb N_ltb_irrefl N_ltb_trans N_ltb_total
                m k Ha El) as [v Hv].
    unfold seq_insert_new. now rewrite Hv.
Qed.

Lemma Insert_past_end_adds_nothing_witness :
  Node_Insert 0 (SequenceNode [(0%N, ScalarNode (lit "a")); (1%N, NoneNode)]) 2
  = Some (SequenceNode [(0%N, ScalarNode (lit "a")); (1%N, NoneNode)], None).
Proof.
  apply Insert_past_end_adds_nothing.
  - discriminate.
  - simpl. repeat constructor.
  - apply N.leb_le. reflexivity.
Defined.

(** X5: [Erase] at an index of a sequence removes the child under that
    index and renumbers nothing: afterwards no child is found at the index,
    every other index finds what it found before, and the size is one less
    exactly when a child was there. *)
Theorem Erase_index_keeps_other_positions (m : SequenceImp) (index : N) :
  ascending N.ltb m ->
  snd (Node_at (Node_Erase (SequenceNode m) index) index) = None
  /\ (forall i, i <> index ->
        snd (Node_at (Node_Erase (SequenceNode m) index) i)
        = snd (Node_at (SequenceNode m) i))
  /\ Node_Size (Node_Erase (SequenceNode m) index)
     = (if present (SequenceNode m) index
        then Node_Size (SequenceNode m) - 1
        else Node_Size (SequenceNode m))%N.
Proof.
  intros Ha. unfold present. simpl.
  unfold SequenceImp_GetNode, SequenceImp_Erase. split; [|split].
  - now apply (map_find_erase_same N.ltb N_ltb_total).
  - intros i Hi.
    now apply (map_find_erase_other N.ltb N_ltb_trans N_ltb_total).
  - rewrite (map_erase_length N.ltb).
    destruct (map_find N.ltb m index); lia.
Qed.

Lemma Erase_index_keeps_other_positions_witness :
  snd (Node_at (Node_Erase (SequenceNode [(0%N, NoneNode); (1%N, ScalarNode (lit "b"))]) 0) 0) = None
  /\ (forall i, i <> 0%N ->
        snd (Node_at (Node_Erase (SequenceNode [(0%N, NoneNode); (1%N, ScalarNode (lit "b"))]) 0) i)
        = snd (Node_at (SequenceNode [(0%N, NoneNode); (1%N, ScalarNode (lit "b"))]) i))
  /\ Node_Size (Node_Erase (SequenceNode [(0%N, NoneNode); (1%N, ScalarNode (lit "b"))]) 0)
     = (if present (SequenceNode [(0%N, NoneNode); (1%N, ScalarNode (lit "b"))]) 0
        then Node_Size (SequenceNode [(0%N, NoneNode); (1%N, ScalarNode (lit "b"))]) - 1
        else Node_Size (SequenceNode [(0%N, NoneNode); (1%N, ScalarNode (lit "b"))]))%N.
Proof.
  apply Erase_index_keeps_other_positions. simpl. repeat constructor.
Defined.

(** ** Map operations *)

(** X6: [operator[]] with a key on a map finds the child under the key or,
    when the key is missing, adds a None child under it: afterwards the key
    is present, every other key finds what it found before, the size is one
    more exactly when the key was missing, and the keys stay in ascending
    order. *)
Theorem at_key_finds_or_inserts (m : MapImp) (key : str) :
  exists m',
    Node_at_key (MapNode m) key = MapNode m'
    /\ map_find str_ltb m' key = Some (get_child_key (MapNode m) key)
    /\ (forall k, k <> key -> map_find str_ltb m' k = map_find str_ltb m k)
    /\ length m'
       = match map_find str_ltb m key with
         | Some _ => length m
         | None => S (length m)
         end
    /\ (ascending str_ltb m -> ascending str_ltb m').
Proof.
  exists (MapImp_GetNode m key). split; [reflexivity|].
  unfold MapImp_GetNode, get_child_key.
  destruct (map_find str_ltb m key) as [c|] eqn:F.
  - repeat split; auto.
  - split; [|split; [|split]].
    + rewrite (map_find_insert_same str_ltb str_ltb_irrefl). now rewrite F.
    + intros k Hk.
      now apply (map_find_insert_other str_ltb str_ltb_trans str_ltb_total).
    + rewrite (map_insert_length str_ltb). now rewrite F.
    + intros Ha. apply map_insert_ascending; auto using str_ltb_irrefl.
      exact str_ltb_trans.
Qed.

(** X7: [Erase] with a key on a map removes the entry under the key and no
    other: afterwards the key is missing, every other key finds what it
    found before, the size is one less exactly when the key was present,
    and the keys stay in ascending order. *)
Theorem Erase_key_removes_entry (m : MapImp) (key : str) :
  ascending str_ltb m ->
  exists m',
    Node_Erase_key (MapNode m) key = MapNode m'
    /\ map_find str_ltb m' key = None
    /\ (forall k, k <> key -> map_find str_ltb m' k = map_find str_ltb m k)
    /\ length m'
       = match map_find str_ltb m key with
         | Some _ => length m - 1
         | None => length m
         end
    /\ ascending str_ltb m'.
Proof.
  intros Ha. exists (MapImp_Erase m key). split; [reflexivity|].
  unfold MapImp_Erase. split; [|split; [|split]].
  - now apply (map_find_erase_same str_ltb str_ltb_total).
  - intros k Hk.
    now apply (map_find_erase_other str_ltb str_ltb_trans str_ltb_total).
  - apply (map_erase_length str_ltb).
  - now apply map_erase_ascending.
Qed.

Lemma Erase_key_removes_entry_witness :
  exists m',
    Node_Erase_key (MapNode [(lit "a", NoneNode); (lit "b", ScalarNode (lit "1"))]) (lit "a")
    = MapNode m'
    /\ map_find str_ltb m' (lit "a") = None
    /\ (forall k, k <> lit "a" ->
          map_find str_ltb m' k
          = map_find str_ltb [(lit "a", NoneNode); (lit "b", ScalarNode (lit "1"))] k)
    /\ length m'
       = match map_find str_ltb [(lit "a", NoneNode); (lit "b", ScalarNode (lit "1"))] (lit "a") with
         | Some _ => length [(lit "a", NoneNode); (lit "b", ScalarNode (lit "1"))] - 1
         | None => length [(lit "a", NoneNode); (lit "b", ScalarNode (lit "1"))]
         end
    /\ ascending str_ltb m'.
Proof.
  apply Erase_key_removes_entry. simpl. repeat constructor.
Defined.

(** ** Iteration *)

Lemma skipn_nth_error {A : Type} (l : list A) (i : nat) (x : A) :
  nth_error l i = Some x -> skipn i l = x :: skipn (S i) l.
Proof.
  revert i. induction l as [|a l IH]; intros [|i] H; try discriminate.
  - now inversion H.
  - simpl in H. now apply IH.
Qed.

Lemma iterate_sequence_from (m : SequenceImp) (fuel pos : nat) :
  pos <= length m -> length m - pos <= fuel ->
  iterate_loop fuel (SequenceIterator m pos) (SequenceIterator m (length m))
  = Ok (map (fun e => (Dangling, snd e)) (skipn pos m)).
Proof.
  revert pos. induction fuel as [|fuel IH]; intros pos Hp Hf.
  - assert (pos = length m) by lia. subst pos.
    rewrite skipn_all. simpl. unfold Iterator_neq. simpl.
    now rewrite Nat.eqb_refl.
  - cbn [iterate_loop]. unfold Iterator_neq. cbn [Iterator_eq].
    destruct (Nat.eqb_spec pos (length m)) as [E|E].
    + subst pos. now rewrite skipn_all.
    + cbn [negb Iterator_deref Iterator_incr].
      destruct (nth_error m pos) as [e|] eqn:En.
      * destruct (Nat.ltb_spec pos (length m)) as [_|?]; [|lia].
        rewrite IH by lia.
        now rewrite (skipn_nth_error _ _ _ En).
      * apply nth_error_None in En. lia.
Qed.

Lemma iterate_map_from (m : MapImp) (fuel pos : nat) :
  pos <= length m -> length m - pos <= fuel ->
  iterate_loop fuel (MapIterator m pos) (MapIterator m (length m))
  = Ok (map (fun e => (KeyOf (fst e), snd e)) (skipn pos m)).
Proof.
  revert pos. induction fuel as [|fuel IH]; intros pos Hp Hf.
  - assert (pos = length m) by lia. subst pos.
    rewrite skipn_all. simpl. unfold Iterator_neq. simpl.
    now rewrite Nat.eqb_refl.
  - cbn [iterate_loop]. unfold Iterator_neq. cbn [Iterator_eq].
    destruct (Nat.eqb_spec pos (length m)) as [E|E].
    + subst pos. now rewrite skipn_all.
    + cbn [negb Iterator_deref Iterator_incr].
      destruct (nth_error m pos) as [e|] eqn:En.
      * destruct (Nat.ltb_spec pos (length m)) as [_|?]; [|lia].
        rewrite IH by lia.
        now rewrite (skipn_nth_error _ _ _ En).
      * apply nth_error_None in En. lia.
Qed.

(** X8: the loop from [Begin()] to [End()] over a sequence or a map ends
    after [Size] rounds and visits the children in ascending key order.
    For a map [*it] refers to the key of each child; for a sequence its
    first component refers to a string that no longer exists, so only the
    children can be read. *)
Theorem iterate_Begin_End (n : Node) (fuel : nat) :
  IsSequence n || IsMap n = true ->
  N.to_nat (Node_Size n) <= fuel ->
  iterate_loop fuel (Node_Begin n) (Node_End n)
  = Ok (match n with
        | SequenceNode m => map (fun e => (Dangling, snd e)) m
        | MapNode m => map (fun e => (KeyOf (fst e), snd e)) m
        | _ => []
        end).
Proof.
  destruct n as [|v|m|m]; try discriminate; intros _ Hf; simpl in Hf;
    rewrite Nat2N.id in Hf; simpl.
  - rewrite iterate_sequence_from by lia. reflexivity.
  - rewrite iterate_map_from by lia. reflexivity.
Qed.

Lemma iterate_Begin_End_witness :
  iterate_loop 2 (Node_Begin (SequenceNode [(0%N, NoneNode); (5%N, ScalarNode (lit "b"))]))
    (Node_End (SequenceNode [(0%N, NoneNode); (5%N, ScalarNode (lit "b"))]))
  = Ok [(Dangling, NoneNode); (Dangling, ScalarNode (lit "b"))].
Proof.
  apply (iterate_Begin_End
           (SequenceNode [(0%N, NoneNode); (5%N, ScalarNode (lit "b"))]) 2).
  - reflexivity.
  - simpl. lia.
Defined.

(** X9: on a node that is None or a scalar, [Begin()] and [End()] are
    iterators of the type None, which [operator==] never finds equal and
    [operator++] leaves as they are: the loop from [Begin()] to [End()]
    does not end.  What [*it] refers to in every round is the None node,
    with a key that cannot be read. *)
Theorem iterate_other_kind_runs_on (n : Node) (fuel : nat) :
  IsSequence n = false -> IsMap n = false ->
  Iterator_neq (Node_Begin n) (Node_End n) = true
  /\ Iterator_incr (Node_Begin n) = Some (Node_Begin n)
  /\ Iterator_deref (Node_Begin n) = Some (Dangling, NoneNode)
  /\ iterate_loop fuel (Node_Begin n) (Node_End n) = OutOfFuel.
Proof.
  intros Hs Hm.
  assert (Hb : Node_Begin n = NoneIterator) by (destruct n; try discriminate; reflexivity).
  assert (He : Node_End n = NoneIterator) by (destruct n; try discriminate; reflexivity).
  rewrite Hb, He. repeat split.
  induction fuel as [|fuel IH]; [reflexivity|].
  cbn [iterate_loop Iterator_neq Iterator_eq negb Iterator_deref Iterator_incr].
  now rewrite IH.
Qed.

Lemma iterate_other_kind_runs_on_witness :
  Iterator_neq (Node_Begin (ScalarNode (lit "a"))) (Node_End (ScalarNode (lit "a"))) = true
  /\ Iterator_incr (Node_Begin (ScalarNode (lit "a"))) = Some (Node_Begin (ScalarNode (lit "a")))
  /\ Iterator_deref (Node_Begin (ScalarNode (lit "a"))) = Some (Dangling, NoneNode)
  /\ iterate_loop 1000 (Node_Begin (ScalarNode (lit "a"))) (Node_End (ScalarNode (lit "a")))
     = OutOfFuel.
Proof.
  apply iterate_other_kind_runs_on; reflexivity.
Defined.

(** ** What the emitter skips *)

Lemma without_None_kind (n : Node) : Node_Type (without_None n) = Node_Type n.
Proof. destruct n; reflexivity. Qed.

Lemma serialize_sequence_without_None (config : SerializeConfig)
    (m : list (N * Node)) (level : nat) :
  Forall (fun e => forall useLevel level,
            SerializeLoop config (without_None (snd e)) useLevel level
            = SerializeLoop config (snd e) useLevel level) m ->
  serialize_sequence (SerializeLoop config) config level
    (without_None_children without_None m)
  = serialize_sequence (SerializeLoop config) config level m.
Proof.
  induction 1 as [|[k c] m Hc _ IH]; [reflexivity|]. simpl in Hc.
  cbn [without_None_children serialize_sequence].
  destruct (IsNone c) eqn:E; [exact IH|].
  cbn [serialize_sequence]. unfold IsNone in *.
  rewrite without_None_kind, E, IH. unfold serialize_item, IsSequence, IsMap.
  now rewrite without_None_kind, Hc.
Qed.

Lemma serialize_map_without_None (config : SerializeConfig)
    (m : list (str * Node)) (level : nat) :
  Forall (fun e => forall useLevel level,
            SerializeLoop config (without_None (snd e)) useLevel level
            = SerializeLoop config (snd e) useLevel level) m ->
  forall useLevel count,
    serialize_map (SerializeLoop config) config level
      (without_None_children without_None m) useLevel count
    = serialize_map (SerializeLoop config) config level m useLevel count.
Proof.
  induction 1 as [|[k c] m Hc _ IH]; intros useLevel count; [reflexivity|].
  simpl in Hc. cbn [without_None_children serialize_map].
  destruct (IsNone c) eqn:E; [apply IH|].
  cbn [serialize_map]. unfold IsNone in *.
  rewrite without_None_kind, E, IH. unfold serialize_entry, IsScalar.
  now rewrite without_None_kind, Hc.
Qed.

(** X10: the emitter writes nothing for a child that is None, at any
    depth: a tree and the tree without its None children are written as
    the same text. *)
Theorem Serialize_skips_None_children (n : Node) (config : SerializeConfig) :
  Serialize (without_None n) config = Serialize n config.
Proof.
  unfold Serialize. destruct (Nat.ltb (SpaceIndentation config) 2); [reflexivity|].
  f_equal. generalize 0. generalize false.
  induction n as [|v|m IH|m IH] using Node_ind; intros useLevel level;
    try reflexivity.
  - now apply serialize_sequence_without_None.
  - now apply serialize_map_without_None.
Qed.

(** ** The reader ends *)

(** X11: on every input the loops of the reader end: [Parse] returns or
    throws (or reaches the dereference of an end iterator); it is never
    still running when the fuel of the model, one round for every line, is
    used up. *)
Theorem Parse_ends (root0 : Node) (stream : str) :
  snd (Parse root0 stream) <> OutOfFuel.
Proof.
  unfold Parse, ReaderImp_Parse.
  pose proof (Parse_try_fuel root0 stream) as H.
  destruct (Parse_try root0 stream) as [st [u|e| |]]; simpl in *;
    try discriminate. exact H.
Qed.

(** ** Line flags *)

Lemma land_pow2_testbit (x i : N) :
  negb (N.eqb (N.land x (2 ^ i)) 0) = N.testbit x i.
Proof.
  destruct (N.testbit x i) eqn:T.
  - destruct (N.eqb_spec (N.land x (2 ^ i)) 0) as [E|E]; [|reflexivity].
    assert (H : N.testbit (N.land x (2 ^ i)) i = true)
      by (rewrite N.land_spec, T, N.pow2_bits_true; reflexivity).
    rewrite E, N.bits_0 in H. discriminate.
  - assert (E : N.land x (2 ^ i) = 0%N).
    { apply N.bits_inj. intros j. rewrite N.land_spec, N.bits_0, N.pow2_bits_eqb.
      destruct (N.eqb_spec i j) as [->|_]; [now rewrite T|apply andb_false_r]. }
    now rewrite E.
Qed.

Lemma GetFlag_testbit (l : ReaderLine) (flag : eFlag) :
  GetFlag l flag = N.testbit (Flags l) (flag_bit flag).
Proof.
  unfold GetFlag. rewrite <- land_pow2_testbit. now destruct flag.
Qed.

(** X12: [SetFlag] sets the flag it is given and leaves the other flags
    as they are, and after [CopyScalarFlags] a line has a flag exactly when
    it had it before or the other line has it. *)
Theorem flags_set_and_copied (l from : ReaderLine) (flag g : eFlag) :
  GetFlag (SetFlag l flag) flag = true
  /\ (g <> flag -> GetFlag (SetFlag l flag) g = GetFlag l g)
  /\ GetFlag (CopyScalarFlags l from) g = GetFlag l g || GetFlag from g.
Proof.
  rewrite !GetFlag_testbit. unfold SetFlag, CopyScalarFlags. cbn [Flags].
  repeat split.
  - rewrite N.lor_spec. replace (m_FlagMask flag) with (2 ^ flag_bit flag)%N
      by now destruct flag.
    rewrite N.pow2_bits_true. apply orb_true_r.
  - intros Hg. rewrite N.lor_spec.
    replace (m_FlagMask flag) with (2 ^ flag_bit flag)%N by now destruct flag.
    rewrite N.pow2_bits_eqb.
    destruct (N.eqb_spec (flag_bit flag) (flag_bit g)) as [E|_];
      [|apply orb_false_r].
    elim Hg. destruct flag, g; try reflexivity; discriminate.
  - rewrite N.lor_spec, N.land_spec. f_equal.
    destruct g; simpl; apply andb_true_r.
Qed.

(** ** Line folding keeps the text *)

Lemma firstn_snoc_nth (s : str) (a b : nat) :
  a <= b -> b < length s ->
  firstn (b + 1) s = firstn a s ++ firstn (b - a) (skipn a s) ++ [char_at s b].
Proof.
  intros Hab Hb. unfold char_at.
  rewrite <- (firstn_skipn a s) at 1.
  rewrite firstn_app, firstn_firstn, length_firstn.
  replace (Nat.min (b + 1) a) with a by lia.
  replace (b + 1 - Nat.min a (length s)) with (b - a + 1) by lia.
  f_equal.
  assert (Hl : b - a < length (skipn a s)) by (rewrite length_skipn; lia).
  replace (nth b s zero) with (nth (b - a) (skipn a s) zero)
    by (rewrite nth_skipn; f_equal; lia).
  generalize dependent (skipn a s). generalize (b - a). clear.
  intros n l. revert n. induction l as [|x l IH]; intros n Hn; simpl in Hn; [lia|].
  destruct n as [|n]; [reflexivity|]. simpl. f_equal. apply IH. lia.
Qed.

Lemma Forall_removelast {A : Type} (P : A -> Prop) (l : list A) :
  Forall P l -> Forall P (removelast l).
Proof.
  induction 1 as [|x l Hx Hl IH]; [constructor|].
  destruct l; [constructor|]. simpl. constructor; assumption.
Qed.

Lemma LineFolding_loop_join (input : str) (maxLength : nat) (fuel : nat) :
  forall currentPos lastPos spacePos folded,
    currentPos < length input -> lastPos <= length input ->
    length input - lastPos < fuel ->
    concat (map (fun p => p ++ [space]) folded) = firstn lastPos input ->
    Forall (fun p => maxLength <= length p) folded ->
    exists res,
      LineFolding_loop fuel input maxLength currentPos lastPos spacePos folded
      = Some res
      /\ (concat (map (fun p => p ++ [space]) res) = input ++ [space]
          \/ concat (map (fun p => p ++ [space]) res) = input)
      /\ Forall (fun p => maxLength <= length p) (removelast res).
Proof.
  induction fuel as [|fuel IH];
    intros currentPos lastPos spacePos folded Hcur Hlast Hfuel HJ HF; [lia|].
  cbn [LineFolding_loop].
  destruct (Nat.ltb_spec currentPos (length input)) as [_|?]; [|lia].
  set (finish := if Nat.eqb (length (substr_from input lastPos)) 0
                 then folded else folded ++ [substr_from input lastPos]).
  assert (Hfin : (concat (map (fun p => p ++ [space]) finish) = input ++ [space]
                  \/ concat (map (fun p => p ++ [space]) finish) = input)
                 /\ Forall (fun p => maxLength <= length p) (removelast finish)).
  { unfold finish, substr_from.
    destruct (Nat.eqb_spec (length (skipn lastPos input)) 0) as [E|E].
    - rewrite length_skipn in E. split; [|now apply Forall_removelast].
      right. rewrite HJ. apply firstn_all2. lia.
    - split.
      + left. rewrite map_app, concat_app, HJ. simpl.
        rewrite app_nil_r, app_assoc. now rewrite firstn_skipn.
      + now rewrite removelast_last. }
  destruct (Nat.ltb_spec (lastPos + maxLength) (length input)) as [Hc|Hc].
  - destruct (find_char space input (lastPos + maxLength)) as [sp|] eqn:Esp;
      [|now exists finish].
    destruct (Nat.leb_spec (length input) (lastPos + maxLength)) as [?|_]; [lia|].
    apply find_char_Some in Esp. destruct Esp as [Hsp Hch].
    apply IH; try lia.
    + rewrite map_app, concat_app, (firstn_snoc_nth input lastPos sp) by lia.
      f_equal; [exact HJ|]. simpl. rewrite app_nil_r.
      unfold substr. now rewrite Hch.
    + apply Forall_app. split; [assumption|]. constructor; [|constructor].
      unfold substr. rewrite length_firstn, length_skipn. lia.
  - destruct spacePos as [sp|]; [|now exists finish].
    destruct (Nat.leb_spec (length input) (lastPos + maxLength)) as [_|?]; [|lia].
    now exists finish.
Qed.

Lemma concat_spaces_join (pieces : list str) :
  pieces <> [] ->
  concat (map (fun p => p ++ [space]) pieces) = join_spaces pieces ++ [space].
Proof.
  induction pieces as [|p ps IH]; intros Hne; [now elim Hne|].
  destruct ps as [|q ps]; [simpl; now rewrite app_nil_r|].
  specialize (IH ltac:(discriminate)).
  change (join_spaces (p :: q :: ps)) with (p ++ [space] ++ join_spaces (q :: ps)).
  rewrite <- !app_assoc, <- IH. cbn [map concat]. now rewrite <- !app_assoc.
Qed.

(** X13: on every input and for every maximum length, [LineFolding]
    returns, and it loses nothing but the spaces at which it breaks: the
    pieces with one space between them are the input, or the input without
    its last character when the input was broken at a space that ends it.
    Every piece but the last is at least as long as the maximum length. *)
Theorem LineFolding_pieces_join (input : str) (maxLength : nat) :
  exists pieces,
    LineFolding input maxLength = Some pieces
    /\ (join_spaces pieces = input \/ join_spaces pieces ++ [space] = input)
    /\ Forall (fun p => maxLength <= length p) (removelast pieces).
Proof.
  unfold LineFolding. destruct (Nat.eqb_spec (length input) 0) as [E|E].
  - exists []. destruct input; [|discriminate]. repeat split; auto.
  - destruct (LineFolding_loop_join input maxLength (S (length input))
                0 0 None []) as [res [Hr [HJ HF]]]; try lia; try reflexivity.
    { constructor. }
    exists res. split; [assumption|]. split; [|assumption].
    destruct res as [|p ps].
    + simpl in HJ. destruct HJ as [HJ|HJ].
      * destruct input; discriminate.
      * now left.
    + rewrite concat_spaces_join in HJ by discriminate.
      destruct HJ as [HJ|HJ]; [left|now right].
      now apply app_inv_tail in HJ.
Qed.

(** ** Escapes: what the emitter adds, the reader removes *)

Lemma find_from_split (p : ascii -> bool) (s : str) :
  forall i f, find_from p s i = Some f ->
    exists a c b, s = a ++ c :: b /\ Forall (fun x => p x = false) a
                  /\ p c = true /\ f = i + length a.
Proof.
  induction s as [|x s IH]; simpl; intros i f H; [discriminate|].
  destruct (p x) eqn:E.
  - inversion H; subst. exists [], x, s. repeat split; auto; simpl; lia.
  - destruct (IH _ _ H) as [a [c [b [-> [Ha [Hc Hf]]]]]].
    exists (x :: a), c, b. repeat split; auto; simpl; lia.
Qed.

Lemma find_char_from (c : ascii) (pre s : str) :
  find_char c (pre ++ s) (length pre) = find_from (char_eqb c) s (length pre).
Proof.
  unfold find_char. rewrite skipn_app, skipn_all, Nat.sub_diag. reflexivity.
Qed.

Lemma replace_at (pre mid post by_ : str) (n : nat) :
  n = length mid ->
  replace (pre ++ mid ++ post) (length pre) n by_ = pre ++ by_ ++ post.
Proof.
  intros ->. unfold replace.
  rewrite firstn_app, firstn_all, Nat.sub_diag, firstn_O, app_nil_r.
  rewrite skipn_app, skipn_all2 by lia.
  replace (length pre + length mid - length pre) with (length mid) by lia.
  rewrite skipn_app, skipn_all, Nat.sub_diag. reflexivity.
Qed.

Lemma escape_token_plain (token : ascii) (s : str) :
  Forall (fun x => char_eqb token x = false) s -> escape_token token s = s.
Proof.
  induction 1 as [|x s Hx _ IH]; [reflexivity|].
  unfold escape_token in *. simpl. now rewrite Hx, IH.
Qed.

Lemma escape_token_app (token : ascii) (a b : str) :
  escape_token token (a ++ b) = escape_token token a ++ escape_token token b.
Proof. unfold escape_token. apply flat_map_app. Qed.

Lemma AddEscapeTokens_loop_escapes (token : ascii) (fuel : nat) :
  forall pre s,
    length s <= fuel ->
    AddEscapeTokens_loop fuel (pre ++ s) token
      (find_from (char_eqb token) s (length pre))
    = pre ++ escape_token token s.
Proof.
  induction fuel as [|fuel IH]; intros pre s Hf.
  - destruct s; [|simpl in Hf; lia]. reflexivity.
  - destruct (find_from (char_eqb token) s (length pre)) as [f|] eqn:F.
    + apply find_from_split in F.
      destruct F as [a [c [b [-> [Ha [Hc ->]]]]]].
      cbn [AddEscapeTokens_loop].
      unfold char_eqb in Hc. apply Ascii.eqb_eq in Hc. subst c.
      rewrite <- length_app.
      replace (pre ++ a ++ token :: b) with ((pre ++ a) ++ [token] ++ b)
        by now rewrite <- app_assoc.
      rewrite (replace_at (pre ++ a) [token] b [backslash; token] 1 eq_refl).
      replace ((pre ++ a) ++ [backslash; token] ++ b)
        with ((pre ++ a ++ [backslash; token]) ++ b)
        by now rewrite <- !app_assoc.
      replace (length (pre ++ a) + 2) with (length (pre ++ a ++ [backslash; token]))
        by (rewrite !length_app; simpl; lia).
      rewrite find_char_from, IH.
      * rewrite escape_token_app, (escape_token_plain token a Ha).
        unfold escape_token at 2. simpl. unfold char_eqb.
        rewrite Ascii.eqb_refl. now rewrite <- !app_assoc.
      * rewrite length_app in Hf. simpl in Hf. lia.
    + apply find_from_None in F. rewrite (escape_token_plain token s F).
      reflexivity.
Qed.

Lemma AddEscapeTokens_escapes (s : str) :
  AddEscapeTokens s [backslash; dquote]
  = escape_token dquote (escape_token backslash s).
Proof.
  cbn [AddEscapeTokens]. unfold find_char. cbn [skipn].
  pose proof (AddEscapeTokens_loop_escapes backslash (length s) [] s (le_n _))
    as H1.
  cbn [app length] in H1. rewrite H1.
  exact (AddEscapeTokens_loop_escapes dquote _ [] _ (le_n _)).
Qed.

(** One character as [AddEscapeTokens] leaves it. *)
Lemma escape_both_cons (c : ascii) (s : str) :
  escape_token dquote (escape_token backslash (c :: s))
  = (if char_eqb backslash c || char_eqb dquote c then [backslash; c] else [c])
      ++ escape_token dquote (escape_token backslash s).
Proof.
  change (c :: s) with ([c] ++ s). rewrite !escape_token_app. f_equal.
  unfold escape_token. cbn [flat_map].
  destruct (char_eqb backslash c) eqn:E1.
  - unfold char_eqb in E1. apply Ascii.eqb_eq in E1. subst c. reflexivity.
  - cbn [app flat_map orb]. apply app_nil_r.
Qed.

Lemma RemoveAllEscapeTokens_loop_unescapes (s : str) :
  forall pre fuel,
    length s <= fuel ->
    RemoveAllEscapeTokens_loop fuel
      (pre ++ escape_token dquote (escape_token backslash s))
      (find_from (char_eqb backslash)
         (escape_token dquote (escape_token backslash s)) (length pre))
    = pre ++ s.
Proof.
  induction s as [|c s IH]; intros pre fuel Hf.
  - destruct fuel; reflexivity.
  - rewrite escape_both_cons.
    destruct (char_eqb backslash c || char_eqb dquote c) eqn:E.
    + destruct fuel as [|fuel]; [simpl in Hf; lia|].
      cbn [app find_from]. unfold char_eqb at 1. rewrite Ascii.eqb_refl.
      cbn [RemoveAllEscapeTokens_loop].
      destruct (Nat.eqb_spec (length pre + 1)
                  (length (pre ++ backslash :: c
                             :: escape_token dquote (escape_token backslash s))))
        as [El|_]; [rewrite length_app in El; simpl in El; lia|].
      replace (char_at (pre ++ backslash :: c
                          :: escape_token dquote (escape_token backslash s))
                 (length pre + 1)) with c.
      2:{ unfold char_at. rewrite app_nth2 by lia.
          replace (length pre + 1 - length pre) with 1 by lia. reflexivity. }
      change (pre ++ backslash :: c :: escape_token dquote (escape_token backslash s))
        with (pre ++ [backslash; c] ++ escape_token dquote (escape_token backslash s)).
      rewrite (replace_at pre [backslash; c] _ [c] 2 eq_refl).
      replace (pre ++ [c] ++ escape_token dquote (escape_token backslash s))
        with ((pre ++ [c]) ++ escape_token dquote (escape_token backslash s))
        by now rewrite <- app_assoc.
      replace (length pre + 1) with (length (pre ++ [c]))
        by (rewrite length_app; reflexivity).
      rewrite find_char_from, IH by (simpl in Hf; lia).
      now rewrite <- app_assoc.
    + apply orb_false_iff in E. destruct E as [E1 E2].
      cbn [app find_from]. rewrite E1.
      replace (pre ++ c :: escape_token dquote (escape_token backslash s))
        with ((pre ++ [c]) ++ escape_token dquote (escape_token backslash s))
        by now rewrite <- app_assoc.
      replace (S (length pre)) with (length (pre ++ [c]))
        by (rewrite length_app; simpl; lia).
      rewrite IH by (simpl in Hf; lia).
      now rewrite <- app_assoc.
Qed.

Lemma escape_length (token : ascii) (s : str) :
  length s <= length (escape_token token s).
Proof.
  induction s as [|c s IH]; [reflexivity|].
  change (c :: s) with ([c] ++ s). rewrite escape_token_app, length_app.
  unfold escape_token at 1. simpl. destruct (char_eqb token c); simpl; lia.
Qed.

(** X14: [RemoveAllEscapeTokens] undoes [AddEscapeTokens]: a key in which
    the emitter has put a backslash in front of every backslash and every
    double quote is read back by the reader as the key it was. *)
Theorem RemoveAllEscapeTokens_AddEscapeTokens (s : str) :
  RemoveAllEscapeTokens (AddEscapeTokens s [backslash; dquote]) = s.
Proof.
  rewrite AddEscapeTokens_escapes. unfold RemoveAllEscapeTokens, find_char.
  cbn [skipn].
  apply (RemoveAllEscapeTokens_loop_unescapes s []).
  etransitivity; [apply (escape_length backslash)|apply escape_length].
Qed.

(** ** The lines the reader keeps *)

Lemma find_from_min (p : ascii -> bool) (s : str) :
  forall i j, find_from p s i = Some j ->
    forall k, k < j - i -> p (nth k s zero) = false.
Proof.
  induction s as [|c s IH]; simpl; intros i j H k Hk; [discriminate|].
  destruct (p c) eqn:E.
  - inversion H; subst. lia.
  - destruct k as [|k]; [assumption|].
    apply (IH (S i) j H). apply find_from_Some in H. lia.
Qed.

Lemma find_last_from_Some (p : ascii -> bool) (s : str) :
  forall i j, find_last_from p s i = Some j ->
    i <= j < i + length s /\ p (nth (j - i) s zero) = true.
Proof.
  induction s as [|c s IH]; simpl; intros i j H; [discriminate|].
  destruct (find_last_from p s (S i)) as [j'|] eqn:F.
  - inversion H; subst. apply IH in F. destruct F as [Hr Hp].
    split; [lia|]. replace (j - i) with (S (j - S i)) by lia. exact Hp.
  - destruct (p c) eqn:E; [|discriminate]. inversion H; subst.
    rewrite Nat.sub_diag. split; [lia|assumption].
Qed.

Lemma nth_firstn_skipn (s : str) (a n k : nat) :
  k < n -> nth k (firstn n (skipn a s)) zero = nth (a + k) s zero.
Proof.
  intros Hk. rewrite nth_firstn.
  destruct (Nat.ltb_spec k n) as [_|?]; [|lia]. apply nth_skipn.
Qed.

Lemma Forall_firstn {A : Type} (P : A -> Prop) (n : nat) (l : list A) :
  Forall P l -> Forall P (firstn n l).
Proof.
  intros H. revert n. induction H as [|x l Hx _ IH]; intros [|n]; simpl;
    constructor; auto.
Qed.

Lemma Forall_skipn {A : Type} (P : A -> Prop) (n : nat) (l : list A) :
  Forall P l -> Forall P (skipn n l).
Proof.
  intros H. revert n. induction H as [|x l Hx Hl IH]; intros [|n]; simpl;
    try constructor; auto.
Qed.

Lemma trim_ok (data : str) (so eo : nat) :
  find_first_not_of blanks data 0 = Some so ->
  find_last_not_of blanks data = Some eo ->
  Forall (fun c => invalid_char c = false) data ->
  let d := substr (substr_from data so) 0 (eo - so + 1) in
  d <> [] /\ char_in (char_at d 0) blanks = false
  /\ char_in (char_at d (length d - 1)) blanks = false
  /\ Forall (fun c => invalid_char c = false) d.
Proof.
  unfold find_first_not_of, find_last_not_of. cbn [skipn].
  intros Hs He Hv.
  pose proof (find_from_min _ _ _ _ Hs) as Hmin.
  apply find_from_Some in Hs. destruct Hs as [Hso Hpso].
  apply find_last_from_Some in He. destruct He as [Heo Hpeo].
  rewrite Nat.sub_0_r in *. cbn [Nat.add] in *.
  assert (Hle : so <= eo).
  { destruct (Nat.le_gt_cases so eo) as [?|Hlt]; [assumption|].
    rewrite (Hmin eo Hlt) in Hpeo. discriminate. }
  unfold substr, substr_from. cbn [skipn].
  assert (Hlen : length (firstn (eo - so + 1) (skipn so data)) = eo - so + 1)
    by (rewrite length_firstn, length_skipn; lia).
  split; [|split; [|split]].
  - intros E. rewrite E in Hlen. simpl in Hlen. lia.
  - unfold char_at. rewrite nth_firstn_skipn by lia.
    rewrite Nat.add_0_r. now apply negb_true_iff.
  - unfold char_at. rewrite Hlen, nth_firstn_skipn by lia.
    replace (so + (eo - so + 1 - 1)) with eo by lia. now apply negb_true_iff.
  - now apply Forall_firstn, Forall_skipn.
Qed.

(** A line as the first loop of [ReadLines] keeps it. *)
Lemma ReadLines_read_lines (raw : list str) :
  forall lineNo documentStartFound acc lines,
    ReadLines_read raw lineNo documentStartFound acc = (lines, Ok tt) ->
    Forall (fun l => Forall (fun c => invalid_char c = false) (Data l)
                     /\ Type_ l = NoneType /\ Flags l = 0%N /\ 1 <= No l) acc ->
    Forall (fun l => Forall (fun c => invalid_char c = false) (Data l)
                     /\ Type_ l = NoneType /\ Flags l = 0%N /\ 1 <= No l) lines.
Proof.
  induction raw as [|line raw IH]; intros lineNo dsf acc lines H Hacc.
  - simpl in H. now inversion H; subst.
  - cbn [ReadLines_read] in H.
    destruct (negb dsf && str_eqb (remove_comment line) (lit "---")).
    { apply (IH _ _ _ _ H). constructor. }
    destruct (str_eqb (remove_comment line) (lit "...")).
    { now inversion H; subst. }
    set (line' := if negb (Nat.eqb (length (remove_comment line)) 0)
                     && char_eqb (char_at (remove_comment line)
                                    (length (remove_comment line) - 1)) cr
                  then resize (remove_comment line)
                         (length (remove_comment line) - 1)
                  else remove_comment line) in *.
    destruct (Nat.eqb (length line') 0); [now apply (IH _ _ _ _ H)|].
    destruct (find_from invalid_char line' 0) eqn:F; [discriminate|].
    apply (IH _ _ _ _ H). apply Forall_app. split; [assumption|].
    constructor; [|constructor]. simpl. apply find_from_None in F.
    repeat split; [assumption|lia].
Qed.

Lemma ReadLines_trim_lines (rest : list ReaderLine) :
  forall done lines,
    ReadLines_trim done rest = (lines, Ok tt) ->
    Forall read_line_ok done ->
    Forall (fun l => Forall (fun c => invalid_char c = false) (Data l)
                     /\ Type_ l = NoneType /\ Flags l = 0%N /\ 1 <= No l) rest ->
    Forall read_line_ok lines.
Proof.
  induction rest as [|pLine rest IH]; intros done lines H Hd Hr.
  - simpl in H. now inversion H; subst.
  - cbn [ReadLines_trim] in H. inversion Hr as [|? ? [Hv [Ht [Hf Hn]]] Hr']; subst.
    destruct (find_first_not_of blanks (Data pLine) 0) as [so|] eqn:Es;
      [|now apply (IH _ _ H)].
    destruct (find_last_not_of blanks (Data pLine)) as [eo|] eqn:Ee;
      [|now apply (IH _ _ H)].
    destruct (npos_ltb (find_first_of [tab] (Data pLine) 0) so); [discriminate|].
    apply (IH _ _ H); [|assumption].
    apply Forall_app. split; [assumption|]. constructor; [|constructor].
    destruct (trim_ok (Data pLine) so eo Es Ee Hv) as [H1 [H2 [H3 H4]]].
    unfold read_line_ok. cbn [set_Offset set_Data Data Type_ Flags No].
    repeat split; assumption.
Qed.

(** X15: every line that [ReadLines] keeps is not empty, has no blank at
    either end, and holds no character but tabs and the characters 32 to
    125; it has no type and no flag yet, and its number is at least 1. *)
Theorem ReadLines_keeps_trimmed_valid_lines (stream : str) (lines : list ReaderLine) :
  ReadLines stream = (lines, Ok tt) -> Forall read_line_ok lines.
Proof.
  unfold ReadLines. intros H.
  destruct (ReadLines_read (getlines stream) 0 false []) as [m [[]|e| |]] eqn:E;
    try (inversion H; fail).
  apply (ReadLines_trim_lines m [] lines H); [constructor|].
  apply (ReadLines_read_lines _ _ _ _ _ E). constructor.
Qed.

Lemma ReadLines_keeps_trimmed_valid_lines_witness :
  Forall read_line_ok
    [mkLine (lit "a: 1") 1 0 NoneType 0; mkLine (lit "- b") 3 2 NoneType 0].
Proof.
  apply (ReadLines_keeps_trimmed_valid_lines
           (lit "a: 1  # one" ++ [newline] ++ [newline] ++ lit "  - b ")).
  reflexivity.
Defined.

(** ** Comments and blank lines *)

Lemma find_first_of_Some (set input : str) (q q' : nat) :
  find_first_of set input q = Some q' ->
  q <= q' < length input /\ char_in (char_at input q') set = true.
Proof.
  unfold find_first_of, char_at. intros H.
  apply find_from_Some in H. destruct H as [Hr Hp].
  rewrite length_skipn in Hr. rewrite nth_skipn in Hp.
  replace (q + (q' - q)) with q' in Hp by lia. split; [lia|assumption].
Qed.

(** The start that [FindQuote] reports is the one it was given or an
    unescaped double quote it found. *)
Lemma FindQuote_loop_start (input : str) (fuel : nat) :
  forall q start qs e,
    FindQuote_loop fuel input q start = (true, Some qs, e) ->
    start = Some qs
    \/ (q <= qs < length input /\ char_eqb (char_at input qs) dquote = true).
Proof.
  induction fuel as [|fuel IH]; intros q start qs e H; [discriminate|].
  cbn [FindQuote_loop] in H.
  destruct (find_first_of [dquote; squote] input q) as [q'|] eqn:F;
    [|discriminate].
  apply find_first_of_Some in F. destruct F as [Hq _].
  destruct (char_eqb (char_at input q') dquote) eqn:Ed; cbn [andb] in H.
  - destruct (Nat.eqb q' 0 || negb (char_eqb (char_at input (q' - 1)) backslash)).
    + destruct start as [s0|].
      * inversion H; subst. now left.
      * destruct (Nat.eqb (q' + 1) (length input)); [discriminate|].
        apply IH in H. destruct H as [H|[H1 H2]].
        -- inversion H; subst. right. split; [lia|assumption].
        -- right. split; [lia|assumption].
    + destruct (Nat.eqb (q' + 1) (length input)); [discriminate|].
      apply IH in H. destruct H as [H|[H1 H2]]; [now left|].
      right. split; [lia|assumption].
  - destruct (Nat.eqb (q' + 1) (length input)); [discriminate|].
    apply IH in H. destruct H as [H|[H1 H2]]; [now left|].
    right. split; [lia|assumption].
Qed.

(** A token in front of which there is no double quote is not cited. *)
Lemma FindNotCited_before_quotes (ws rest : str) (token : ascii) :
  Forall (fun x => char_eqb token x = false) ws ->
  no_dquote ws -> char_eqb token dquote = false ->
  FindNotCited_count (ws ++ token :: rest) token = (Some (length ws), 0).
Proof.
  intros Ht Hq Htq. unfold FindNotCited_count.
  rewrite (find_char_app token ws rest Ht).
  cbn [FindNotCited_quotes].
  destruct (FindQuote (ws ++ token :: rest) 0) as [[b st] en] eqn:EQ.
  destruct b; [|reflexivity]. destruct st as [qs|]; [|reflexivity].
  destruct en as [qe|]; [|reflexivity].
  unfold FindQuote in EQ. apply FindQuote_loop_start in EQ.
  destruct EQ as [EQ|[Hr Hd]]; [discriminate|].
  assert (Hlt : length ws < qs).
  { destruct (Nat.lt_trichotomy qs (length ws)) as [Hlt|[Heq|Hgt]];
      [| |assumption]; exfalso.
    - unfold char_at in Hd. rewrite app_nth1 in Hd by assumption.
      pose proof (no_dquote_char_at ws qs Hq) as Hn. unfold char_at in Hn.
      congruence.
    - subst qs. unfold char_at in Hd. rewrite nth_middle in Hd.
      congruence. }
  destruct (Nat.eqb (qe + 1) (length (ws ++ token :: rest)));
    cbn [FindNotCited_scan];
    destruct (Nat.ltb_spec (length ws) qs); try lia; reflexivity.
Qed.

Lemma all_blank_facts (c : ascii) :
  char_in c blanks = true ->
  char_eqb "#"%char c = false /\ char_eqb c dquote = false
  /\ char_eqb c cr = false /\ invalid_char c = false.
Proof. ascii_cases c. all: repeat split; reflexivity. Qed.

Lemma blank_or_comment_removed (line : str) :
  blank_or_comment line = true -> all_blank (remove_comment line).
Proof.
  unfold blank_or_comment, find_first_not_of. cbn [skipn]. intros H.
  destruct (find_from (fun c => negb (char_in c blanks)) line 0) as [i|] eqn:F.
  - pose proof F as F'. apply find_from_split in F'.
    destruct F' as [a [c [b [-> [Ha [Hc ->]]]]]].
    unfold char_at in H. cbn [Nat.add] in H. rewrite nth_middle in H.
    unfold char_eqb in H. apply Ascii.eqb_eq in H. subst c.
    assert (Hb : all_blank a).
    { eapply Forall_impl; [|exact Ha]. intros x Hx.
      now apply negb_false_iff in Hx. }
    unfold remove_comment, FindNotCited.
    rewrite FindNotCited_before_quotes.
    + cbn [fst]. unfold resize.
      rewrite firstn_app, firstn_all, Nat.sub_diag, firstn_O, app_nil_r.
      exact Hb.
    + eapply Forall_impl; [|exact Hb]. intros x Hx.
      now apply all_blank_facts in Hx.
    + eapply Forall_impl; [|exact Hb]. intros x Hx.
      now apply all_blank_facts in Hx.
    + reflexivity.
  - apply find_from_None in F.
    assert (Hb : all_blank line).
    { eapply Forall_impl; [|exact F]. intros x Hx.
      now apply negb_false_iff in Hx. }
    unfold remove_comment, FindNotCited.
    rewrite FindNotCited_count_no_token; [exact Hb|].
    apply find_char_None. eapply Forall_impl; [|exact Hb]. intros x Hx.
    now apply all_blank_facts in Hx.
Qed.

Lemma all_blank_no_marker (s : str) :
  all_blank s ->
  str_eqb s (lit "---") = false /\ str_eqb s (lit "...") = false.
Proof.
  intros H. split; apply str_eqb_neq; intros ->; inversion H; discriminate.
Qed.

Lemma ReadLines_read_blank (raw : list str) :
  Forall (fun l => blank_or_comment l = true) raw ->
  forall lineNo documentStartFound acc,
    Forall (fun l => all_blank (Data l)) acc ->
    exists lines,
      ReadLines_read raw lineNo documentStartFound acc = (lines, Ok tt)
      /\ Forall (fun l => all_blank (Data l)) lines.
Proof.
  induction 1 as [|line raw Hl _ IH]; intros lineNo dsf acc Hacc.
  - exists acc. split; [reflexivity|assumption].
  - cbn [ReadLines_read].
    pose proof (blank_or_comment_removed line Hl) as Hb.
    destruct (all_blank_no_marker _ Hb) as [E1 E2].
    rewrite E1, E2, andb_false_r.
    assert (Ecr : (negb (Nat.eqb (length (remove_comment line)) 0)
                   && char_eqb (char_at (remove_comment line)
                                  (length (remove_comment line) - 1)) cr)
                  = false).
    { destruct (remove_comment line) as [|c s] eqn:Er; [reflexivity|].
      cbn [length Nat.eqb negb andb].
      assert (Hc : char_in (char_at (c :: s) (length (c :: s) - 1)) blanks = true)
        by (apply (char_at_Forall _ _ _ Hb); simpl; lia).
      now apply all_blank_facts in Hc. }
    rewrite Ecr.
    destruct (Nat.eqb (length (remove_comment line)) 0); [now apply IH|].
    assert (Ev : find_from invalid_char (remove_comment line) 0 = None).
    { apply find_from_None. eapply Forall_impl; [|exact Hb]. intros x Hx.
      now apply all_blank_facts in Hx. }
    rewrite Ev. apply IH. apply Forall_app. split; [assumption|].
    constructor; [exact Hb|constructor].
Qed.

Lemma ReadLines_trim_blank (rest : list ReaderLine) (done : list ReaderLine) :
  Forall (fun l => all_blank (Data l)) rest ->
  ReadLines_trim done rest = (done, Ok tt).
Proof.
  induction 1 as [|l rest Hl _ IH]; [reflexivity|].
  cbn [ReadLines_trim].
  assert (E : find_first_not_of blanks (Data l) 0 = None).
  { unfold find_first_not_of. cbn [skipn]. apply find_from_None.
    eapply Forall_impl; [|exact Hl]. intros x Hx. cbn beta.
    now rewrite Hx. }
  now rewrite E.
Qed.

(** X16: a text in which every line holds nothing but blanks and a
    comment is parsed without an error and leaves the root None, whatever
    the root held before. *)
Theorem Parse_blank_and_comment_lines (root0 : Node) (stream : str) :
  forallb blank_or_comment (getlines stream) = true ->
  Parse root0 stream = (NoneNode, Ok tt).
Proof.
  intros H. apply forallb_Forall in H.
  destruct (ReadLines_read_blank _ H 0 false [] (Forall_nil _)) as [m [Hm Hb]].
  unfold Parse, ReaderImp_Parse, Parse_try, ReadLines.
  rewrite Hm, (ReadLines_trim_blank m [] Hb). reflexivity.
Qed.

Lemma Parse_blank_and_comment_lines_witness :
  Parse (ScalarNode (lit "old"))
    (lit "# a " ++ [dquote] ++ lit "quoted" ++ [dquote] ++ lit " comment"
       ++ [newline] ++ lit "   " ++ [newline]
       ++ [tab] ++ lit " # b: c" ++ [newline])
  = (NoneNode, Ok tt).
Proof.
  apply Parse_blank_and_comment_lines. reflexivity.
Defined.

(** ** The trees the reader builds *)

Section MapChildren.
Context {K : Type}.
Variable ltb : K -> K -> bool.
Hypothesis ltb_total : forall a b, ltb a b = false -> ltb b a = false -> a = b.
Variable P : Node -> Prop.

Lemma all_children_insert (m : list (K * Node)) k v :
  all_children P m -> P v -> all_children P (map_insert ltb m k v).
Proof.
  intros Hm Hv. induction m as [|[a w] m IH]; simpl; [auto|].
  destruct Hm as [Hw Hm].
  destruct (ltb k a); simpl; [auto|].
  destruct (ltb a k); simpl; auto.
Qed.

Lemma all_children_assign (m : list (K * Node)) k v :
  all_children P m -> P v -> all_children P (map_assign ltb m k v).
Proof.
  intros Hm Hv. induction m as [|[a w] m IH]; simpl; [auto|].
  destruct Hm as [Hw Hm].
  destruct (ltb k a); simpl; [auto|].
  destruct (ltb a k); simpl; auto.
Qed.

Lemma all_children_find (m : list (K * Node)) k c :
  all_children P m -> map_find ltb m k = Some c -> P c.
Proof.
  induction m as [|[a w] m IH]; simpl; intros Hm H; [discriminate|].
  destruct Hm as [Hw Hm].
  destruct (ltb k a); [discriminate|].
  destruct (ltb a k); [auto|]. now inversion H; subst.
Qed.

Lemma map_assign_fst (m : list (K * Node)) k v w :
  map_find ltb m k = Some w -> map fst (map_assign ltb m k v) = map fst m.
Proof.
  induction m as [|[a x] m IH]; simpl; intros H; [discriminate|].
  destruct (ltb k a) eqn:E1; [discriminate|].
  destruct (ltb a k) eqn:E2; simpl.
  - now rewrite IH.
  - f_equal. now apply ltb_total.
Qed.

Lemma map_assign_not_nil (m : list (K * Node)) k v : map_assign ltb m k v <> [].
Proof.
  destruct m as [|[a x] m]; simpl; [discriminate|].
  destruct (ltb k a); [discriminate|]. destruct (ltb a k); discriminate.
Qed.

Lemma map_insert_not_nil (m : list (K * Node)) k v : map_insert ltb m k v <> [].
Proof.
  destruct m as [|[a x] m]; simpl; [discriminate|].
  destruct (ltb k a); [discriminate|]. destruct (ltb a k); discriminate.
Qed.
End MapChildren.

Lemma PushBack_full (node node1 : Node) (r : option N) :
  full node -> Node_PushBack node = (node1, r) ->
  full node1 /\ forall c, full c -> full (set_child node1 r c).
Proof.
  intros Hn H. unfold Node_PushBack in H.
  assert (Hseq : exists m, InitSequence node = SequenceNode m
                           /\ dense_keys m /\ all_children full m
                           /\ (m = [] \/ node = SequenceNode m)).
  { destruct node as [|v|m|m]; simpl;
      try (exists []; repeat split; auto; fail).
    destruct Hn as [Hne [Hd Hch]]. exists m. repeat split; auto. }
  destruct Hseq as [m [Ei [Hd [Hch Hm]]]]. rewrite Ei in H.
  pose proof (dense_keys_PushBack m Hd) as Hd1.
  unfold SequenceImp_PushBack in *.
  set (index := match map_last_key m with
                | Some k => size_t_succ k
                | None => 0%N
                end) in *.
  unfold seq_insert_new in *.
  destruct (map_find N.ltb m index) eqn:F; inversion H; subst; simpl.
  - destruct Hm as [E|E]; [subst m; discriminate|]. subst node. auto.
  - simpl in Hd1.
    assert (Hi : all_children full (map_insert N.ltb m index NoneNode))
      by (apply all_children_insert; [assumption|exact I]).
    split.
    + split; [apply map_insert_not_nil|]. split; assumption.
    + intros c Hc. split; [apply map_assign_not_nil|]. split.
      * assert (Ef : map_find N.ltb (map_insert N.ltb m index NoneNode) index
                     = Some NoneNode)
          by (rewrite (map_find_insert_same N.ltb N_ltb_irrefl); now rewrite F).
        pose proof (map_assign_fst N.ltb N_ltb_total _ _ c _ Ef) as Ek.
        assert (El : length (map_assign N.ltb (map_insert N.ltb m index NoneNode) index c)
                     = length (map_insert N.ltb m index NoneNode)).
        { rewrite <- (length_map fst), Ek. apply length_map. }
        rewrite Ek, El. exact Hd1.
      * now apply all_children_assign.
Qed.

Lemma at_key_full (node : Node) (key : str) :
  full node ->
  full (Node_at_key node key)
  /\ full (get_child_key (Node_at_key node key) key)
  /\ forall c, full c -> full (set_child_key (Node_at_key node key) key c).
Proof.
  intros Hn.
  assert (Hmap : exists m, InitMap node = MapNode m /\ all_children full m).
  { destruct node as [|v|m|m]; simpl;
      try (exists []; split; [reflexivity|exact I]).
    destruct Hn as [_ Hch]. now exists m. }
  destruct Hmap as [m [Ei Hch]]. unfold Node_at_key. rewrite Ei.
  assert (Hg : all_children full (MapImp_GetNode m key)).
  { unfold MapImp_GetNode. destruct (map_find str_ltb m key); [assumption|].
    apply all_children_insert; [assumption|exact I]. }
  split; [|split].
  - split; [|assumption]. unfold MapImp_GetNode.
    destruct (map_find str_ltb m key) eqn:F; [|apply map_insert_not_nil].
    intros ->. discriminate.
  - unfold get_child_key.
    destruct (map_find str_ltb (MapImp_GetNode m key) key) eqn:F; [|exact I].
    now apply (all_children_find str_ltb full _ _ _ Hg F).
  - intros c Hc. simpl. split; [apply map_assign_not_nil|].
    now apply all_children_assign.
Qed.

Lemma process_value_full (seq_ map_ : builder) (vLine : ReaderLine) :
  builder_full seq_ -> builder_full map_ ->
  builder_full (process_value seq_ map_ vLine).
Proof.
  intros Hs Hm node lines Hn. unfold process_value.
  destruct (Type_ vLine); auto.
  unfold ProcessScalar. destruct lines; [assumption|].
  simpl. now destruct node.
Qed.

Lemma after_round_full (again : builder) (pLine : ReaderLine) (node2 : Node)
    (res : outcome (list ReaderLine)) :
  builder_full again -> full node2 ->
  full (fst (after_round again pLine node2 res)).
Proof.
  intros Ha Hn. unfold after_round. destruct res; try assumption.
  destruct (check_next pLine a); try assumption. now apply Ha.
Qed.

Lemma Process_full (fuel : nat) :
  builder_full (ProcessSequence fuel) /\ builder_full (ProcessMap fuel).
Proof.
  induction fuel as [|fuel [IHs IHm]]; [split; intros node lines Hn; exact Hn|].
  split; intros node lines Hn; cbn [ProcessSequence ProcessMap].
  - destruct lines as [|pLine rest]; [assumption|].
    destruct (Node_PushBack node) as [node1 r] eqn:Ep.
    destruct (PushBack_full node node1 r Hn Ep) as [H1 H2].
    destruct rest as [|vLine rest0]; [assumption|].
    pose proof (process_value_full (ProcessSequence fuel) (ProcessMap fuel)
                  vLine IHs IHm NoneNode (vLine :: rest0) I) as Hc.
    destruct (process_value (ProcessSequence fuel) (ProcessMap fuel) vLine
                NoneNode (vLine :: rest0)) as [childNode res].
    apply after_round_full; [assumption|]. now apply H2.
  - destruct lines as [|pLine rest]; [assumption|].
    destruct (at_key_full node (Data pLine) Hn) as [H0 [H1 H2]].
    destruct rest as [|vLine rest0]; [assumption|].
    pose proof (process_value_full (ProcessSequence fuel) (ProcessMap fuel)
                  vLine IHs IHm _ (vLine :: rest0) H1) as Hc.
    destruct (process_value (ProcessSequence fuel) (ProcessMap fuel) vLine
                (get_child_key (Node_at_key node (Data pLine)) (Data pLine))
                (vLine :: rest0)) as [childNode res].
    apply after_round_full; [assumption|]. now apply H2.
Qed.

(** X17: every tree that [Parse] returns is built of sequences that are
    indexed densely from 0 and of sequences and maps that hold at least
    one child. *)
Theorem Parse_builds_full_trees (root0 : Node) (stream : str) (n : Node) :
  Parse root0 stream = (n, Ok tt) -> full n.
Proof.
  unfold Parse, ReaderImp_Parse, Parse_try. intros H.
  destruct (ReadLines stream) as [lines [[]|e| |]]; try (inversion H; fail).
  destruct (PostProcessLines lines) as [lines' [[]|e| |]];
    try (inversion H; fail).
  destruct (ProcessRoot (Node_Clear root0) lines') as [root2 res] eqn:Er.
  assert (Hf : full root2).
  { unfold ProcessRoot in Er. destruct lines' as [|pLine rest].
    - inversion Er; subst. exact I.
    - destruct (Process_full (S (length (pLine :: rest)))) as [Hs Hm].
      pose proof (process_value_full _ _ pLine Hs Hm (Node_Clear root0)
                    (pLine :: rest) I) as Hp.
      destruct (process_value (ProcessSequence (S (length (pLine :: rest))))
                  (ProcessMap (S (length (pLine :: rest)))) pLine
                  (Node_Clear root0) (pLine :: rest)) as [root' res'].
      simpl in Hp. destruct res' as [[|? ?]|e| |]; inversion Er; subst; exact Hp. }
  destruct res as [[]|e| |]; inversion H; subst; exact Hf.
Qed.

Lemma Parse_builds_full_trees_witness :
  full (MapNode
          [(lit "a", SequenceNode [(0%N, ScalarNode (lit "1"));
                                   (1%N, ScalarNode (lit "2"))]);
           (lit "b", ScalarNode []); (lit "c", ScalarNode (lit "3"))]).
Proof.
  apply (Parse_builds_full_trees NoneNode
           (lit "a:" ++ [newline] ++ lit " - 1" ++ [newline]
              ++ lit "a:" ++ [newline] ++ lit " - 2" ++ [newline]
              ++ lit "b:" ++ [newline] ++ lit "c: 3" ++ [newline])).
  reflexivity.
Defined.

(** ** One double-quoted span *)

Lemma find_from_exists (p : ascii -> bool) (s : str) :
  forall i k, k < length s -> p (nth k s zero) = true ->
    exists j, find_from p s i = Some (i + j) /\ j <= k.
Proof.
  induction s as [|c s IH]; intros i k Hk Hp; simpl in Hk; [lia|].
  simpl. destruct (p c) eqn:E.
  - exists 0. split; [f_equal; lia|lia].
  - destruct k as [|k]; [simpl in Hp; congruence|].
    destruct (IH (S i) k) as [j [Hj Hle]]; [lia|assumption|].
    exists (S j). split; [rewrite Hj; f_equal; lia|lia].
Qed.

Lemma find_first_of_exists (set input : str) (q p : nat) :
  q <= p < length input -> char_in (char_at input p) set = true ->
  exists q', find_first_of set input q = Some q' /\ q <= q' <= p.
Proof.
  intros Hp Hc. unfold find_first_of.
  destruct (find_from_exists (fun c => char_in c set) (skipn q input) q (p - q))
    as [j [Hj Hle]].
  - rewrite length_skipn. lia.
  - rewrite nth_skipn. replace (q + (p - q)) with p by lia. exact Hc.
  - exists (q + j). split; [assumption|lia].
Qed.

Section OneSpan.
Variable input : str.
Variables p1 p2 : nat.
Hypothesis Hp : p1 < p2 < length input.
Hypothesis before : forall i, i < p1 -> quote_at input i = false.
Hypothesis inside : forall i, p1 < i < p2 -> quote_at input i = false.
Hypothesis after : forall i, p2 < i < length input -> quote_at input i = false.
Hypothesis open_ : quote_at input p1 = true.
Hypothesis close_ : quote_at input p2 = true.

Lemma quote_in_set (i : nat) :
  quote_at input i = true ->
  char_in (char_at input i) [dquote; squote] = true.
Proof.
  unfold quote_at. intros H. apply andb_true_iff in H. destruct H as [H _].
  simpl. now rewrite H.
Qed.

Lemma FindQuote_loop_close (fuel : nat) :
  forall q st,
    p1 < q <= p2 -> p2 - q < fuel ->
    FindQuote_loop fuel input q (Some st) = (true, Some st, Some p2).
Proof.
  induction fuel as [|fuel IH]; intros q st Hq Hf; [lia|].
  cbn [FindQuote_loop].
  destruct (find_first_of_exists [dquote; squote] input q p2)
    as [q' [E Hq']]; [lia|now apply quote_in_set|].
  rewrite E. destruct (Nat.eq_dec q' p2) as [->|Hne].
  - fold (quote_at input p2). now rewrite close_.
  - fold (quote_at input q'). rewrite (inside q') by lia.
    destruct (Nat.eqb_spec (q' + 1) (length input)) as [?|_]; [lia|].
    apply IH; lia.
Qed.

Lemma FindQuote_loop_open (fuel : nat) :
  forall q,
    q <= p1 -> p2 - q < fuel ->
    FindQuote_loop fuel input q None = (true, Some p1, Some p2).
Proof.
  induction fuel as [|fuel IH]; intros q Hq Hf; [lia|].
  cbn [FindQuote_loop].
  destruct (find_first_of_exists [dquote; squote] input q p1)
    as [q' [E Hq']]; [lia|now apply quote_in_set|].
  rewrite E. destruct (Nat.eq_dec q' p1) as [->|Hne].
  - fold (quote_at input p1). rewrite open_.
    destruct (Nat.eqb_spec (p1 + 1) (length input)) as [?|_]; [lia|].
    apply FindQuote_loop_close; lia.
  - fold (quote_at input q'). rewrite (before q') by lia.
    destruct (Nat.eqb_spec (q' + 1) (length input)) as [?|_]; [lia|].
    apply IH; lia.
Qed.

Lemma FindQuote_loop_after (fuel : nat) :
  forall q start,
    p2 < q -> FindQuote_loop fuel input q start = (false, start, None).
Proof.
  induction fuel as [|fuel IH]; intros q start Hq; [reflexivity|].
  cbn [FindQuote_loop].
  destruct (find_first_of [dquote; squote] input q) as [q'|] eqn:E;
    [|reflexivity].
  apply find_first_of_Some in E. destruct E as [Hq' _].
  fold (quote_at input q'). rewrite (after q') by lia.
  destruct (Nat.eqb (q' + 1) (length input)); [reflexivity|].
  apply IH. lia.
Qed.

Lemma FindNotCited_quotes_after (fuel q : nat) :
  p2 < q -> FindNotCited_quotes fuel input q = [].
Proof.
  intros Hq. destruct fuel as [|fuel]; [reflexivity|].
  cbn [FindNotCited_quotes]. unfold FindQuote.
  now rewrite FindQuote_loop_after by lia.
Qed.

Lemma FindNotCited_quotes_one_span :
  FindNotCited_quotes (S (length input)) input 0 = [(p1, p2)].
Proof.
  cbn [FindNotCited_quotes]. unfold FindQuote at 1.
  rewrite FindQuote_loop_open by lia.
  destruct (Nat.eqb (p2 + 1) (length input)); [reflexivity|].
  f_equal. apply FindNotCited_quotes_after. lia.
Qed.

Lemma find_char_end (token : ascii) (t : nat) :
  t + 1 = length input -> find_char token input (t + 1) = None.
Proof.
  intros E. unfold find_char. rewrite E, skipn_all. reflexivity.
Qed.

(** The token found and the number of spans counted before it. *)
Lemma FindNotCited_count_one_span (token : ascii) :
  FindNotCited_count input token
  = match find_char token input 0 with
    | None => (None, 0)
    | Some t =>
        if Nat.ltb t p1 then (Some t, 0)
        else if Nat.leb t p2 then (find_char token input (t + 1), 1)
        else (Some t, 1)
    end.
Proof.
  unfold FindNotCited_count.
  destruct (find_char token input 0) as [t|]; [|reflexivity].
  rewrite FindNotCited_quotes_one_span. cbn [FindNotCited_scan].
  destruct (Nat.ltb t p1); [reflexivity|].
  destruct (Nat.leb t p2); [|reflexivity].
  destruct (Nat.eqb_spec (t + 1) (length input)) as [E|_].
  - now rewrite find_char_end.
  - now destruct (find_char token input (t + 1)).
Qed.

Lemma FindNotCited_one_span (token : ascii) :
  FindNotCited input token
  = match find_char token input 0 with
    | None => None
    | Some t =>
        if Nat.leb p1 t && Nat.leb t p2 then find_char token input (t + 1)
        else Some t
    end.
Proof.
  unfold FindNotCited. rewrite FindNotCited_count_one_span.
  destruct (find_char token input 0) as [t|]; [|reflexivity].
  destruct (Nat.ltb_spec t p1) as [H1|H1].
  - destruct (Nat.leb_spec p1 t) as [?|_]; [lia|]. reflexivity.
  - destruct (Nat.leb_spec p1 t) as [_|?]; [|lia]. cbn [andb].
    now destruct (Nat.leb t p2).
Qed.
End OneSpan.

Lemma quote_at_not_dquote (input : str) (i : nat) :
  char_eqb (char_at input i) dquote = false -> quote_at input i = false.
Proof. unfold quote_at. now intros ->. Qed.

Lemma char_at_span (a b c : str) (x y : ascii) (i : nat) :
  (i < length a -> char_at (a ++ x :: b ++ y :: c) i = char_at a i)
  /\ (i = length a -> char_at (a ++ x :: b ++ y :: c) i = x)
  /\ (length a < i <= length a + length b ->
      char_at (a ++ x :: b ++ y :: c) i = char_at b (i - length a - 1))
  /\ (i = length a + length b + 1 -> char_at (a ++ x :: b ++ y :: c) i = y)
  /\ (length a + length b + 1 < i ->
      char_at (a ++ x :: b ++ y :: c) i
      = char_at c (i - (length a + length b + 1) - 1)).
Proof.
  unfold char_at. repeat split; intros H.
  - now apply app_nth1.
  - subst i. apply nth_middle.
  - rewrite app_nth2 by lia.
    destruct (i - length a) as [|k] eqn:Ek; [lia|].
    cbn [nth]. replace (S k - 1) with k by lia.
    apply app_nth1. lia.
  - rewrite app_nth2 by lia.
    replace (i - length a) with (S (length b)) by lia.
    cbn [nth]. apply nth_middle.
  - rewrite app_nth2 by lia.
    destruct (i - length a) as [|k] eqn:Ek; [lia|].
    cbn [nth]. rewrite app_nth2 by lia.
    destruct (k - length b) as [|j] eqn:Ej; [lia|].
    cbn [nth]. f_equal. lia.
Qed.

Lemma unquoted_char_facts (x : ascii) :
  unquoted_char x = true ->
  char_eqb x dquote = false /\ char_eqb x backslash = false.
Proof.
  unfold unquoted_char. intros H. apply andb_true_iff in H.
  destruct H as [H1 H2]. now rewrite negb_true_iff in H1, H2.
Qed.

Lemma unquoted_at (s : str) (i : nat) :
  Forall (fun x => unquoted_char x = true) s -> i < length s ->
  char_eqb (char_at s i) dquote = false
  /\ char_eqb (char_at s i) backslash = false.
Proof.
  intros H Hi. apply unquoted_char_facts.
  exact (char_at_Forall (fun x => unquoted_char x = true) s i H Hi).
Qed.

Lemma span_facts (a b c : str) :
  Forall (fun x => unquoted_char x = true) a ->
  Forall (fun x => unquoted_char x = true) b ->
  let input := a ++ dquote :: b ++ dquote :: c in
  let p1 := length a in
  let p2 := length a + length b + 1 in
  p1 < p2 < length input
  /\ (forall i, i < p1 -> char_eqb (char_at input i) dquote = false)
  /\ (forall i, p1 < i < p2 -> char_eqb (char_at input i) dquote = false)
  /\ char_eqb (char_at input p1) dquote = true
  /\ char_eqb (char_at input p2) dquote = true
  /\ Nat.eqb p1 0 || negb (char_eqb (char_at input (p1 - 1)) backslash) = true
  /\ Nat.eqb p2 0 || negb (char_eqb (char_at input (p2 - 1)) backslash) = true.
Proof.
  intros Ha Hb input p1 p2. unfold input, p1, p2.
  assert (Hlen : length (a ++ dquote :: b ++ dquote :: c)
                 = length a + length b + 1 + 1 + length c)
    by (rewrite length_app; simpl; rewrite length_app; simpl; lia).
  split; [lia|]. split; [|split; [|split; [|split; [|split]]]].
  - intros i Hi. destruct (char_at_span a b c dquote dquote i) as [E _].
    rewrite E by assumption. apply (unquoted_at a i Ha Hi).
  - intros i Hi. destruct (char_at_span a b c dquote dquote i) as [_ [_ [E _]]].
    rewrite E by lia.
    assert (Hi' : i - length a - 1 < length b) by lia.
    apply (unquoted_at b _ Hb Hi').
  - destruct (char_at_span a b c dquote dquote (length a)) as [_ [E _]].
    now rewrite E.
  - destruct (char_at_span a b c dquote dquote (length a + length b + 1))
      as [_ [_ [_ [E _]]]].
    now rewrite E.
  - destruct (Nat.eqb_spec (length a) 0) as [_|Hn]; [reflexivity|].
    destruct (char_at_span a b c dquote dquote (length a - 1)) as [E _].
    rewrite E by lia. cbn [orb]. apply negb_true_iff.
    assert (Hi : length a - 1 < length a) by lia.
    apply (unquoted_at a _ Ha Hi).
  - destruct (Nat.eqb_spec (length a + length b + 1) 0) as [?|_]; [lia|].
    cbn [orb]. apply negb_true_iff.
    destruct (Nat.eq_dec (length b) 0) as [Hz|Hn].
    + destruct (char_at_span a b c dquote dquote (length a + length b + 1 - 1))
        as [_ [E _]].
      rewrite E by lia. reflexivity.
    + destruct (char_at_span a b c dquote dquote (length a + length b + 1 - 1))
        as [_ [_ [E _]]].
      rewrite E by lia.
      assert (Hi : length a + length b + 1 - 1 - length a - 1 < length b) by lia.
      apply (unquoted_at b _ Hb Hi).
Qed.

(** The first quoted span that [FindQuote] finds. *)
Lemma FindQuote_one_quoted_span (a b c : str) :
  Forall (fun x => unquoted_char x = true) a ->
  Forall (fun x => unquoted_char x = true) b ->
  FindQuote (a ++ dquote :: b ++ dquote :: c) 0
  = (true, Some (length a), Some (length a + length b + 1)).
Proof.
  intros Ha Hb.
  destruct (span_facts a b c Ha Hb) as [H1 [H2 [H3 [H4 [H5 [H6 H7]]]]]].
  unfold FindQuote.
  apply (FindQuote_loop_open (a ++ dquote :: b ++ dquote :: c) (length a)
           (length a + length b + 1) H1).
  - intros i Hi. apply quote_at_not_dquote. now apply H2.
  - intros i Hi. apply quote_at_not_dquote. now apply H3.
  - unfold quote_at. now rewrite H4, H6.
  - unfold quote_at. now rewrite H5, H7.
  - lia.
  - lia.
Qed.

(** X18: in a line with one double-quoted span, [FindNotCited] reports the
    first token when it lies outside the span; when it lies inside, it
    reports the next token after it, also when that one lies inside the
    span too. *)
Theorem FindNotCited_one_quoted_span (a b c : str) (token : ascii) :
  Forall (fun x => unquoted_char x = true) a ->
  Forall (fun x => unquoted_char x = true) b ->
  no_dquote c ->
  FindNotCited (a ++ dquote :: b ++ dquote :: c) token
  = match find_char token (a ++ dquote :: b ++ dquote :: c) 0 with
    | None => None
    | Some t =>
        if Nat.leb (length a) t && Nat.leb t (length a + length b + 1)
        then find_char token (a ++ dquote :: b ++ dquote :: c) (t + 1)
        else Some t
    end.
Proof.
  intros Ha Hb Hc.
  destruct (span_facts a b c Ha Hb) as [H1 [H2 [H3 [H4 [H5 [H6 H7]]]]]].
  apply (FindNotCited_one_span (a ++ dquote :: b ++ dquote :: c) (length a)
           (length a + length b + 1) H1).
  - intros i Hi. apply quote_at_not_dquote. now apply H2.
  - intros i Hi. apply quote_at_not_dquote. now apply H3.
  - intros i Hi. apply quote_at_not_dquote.
    destruct (char_at_span a b c dquote dquote i) as [_ [_ [_ [_ E]]]].
    rewrite E by lia. now apply no_dquote_char_at.
  - unfold quote_at. now rewrite H4, H6.
  - unfold quote_at. now rewrite H5, H7.
Qed.

Lemma FindNotCited_one_quoted_span_witness :
  FindNotCited (lit "k: " ++ dquote :: lit "a # b # c" ++ dquote :: []) "#"%char
  = Some 10.
Proof.
  apply (FindNotCited_one_quoted_span (lit "k: ") (lit "a # b # c") []).
  - repeat constructor.
  - repeat constructor.
  - constructor.
Defined.

(** ** A block indicator at the end of the text *)

Lemma mapping_value_after_key (k s s' : str) (c : ascii) :
  s = c :: s' -> negb (char_in c blanks) = true ->
  mapping_value (k ++ ":"%char :: " "%char :: s) (length k)
  = Some (length k + 2, s).
Proof.
  intros Es Hcb. unfold mapping_value. rewrite length_app. cbn [length].
  destruct (Nat.eqb_spec (length k + 1) (length k + S (S (length s))));
    [lia|].
  unfold find_first_not_of, substr_from.
  replace (length k + 1) with (length (k ++ [":"%char]))
    by (rewrite length_app; simpl; lia).
  change (k ++ ":"%char :: " "%char :: s)
    with (k ++ [":"%char] ++ " "%char :: s).
  rewrite app_assoc, skipn_app, skipn_all, Nat.sub_diag. cbn [app skipn].
  rewrite Es. cbn [find_from].
  change (negb (char_in " "%char blanks)) with false. cbv iota.
  rewrite Hcb. rewrite length_app. cbn [length].
  replace (S (length k + 1)) with (length (k ++ [":"%char; " "%char]))
    by (rewrite length_app; simpl; lia).
  replace (length k + 2) with (length (k ++ [":"%char; " "%char]))
    by (rewrite length_app; simpl; lia).
  f_equal. f_equal.
  change ((k ++ [":"%char]) ++ " "%char :: c :: s')
    with ((k ++ [":"%char]) ++ [" "%char] ++ c :: s').
  rewrite app_assoc, <- (app_assoc k).
  rewrite skipn_app, skipn_all, Nat.sub_diag. reflexivity.
Qed.

Lemma block_indicator_facts (tok : str) :
  In tok [lit "|"; lit ">"; lit "|-"; lit ">-"] ->
  good_pline (mkP 0 tok false) /\ no_dquote tok
  /\ IsSequenceStart tok = false
  /\ exists c s', tok = c :: s' /\ negb (char_in c blanks) = true.
Proof.
  intros H. simpl in H.
  destruct H as [H|[H|[H|[H|[]]]]]; subst tok;
    (split; [|split; [|split]];
     [ unfold good_pline; simpl; repeat split;
       try (repeat constructor; fail); discriminate
     | repeat constructor
     | reflexivity
     | eexists; eexists; split; reflexivity ]).
Qed.

(** X19: on a text of one map entry whose value is one of the block
    indicators [|], [>], [|-], [>-], with no line after it,
    [PostProcessLines] dereferences the end iterator of the lines: the
    behaviour of [Parse] is undefined. *)
Theorem Parse_block_indicator_at_end (root0 : Node) (k tok : str) :
  plain_key k = true ->
  In tok [lit "|"; lit ">"; lit "|-"; lit ">-"] ->
  snd (Parse root0 (k ++ lit ": " ++ tok ++ [newline])) = Undefined.
Proof.
  intros Hk Htok.
  destruct (block_indicator_facts tok Htok) as [Hg [Hnq [Hseq [c [s' [Es Hcb]]]]]].
  pose proof (good_key_value 0 k (mkP 0 tok false) Hk Hg) as Hline.
  cbn [p_text p_trail] in Hline.
  assert (Et : k ++ lit ": " ++ tok ++ [newline]
               = render [mkP 0 ((k ++ lit ": ") ++ tok) false]).
  { unfold render, render_line, line_text. cbn [map concat p_offset p_text p_trail spaces repeat app].
    now rewrite !app_nil_r, <- !app_assoc. }
  rewrite Et. unfold Parse, ReaderImp_Parse, Parse_try.
  rewrite (ReadLines_emitted _ (Forall_cons _ Hline (Forall_nil _))).
  cbn [read_lines]. unfold read_line. cbn [p_text p_offset].
  assert (Hdata : (k ++ lit ": ") ++ tok = k ++ ":"%char :: " "%char :: tok)
    by (rewrite <- app_assoc; reflexivity).
  rewrite Hdata.
  destruct (mapping_key_part k (" "%char :: tok) Hk) as [E1 [E2 [E3 E4]]];
    [constructor; [reflexivity|assumption]|].
  pose proof (mapping_value_after_key k tok s' c Es Hcb) as Ev.
  assert (Hpp : snd (PostProcessLines
                       [mkLine (k ++ ":"%char :: " "%char :: tok) 1 0 NoneType 0])
                = Undefined).
  { unfold PostProcessLines. cbn [length PostProcessLines_loop].
    unfold PostProcess_round, PostProcessSequence. cbn [Data].
    rewrite E4. cbn [negb].
    unfold PostProcessMapping. cbn [Data]. rewrite E1.
    change (Nat.ltb 1 0) with false. cbv iota.
    rewrite E2. cbn [Nat.eqb andb]. rewrite E3, Ev, Hseq.
    simpl in Htok.
    destruct Htok as [H|[H|[H|[H|[]]]]]; subst tok; reflexivity. }
  destruct (PostProcessLines
              [mkLine (k ++ ":"%char :: " "%char :: tok) 1 0 NoneType 0])
    as [lines' res].
  simpl in Hpp. subst res. reflexivity.
Qed.

Lemma Parse_block_indicator_at_end_witness :
  snd (Parse NoneNode (lit "text: |" ++ [newline])) = Undefined.
Proof.
  apply (Parse_block_indicator_at_end NoneNode (lit "text") (lit "|")).
  - reflexivity.
  - simpl. auto.
Defined.

(** ** The emitter and the indices of a sequence *)

(** X20: the emitter does not look at the indices of a sequence: two
    sequences with the same children in the same order are written as the
    same text, so a sequence with a hole is written like a dense one. *)
Theorem Serialize_ignores_sequence_indices (m m' : SequenceImp)
    (config : SerializeConfig) :
  map snd m = map snd m' ->
  Serialize (SequenceNode m) config = Serialize (SequenceNode m') config.
Proof.
  intros H. unfold Serialize.
  destruct (Nat.ltb (SpaceIndentation config) 2); [reflexivity|].
  f_equal. cbn [SerializeLoop]. revert m' H.
  induction m as [|[k c] m IH]; intros [|[k' c'] m'] H; try discriminate;
    [reflexivity|].
  inversion H; subst. cbn [serialize_sequence].
  now rewrite (IH m').
Qed.

Lemma Serialize_ignores_sequence_indices_witness :
  Serialize (SequenceNode [(1%N, ScalarNode (lit "b")); (5%N, ScalarNode (lit "c"))])
    (mkConfig 2 64 false false)
  = Serialize (SequenceNode [(0%N, ScalarNode (lit "b")); (1%N, ScalarNode (lit "c"))])
      (mkConfig 2 64 false false).
Proof.
  apply Serialize_ignores_sequence_indices. reflexivity.
Defined.

(** ** A character the reader does not accept *)

Lemma getlines_aux_prefix (a s cur : str) :
  Forall (fun x => char_eqb x newline = false) a ->
  getlines_aux (a ++ s) cur = getlines_aux s (rev a ++ cur).
Proof.
  revert cur. induction a as [|x a IH]; intros cur H; [reflexivity|].
  inversion H; subst. cbn [app getlines_aux]. rewrite H2, IH by assumption.
  cbn [rev]. now rewrite <- app_assoc.
Qed.

Lemma getlines_aux_first (s cur : str) :
  exists b1 rest, getlines_aux s cur = (rev cur ++ b1) :: rest.
Proof.
  revert cur. induction s as [|x s IH]; intros cur.
  - exists [], []. simpl. now rewrite app_nil_r.
  - cbn [getlines_aux]. destruct (char_eqb x newline).
    + exists [], (getlines_aux s []). now rewrite app_nil_r.
    + destruct (IH (x :: cur)) as [b1 [rest E]]. exists (x :: b1), rest.
      rewrite E. cbn [rev]. now rewrite <- app_assoc.
Qed.

Lemma FindNotCited_scan_ge (input : str) (token : ascii)
    (quotes : list (nat * nat)) :
  forall t n p,
    fst (FindNotCited_scan input token quotes t n) = Some p -> t <= p.
Proof.
  induction quotes as [|[qs qe] quotes IH]; intros t n p H.
  - simpl in H. inversion H. lia.
  - cbn [FindNotCited_scan] in H.
    destruct (Nat.ltb t qs); [simpl in H; inversion H; lia|].
    destruct (Nat.leb t qe); [|now apply IH in H].
    destruct (Nat.eqb (t + 1) (length input)); [discriminate|].
    destruct (find_char token input (t + 1)) as [t'|] eqn:F; [|discriminate].
    apply IH in H. apply find_char_Some in F. lia.
Qed.

Lemma FindNotCited_ge (input : str) (token : ascii) (t p : nat) :
  find_char token input 0 = Some t -> FindNotCited input token = Some p ->
  t <= p.
Proof.
  unfold FindNotCited, FindNotCited_count. intros F H. rewrite F in H.
  destruct (FindNotCited_quotes (S (length input)) input 0) as [|q quotes].
  - simpl in H. inversion H. lia.
  - now apply FindNotCited_scan_ge in H.
Qed.

(** The comment is removed after the first [#]. *)
Lemma remove_comment_prefix (a line : str) (c : ascii) :
  Forall (fun x => char_eqb "#"%char x = false) a ->
  char_eqb "#"%char c = false ->
  exists x, remove_comment (a ++ c :: line) = a ++ c :: x.
Proof.
  intros Ha Hc. unfold remove_comment.
  destruct (FindNotCited (a ++ c :: line) "#"%char) as [p|] eqn:F;
    [|now exists line].
  assert (Ht : exists t, find_char "#"%char (a ++ c :: line) 0 = Some t).
  { unfold FindNotCited, FindNotCited_count in F.
    destruct (find_char "#"%char (a ++ c :: line) 0) as [t|];
      [now exists t|discriminate]. }
  destruct Ht as [t Ht]. pose proof (FindNotCited_ge _ _ _ _ Ht F) as Hle.
  assert (Hlt : length a < t).
  { unfold find_char in Ht. cbn [skipn] in Ht.
    rewrite find_from_skip in Ht by assumption. cbn [find_from] in Ht.
    rewrite Hc in Ht. apply find_from_Some in Ht. lia. }
  exists (firstn (p - length a - 1) line). unfold resize.
  rewrite firstn_app. rewrite firstn_all2 by lia.
  destruct (p - length a) as [|j] eqn:Ej; [lia|].
  cbn [firstn]. replace (S j - 1) with j by lia.
  replace (p - length a - 1) with j by lia. reflexivity.
Qed.

(** X21: a character that is neither a tab nor in the range 32 to 125
    (and neither a newline nor a carriage return) in the first line of the
    text, in front of any [#], makes [Parse] throw a parsing exception for
    line 1 and leaves the root None. *)
Theorem Parse_invalid_character (root0 : Node) (a b : str) (c : ascii) :
  Forall (fun x => char_eqb x newline = false
                   /\ char_eqb "#"%char x = false) a ->
  invalid_char c = true ->
  char_eqb c newline = false -> char_eqb c cr = false ->
  Parse root0 (a ++ c :: b)
  = (NoneNode, Throw (ParsingException g_ErrorInvalidCharacter 1)).
Proof.
  intros Ha Hc Hn Hr.
  assert (Ha1 : Forall (fun x => char_eqb x newline = false) a)
    by (eapply Forall_impl; [|exact Ha]; now intros x [H _]).
  assert (Ha2 : Forall (fun x => char_eqb "#"%char x = false) a)
    by (eapply Forall_impl; [|exact Ha]; now intros x [_ H]).
  assert (Hc2 : char_eqb "#"%char c = false)
    by (revert Hc; clear; ascii_cases c).
  assert (Hl : exists b1 rest, getlines (a ++ c :: b) = (a ++ c :: b1) :: rest).
  { unfold getlines. rewrite getlines_aux_prefix by assumption.
    cbn [getlines_aux]. rewrite Hn.
    destruct (getlines_aux_first b (c :: rev a ++ [])) as [b1 [rest E]].
    exists b1, rest. rewrite E. cbn [rev].
    rewrite app_nil_r, rev_involutive. now rewrite <- app_assoc. }
  destruct Hl as [b1 [rest El]].
  destruct (remove_comment_prefix a b1 c Ha2 Hc2) as [x Ex].
  assert (Hread : ReadLines_read (getlines (a ++ c :: b)) 0 false []
                  = ([], Throw (ParsingException g_ErrorInvalidCharacter 1))).
  { rewrite El. cbn [ReadLines_read]. rewrite Ex.
    assert (Hm1 : str_eqb (a ++ c :: x) (lit "---") = false).
    { apply str_eqb_neq. intros E.
      assert (Hi : In c (lit "---")) by (rewrite <- E; apply in_elt).
      revert Hi Hc. clear. simpl. intros [H|[H|[H|[]]]]; subst c; discriminate. }
    assert (Hm2 : str_eqb (a ++ c :: x) (lit "...") = false).
    { apply str_eqb_neq. intros E.
      assert (Hi : In c (lit "...")) by (rewrite <- E; apply in_elt).
      revert Hi Hc. clear. simpl. intros [H|[H|[H|[]]]]; subst c; discriminate. }
    rewrite Hm1, Hm2, andb_false_r.
    set (line' := if negb (Nat.eqb (length (a ++ c :: x)) 0)
                     && char_eqb (char_at (a ++ c :: x)
                                    (length (a ++ c :: x) - 1)) cr
                  then resize (a ++ c :: x) (length (a ++ c :: x) - 1)
                  else a ++ c :: x).
    assert (Hline : exists y, line' = a ++ c :: y).
    { unfold line'.
      destruct (negb (Nat.eqb (length (a ++ c :: x)) 0)
                && char_eqb (char_at (a ++ c :: x)
                               (length (a ++ c :: x) - 1)) cr) eqn:E;
        [|now exists x].
      apply andb_true_iff in E. destruct E as [_ E].
      destruct x as [|x0 x] using rev_ind.
      - exfalso. unfold char_at in E. rewrite length_app in E. simpl in E.
        replace (length a + 1 - 1) with (length a) in E by lia.
        rewrite nth_middle in E. congruence.
      - exists x. unfold resize.
        replace (a ++ c :: x ++ [x0]) with ((a ++ c :: x) ++ [x0])
          by (rewrite <- app_assoc; reflexivity).
        rewrite length_app. cbn [length].
        replace (length (a ++ c :: x) + 1 - 1) with (length (a ++ c :: x)) by lia.
        rewrite firstn_app, firstn_all, Nat.sub_diag. cbn [firstn].
        apply app_nil_r. }
    destruct Hline as [y Ey]. rewrite Ey.
    destruct (Nat.eqb_spec (length (a ++ c :: y)) 0) as [E0|_];
      [rewrite length_app in E0; simpl in E0; lia|].
    destruct (find_from_exists invalid_char (a ++ c :: y) 0 (length a))
      as [j [Ej _]].
    - rewrite length_app. simpl. lia.
    - now rewrite nth_middle.
    - now rewrite Ej. }
  unfold Parse, ReaderImp_Parse, Parse_try, ReadLines. rewrite Hread.
  reflexivity.
Qed.

Lemma Parse_invalid_character_witness :
  Parse (ScalarNode (lit "old")) (lit "key: a~b # c" ++ [newline] ++ lit "x: 1")
  = (NoneNode, Throw (ParsingException g_ErrorInvalidCharacter 1)).
Proof.
  apply (Parse_invalid_character (ScalarNode (lit "old")) (lit "key: a") 
           (lit "b # c" ++ [newline] ++ lit "x: 1") "~"%char).
  - repeat constructor.
  - reflexivity.
  - reflexivity.
  - reflexivity.
Defined.

(** ** A double-quoted value *)

Lemma quoted_char_facts (c : ascii) :
  quoted_char c = true ->
  text_char c = true /\ unquoted_char c = true.
Proof. ascii_cases c; split; reflexivity. Qed.

Lemma quoted_value_good (o : nat) (v : str) :
  Forall (fun c => quoted_char c = true) v ->
  good_pline (mkP o (dquote :: v ++ [dquote]) false).
Proof.
  intros Hv. unfold good_pline. cbn [p_text]. repeat split.
  - apply (trimmed_intro _ (v ++ [dquote]) (dquote :: v) dquote dquote);
      reflexivity.
  - constructor; [reflexivity|]. apply Forall_app. split.
    + eapply Forall_impl; [|exact Hv]. intros c Hc.
      now apply quoted_char_facts in Hc.
    + repeat constructor.
  - discriminate.
  - discriminate.
Qed.

Lemma quoted_value_not_block (v : str) (x : str) :
  In x [lit "|"; lit ">"; lit "|-"; lit ">-"] ->
  str_eqb (dquote :: v ++ [dquote]) x = false.
Proof.
  intros H. apply str_eqb_neq. intros E. simpl in H.
  destruct H as [H|[H|[H|[H|[]]]]]; subst x; discriminate.
Qed.

(** The map line [key: "value"] in the first loop of [PostProcessLines]. *)
Lemma round_key_quoted_value (l : ReaderLine) (k v : str) :
  plain_key k = true -> Forall (fun c => quoted_char c = true) v ->
  Data l = k ++ ":"%char :: " "%char :: dquote :: v ++ [dquote] ->
  Flags l = 0%N ->
  exists kl sl,
    key_line (Offset l) k kl /\ scalar_line v sl
    /\ PostProcess_round [] l [] = ([kl; sl], [], Ok tt).
Proof.
  intros Hk Hv Hd Hf.
  pose proof (plain_key_facts k Hk) as [Htr Hc].
  destruct (trimmed_facts k Htr) as [c [k' [Ek [Hcs _]]]].
  assert (Hc0 : key_char c = true).
  { rewrite Forall_forall in Hc. apply Hc. rewrite Ek. now left. }
  set (value := dquote :: v ++ [dquote]) in *.
  assert (Hsub : substr (Data l) 0 (length k) = k).
  { unfold substr. rewrite Hd. simpl skipn. rewrite firstn_app, Nat.sub_diag.
    simpl. now rewrite app_nil_r, firstn_all. }
  assert (Hlen : length k - 1 + 1 = length k) by (rewrite Ek; simpl; lia).
  assert (E1 : FindNotCited_count (Data l) ":"%char = (Some (length k), 0)).
  { rewrite Hd. apply FindNotCited_before_quotes; [| |reflexivity].
    - eapply Forall_impl; [|exact Hc]. intros a Ha.
      now apply key_char_facts in Ha.
    - eapply Forall_impl; [|exact Hc]. intros a Ha.
      now apply key_char_facts in Ha. }
  assert (E2 : find_last_not_of blanks (substr (Data l) 0 (length k))
               = Some (length k - 1)).
  { rewrite Hsub. apply find_last_not_of_trimmed; [assumption|].
    eapply Forall_impl; [|exact Hc]. apply key_char_text_char. }
  assert (E3 : RemoveAllEscapeTokens
                 (resize (substr (Data l) 0 (length k)) (length k - 1 + 1)) = k).
  { rewrite Hsub, Hlen. unfold resize. rewrite firstn_all.
    apply RemoveAllEscapeTokens_plain.
    eapply Forall_impl; [|exact Hc]. intros a Ha.
    now apply key_char_facts in Ha. }
  assert (E4 : IsSequenceStart (Data l) = false).
  { rewrite Hd, Ek.
    assert (Hm : char_eqb c "-"%char = false) by now apply key_char_facts in Hc0.
    unfold IsSequenceStart. cbn [app length Nat.eqb orb char_at nth].
    now rewrite Hm. }
  assert (Ev : mapping_value (Data l) (length k) = Some (length k + 2, value)).
  { rewrite Hd. now apply (mapping_value_after_key k value (v ++ [dquote]) dquote). }
  assert (Hu : Forall (fun x => unquoted_char x = true) v).
  { eapply Forall_impl; [|exact Hv]. intros a Ha.
    now apply quoted_char_facts in Ha. }
  pose proof (FindQuote_one_quoted_span [] v [] (Forall_nil _) Hu) as Eq.
  cbn [app length Nat.add] in Eq. fold value in Eq.
  assert (Hvl : length value = S (S (length v)))
    by (unfold value; simpl; rewrite length_app; simpl; lia).
  assert (Esub : substr value 1 (length value - 2) = v).
  { unfold substr. rewrite Hvl. unfold value. cbn [skipn].
    replace (S (S (length v)) - 2) with (length v) by lia.
    rewrite firstn_app, firstn_all, Nat.sub_diag. apply app_nil_r. }
  set (kl := set_Data (set_Type l MapType) k).
  assert (Hkl : key_line (Offset l) k kl) by (unfold key_line; simpl; auto).
  set (vl := new_ReaderLine v (No l) (length k + 2)).
  assert (Hdone : flags_ok ([] ++ [kl]))
    by (constructor; [exact Hf|constructor]).
  destruct (PostProcessScalar_plain ([] ++ [kl]) [] vl Hdone eq_refl)
    as [sl [Hsl Hpp]].
  exists kl, sl. split; [assumption|]. split; [exact Hsl|].
  unfold PostProcess_round, PostProcessSequence. rewrite E4. cbn [negb].
  unfold PostProcessMapping. rewrite E1.
  change (Nat.ltb 1 0) with false. cbv iota.
  rewrite E2. cbn [Nat.eqb andb]. rewrite E3, Ev.
  assert (Hs : IsSequenceStart value = false) by reflexivity.
  rewrite Hs.
  rewrite !(quoted_value_not_block v) by (simpl; tauto).
  fold value. rewrite Eq.
  cbn [orb andb]. rewrite Hvl.
  replace (length v + 1) with (S (S (length v)) - 1) by lia.
  rewrite Nat.eqb_refl. cbn [negb]. rewrite <- Hvl, Esub.
  cbn [No set_Data set_Type]. exact Hpp.
Qed.

(** X22: a map entry with a plain key and a double-quoted value on one
    line is read as a map of that key and the text between the quotes,
    unchanged: the text may hold colons, spaces at either end, and what
    would start a sequence entry or a block scalar outside quotes. *)
Theorem Parse_quoted_value (root0 : Node) (k v : str) :
  plain_key k = true -> forallb quoted_char v = true ->
  Parse root0 (k ++ lit ": " ++ [dquote] ++ v ++ [dquote] ++ [newline])
  = (MapNode [(k, ScalarNode v)], Ok tt).
Proof.
  intros Hk Hv. apply forallb_Forall in Hv.
  pose proof (good_key_value 0 k (mkP 0 (dquote :: v ++ [dquote]) false) Hk
                (quoted_value_good 0 v Hv)) as Hline.
  cbn [p_text p_trail] in Hline.
  assert (Et : k ++ lit ": " ++ [dquote] ++ v ++ [dquote] ++ [newline]
               = render [mkP 0 ((k ++ lit ": ") ++ dquote :: v ++ [dquote]) false]).
  { unfold render, render_line, line_text.
    cbn [map concat p_offset p_text p_trail spaces repeat app].
    rewrite !app_nil_r, <- !app_assoc. cbn [app].
    now rewrite <- !app_assoc. }
  rewrite Et. unfold Parse, ReaderImp_Parse, Parse_try.
  rewrite (ReadLines_emitted _ (Forall_cons _ Hline (Forall_nil _))).
  cbn [read_lines]. unfold read_line. cbn [p_text p_offset].
  set (l := mkLine ((k ++ lit ": ") ++ dquote :: v ++ [dquote]) 1 0 NoneType 0).
  assert (Hd : Data l = k ++ ":"%char :: " "%char :: dquote :: v ++ [dquote])
    by (unfold l; cbn [Data]; rewrite <- app_assoc; reflexivity).
  destruct (round_key_quoted_value l k v Hk Hv Hd eq_refl)
    as [kl [sl [Hkl [Hsl Hr]]]].
  destruct Hkl as [Kt [Ko [Kd Kf]]]. destruct Hsl as [St [Sd Sf]].
  unfold PostProcessLines. cbn [length PostProcessLines_loop]. rewrite Hr.
  cbn [rev app]. rewrite St. cbn [eType_eqb negb].
  unfold ProcessRoot, process_value. rewrite Kt.
  cbn [length ProcessMap]. unfold process_value. rewrite St.
  unfold ProcessScalar, after_round, check_next.
  rewrite Kd, Sd. unfold Node_Clear, Node_at_key. cbn [InitMap].
  unfold MapImp_GetNode. cbn [map_find map_insert].
  unfold get_child_key, set_child_key. cbn [map_find map_assign].
  rewrite (str_ltb_irrefl k). reflexivity.
Qed.

Lemma Parse_quoted_value_witness :
  Parse NoneNode (lit "title: " ++ [dquote] ++ lit " - a: b | c " ++ [dquote] ++ [newline])
  = (MapNode [(lit "title", ScalarNode (lit " - a: b | c "))], Ok tt).
Proof.
  apply (Parse_quoted_value NoneNode (lit "title") (lit " - a: b | c "));
    reflexivity.
Defined.

(** ** A block scalar as the value of a map entry *)

Lemma block_indicator_In (literal keep : bool) :
  In (block_indicator literal keep) [lit "|"; lit ">"; lit "|-"; lit ">-"].
Proof. destruct literal, keep; simpl; auto. Qed.

Lemma PostProcessMapping_block (l : ReaderLine) (rest : list ReaderLine)
    (k : str) (literal keep : bool) :
  plain_key k = true ->
  Data l = k ++ ":"%char :: " "%char :: block_indicator literal keep ->
  Flags l = 0%N ->
  IsSequenceStart (Data l) = false
  /\ PostProcessMapping [] l rest
     = ([mkLine k (No l) (Offset l) MapType (block_flags literal keep)],
        rest, Ok false).
Proof.
  intros Hk Hd Hf.
  destruct (block_indicator_facts _ (block_indicator_In literal keep))
    as [Hg [Hnq [Hseq [c [s' [Es Hcb]]]]]].
  destruct (mapping_key_part k (" "%char :: block_indicator literal keep) Hk)
    as [E1 [E2 [E3 E4]]]; [constructor; [reflexivity|assumption]|].
  pose proof (mapping_value_after_key k _ s' c Es Hcb) as Ev.
  rewrite <- Hd in *. split; [exact E4|].
  unfold PostProcessMapping. rewrite E1.
  change (Nat.ltb 1 0) with false. cbv iota.
  rewrite E2. cbn [Nat.eqb andb]. rewrite E3, Ev, Hseq.
  unfold SetFlag, set_Data, set_Type. cbn [Data No Offset Type_ Flags].
  rewrite Hf. destruct literal, keep; reflexivity.
Qed.

Lemma PostProcessScalar_merge_block (literal keep : bool) (tl : list pline) :
  forall (pLine : ReaderLine) (no : nat),
    Flags pLine = block_flags literal keep ->
    Forall (fun x => Offset pLine <= p_offset x) tl ->
    PostProcessScalar_merge pLine (read_lines no tl)
    = (set_Data pLine
         (Data pLine
            ++ merge_block (if literal then [newline] else [space])
                 (Offset pLine) tl
            ++ (if keep then [newline] else [])),
       []).
Proof.
  induction tl as [|x tl IH]; intros pLine no Hf Ho.
  - cbn [read_lines PostProcessScalar_merge merge_block app].
    unfold GetFlag. rewrite Hf. destruct pLine as [d n o t f].
    destruct literal, keep; cbn; try reflexivity;
      unfold set_Data; cbn; now rewrite app_nil_r.
  - inversion Ho as [|? ? Hx Ho']; subst.
    cbn [read_lines PostProcessScalar_merge]. unfold read_line at 1.
    cbn [Offset Data].
    destruct (Nat.ltb_spec (p_offset x) (Offset pLine)) as [?|_]; [lia|].
    rewrite IH.
    + unfold set_Data. cbn [Data No Offset Type_ Flags merge_block].
      f_equal. f_equal. unfold GetFlag. rewrite Hf.
      assert (Hsep : (if negb (N.eqb (N.land (block_flags literal keep)
                                        (m_FlagMask LiteralScalarFlag)) 0)
                      then [newline]
                      else if negb (N.eqb (N.land (block_flags literal keep)
                                             (m_FlagMask FoldedScalarFlag)) 0)
                           then [space] else [])
                     = (if literal then [newline] else [space]))
        by (destruct literal, keep; reflexivity).
      rewrite Hsep. unfold read_line. cbn [Offset Data].
      now rewrite <- !app_assoc.
    + exact Hf.
    + exact Ho'.
Qed.

(** The lines of a map entry with a block scalar in the first loop of
    [PostProcessLines]. *)
Lemma round_key_block (k : str) (literal keep : bool) (kl : ReaderLine)
    (l : pline) (tl : list pline) (no : nat) :
  plain_key k = true ->
  Data kl = k ++ ":"%char :: " "%char :: block_indicator literal keep ->
  Flags kl = 0%N ->
  Forall (fun x => p_offset l <= p_offset x) tl ->
  PostProcess_round [] kl (read_lines no (l :: tl))
  = ([mkLine k (No kl) (Offset kl) MapType (block_flags literal keep);
      mkLine (block_value literal keep l tl) no (p_offset l) ScalarType
        (block_flags literal keep)],
     [], Ok tt).
Proof.
  intros Hk Hd Hf Ho.
  destruct (PostProcessMapping_block kl (read_lines no (l :: tl)) k literal keep
              Hk Hd Hf) as [E4 Em].
  unfold PostProcess_round, PostProcessSequence. rewrite E4. cbn [negb].
  rewrite Em. cbn [read_lines]. unfold PostProcessScalar. cbn [rev app].
  set (pLine := CopyScalarFlags (set_Type (read_line no l) ScalarType)
                  (mkLine k (No kl) (Offset kl) MapType
                     (block_flags literal keep))).
  assert (Hfl : Flags pLine = block_flags literal keep)
    by (destruct literal, keep; reflexivity).
  assert (Hg : GetFlag pLine FoldedScalarFlag || GetFlag pLine LiteralScalarFlag
               = true)
    by (unfold GetFlag; rewrite Hfl; destruct literal, keep; reflexivity).
  rewrite Hg.
  rewrite (PostProcessScalar_merge_block literal keep tl pLine (S no) Hfl Ho).
  unfold block_value, set_Data, pLine, CopyScalarFlags, set_Type, read_line.
  cbn [Data No Offset Type_ Flags app].
  destruct literal, keep; reflexivity.
Qed.

Lemma PostProcessLines_key_block (k : str) (literal keep : bool)
    (kl : ReaderLine) (l : pline) (tl : list pline) (no : nat) :
  plain_key k = true ->
  Data kl = k ++ ":"%char :: " "%char :: block_indicator literal keep ->
  Flags kl = 0%N ->
  Forall (fun x => p_offset l <= p_offset x) tl ->
  PostProcessLines (kl :: read_lines no (l :: tl))
  = ([mkLine k (No kl) (Offset kl) MapType (block_flags literal keep);
      mkLine (block_value literal keep l tl) no (p_offset l) ScalarType
        (block_flags literal keep)],
     Ok tt).
Proof.
  intros Hk Hd Hf Ho.
  pose proof (round_key_block k literal keep kl l tl no Hk Hd Hf Ho) as Hr.
  unfold PostProcessLines.
  change (length (kl :: read_lines no (l :: tl)))
    with (S (length (read_lines no (l :: tl)))).
  cbn [PostProcessLines_loop]. rewrite Hr.
  destruct (length (read_lines no (l :: tl))); reflexivity.
Qed.

(** The tree of a key line and a scalar line. *)
Lemma ProcessRoot_key_scalar (k v : str) (n1 o1 n2 o2 : nat) (f1 f2 : N) :
  ProcessRoot NoneNode
    [mkLine k n1 o1 MapType f1; mkLine v n2 o2 ScalarType f2]
  = (MapNode [(k, ScalarNode v)], Ok tt).
Proof.
  unfold ProcessRoot, process_value. cbn [Type_ length ProcessMap].
  unfold process_value. cbn [Type_].
  unfold ProcessScalar, after_round, check_next.
  cbn [Data]. unfold Node_at_key. cbn [InitMap].
  unfold MapImp_GetNode. cbn [map_find map_insert].
  unfold get_child_key, set_child_key. cbn [map_find map_assign].
  rewrite (str_ltb_irrefl k). reflexivity.
Qed.

(** X23: a map entry with a plain key (not empty, of characters 32 to 125
    other than backslash, double quote and [:{}[],&*#?|-<>=!%@], no space at
    either end) whose value is a block indicator, followed by lines none
    of which is indented less than the first of them and each of which,
    after its indentation, is not empty, holds characters 32 to 125 other
    than [#] only, has no space at either end and is not [---] or [...],
    is read as a map of that key and one scalar: the lines, each with the
    spaces by which it is indented further than the first, with newlines
    between them for [|] and spaces for [>], and with a newline at the end
    unless the indicator ends in [-]. *)
Theorem Parse_block_scalar (root0 : Node) (k : str) (literal keep : bool)
    (l : pline) (tl : list pline) :
  plain_key k = true ->
  good_pline l -> Forall good_pline tl ->
  Forall (fun x => p_offset l <= p_offset x) tl ->
  Parse root0
    (render (mkP 0 ((k ++ lit ": ") ++ block_indicator literal keep) false
               :: l :: tl))
  = (MapNode [(k, ScalarNode (block_value literal keep l tl))], Ok tt).
Proof.
  intros Hk Hl Htl Ho.
  destruct (block_indicator_facts _ (block_indicator_In literal keep))
    as [Hg _].
  pose proof (good_key_value 0 k _ Hk Hg) as Hline.
  cbn [p_text p_trail] in Hline.
  unfold Parse, ReaderImp_Parse, Parse_try.
  rewrite (ReadLines_emitted _ (Forall_cons _ Hline (Forall_cons _ Hl Htl))).
  change (read_lines 1 (mkP 0 ((k ++ lit ": ") ++ block_indicator literal keep)
                          false :: l :: tl))
    with (read_line 1 (mkP 0 ((k ++ lit ": ") ++ block_indicator literal keep)
                         false) :: read_lines 2 (l :: tl)).
  rewrite (PostProcessLines_key_block k literal keep _ l tl 2 Hk);
    [|unfold read_line; cbn [Data p_text]; rewrite <- app_assoc; reflexivity
     |reflexivity|assumption].
  unfold Node_Clear. now rewrite ProcessRoot_key_scalar.
Qed.

Lemma Parse_block_scalar_witness :
  Parse NoneNode
    (lit "text: |" ++ [newline] ++ lit "  first: line" ++ [newline]
       ++ lit "    - second" ++ [newline])
  = (MapNode [(lit "text",
               ScalarNode (lit "first: line" ++ [newline] ++ lit "  - second"
                             ++ [newline]))],
     Ok tt).
Proof.
  apply (Parse_block_scalar NoneNode (lit "text") true true
           (mkP 2 (lit "first: line") false) [mkP 4 (lit "- second") false]).
  - reflexivity.
  - unfold good_pline. simpl. repeat split; try discriminate.
    repeat constructor.
  - constructor; [|constructor]. unfold good_pline. simpl.
    repeat split; try discriminate. repeat constructor.
  - repeat constructor.
Defined.

(** ** A scalar of several lines as the value of a map entry *)





Section LiteralBlock.
Variable config : SerializeConfig.
Hypothesis indentation : 2 <= SpaceIndentation config.
Hypothesis same_line : MapScalarNewline config = false.


End LiteralBlock.


(** ** A folded scalar as the value of a map entry *)



Section FoldedBlock.
Variable config : SerializeConfig.
Hypothesis indentation : 2 <= SpaceIndentation config.
Hypothesis same_line : MapScalarNewline config = false.


End FoldedBlock.


(** ** Texts the reader refuses *)

Lemma text_one_line (t : str) :
  t ++ [newline] = render [mkP 0 t false].
Proof.
  unfold render, render_line, line_text.
  cbn [map concat p_offset p_text p_trail spaces repeat app].
  now rewrite !app_nil_r.
Qed.

(** X26: a text of one line that holds a plain key and its colon and no
    value ends before the value of the key: [Parse] throws a parsing
    exception (unexpected document end) for line 1 and leaves the root
    None. *)
Theorem Parse_key_without_value (root0 : Node) (k : str) :
  plain_key k = true ->
  Parse root0 (k ++ lit ":" ++ [newline])
  = (NoneNode, Throw (ParsingException g_ErrorUnexpectedDocumentEnd 1)).
Proof.
  intros Hk. rewrite app_assoc, text_one_line.
  assert (Hline : good_pline (mkP 0 (k ++ lit ":") false))
    by exact (good_key 0 k Hk).
  unfold Parse, ReaderImp_Parse, Parse_try.
  rewrite (ReadLines_emitted [mkP 0 (k ++ lit ":") false]
             (Forall_cons _ Hline (Forall_nil _))).
  cbn [read_lines]. unfold read_line. cbn [p_text p_offset].
  destruct (mapping_key_part k [] Hk (Forall_nil _)) as [E1 [E2 [E3 E4]]].
  change (k ++ [":"%char]) with (k ++ lit ":") in *.
  assert (Ev : mapping_value (k ++ lit ":") (length k) = None).
  { unfold mapping_value. rewrite length_app. simpl.
    now rewrite Nat.eqb_refl. }
  assert (Hpp : PostProcessLines [mkLine (k ++ lit ":") 1 0 NoneType 0]
                = ([mkLine k 1 0 MapType 0],
                   Throw (ParsingException g_ErrorUnexpectedDocumentEnd 1))).
  { unfold PostProcessLines. cbn [length PostProcessLines_loop].
    unfold PostProcess_round, PostProcessSequence. cbn [Data].
    rewrite E4. cbn [negb].
    unfold PostProcessMapping. cbn [Data]. rewrite E1.
    change (Nat.ltb 1 0) with false. cbv iota.
    rewrite E2. cbn [Nat.eqb andb]. rewrite E3, Ev. reflexivity. }
  rewrite Hpp. reflexivity.
Qed.

Lemma Parse_key_without_value_witness :
  Parse (ScalarNode (lit "old")) (lit "key:" ++ [newline])
  = (NoneNode, Throw (ParsingException g_ErrorUnexpectedDocumentEnd 1)).
Proof.
  apply (Parse_key_without_value (ScalarNode (lit "old")) (lit "key")).
  reflexivity.
Defined.

(** What [PostProcessMapping] finds in a map line with a value. *)
Lemma mapping_line_parts (k v v' : str) (c : ascii) :
  plain_key k = true -> no_dquote v -> v = c :: v' ->
  negb (char_in c blanks) = true ->
  let data := k ++ ":"%char :: " "%char :: v in
  FindNotCited_count data ":"%char = (Some (length k), 0)
  /\ find_last_not_of blanks (substr data 0 (length k)) = Some (length k - 1)
  /\ RemoveAllEscapeTokens (resize (substr data 0 (length k)) (length k - 1 + 1))
     = k
  /\ IsSequenceStart data = false
  /\ mapping_value data (length k) = Some (length k + 2, v).
Proof.
  intros Hk Hq Ev Hc data.
  destruct (mapping_key_part k (" "%char :: v) Hk) as [E1 [E2 [E3 E4]]];
    [constructor; [reflexivity|assumption]|].
  repeat split; try assumption.
  now apply (mapping_value_after_key k v v' c).
Qed.



(** X28: a map entry with a plain key whose value on the same line starts
    a sequence entry is refused: [Parse] throws a parsing exception (block
    sequence not allowed) for line 1 and leaves the root None. *)
Theorem Parse_sequence_as_map_value (root0 : Node) (k v : str) :
  plain_key k = true -> good_pline (mkP 0 v false) -> no_dquote v ->
  IsSequenceStart v = true ->
  Parse root0 (k ++ lit ": " ++ v ++ [newline])
  = (NoneNode, Throw (ParsingException g_ErrorBlockSequenceNotAllowed 1)).
Proof.
  intros Hk Hv Hnq Hseq.
  pose proof (good_key_value 0 k (mkP 0 v false) Hk Hv) as Hline.
  cbn [p_text p_trail] in Hline.
  replace (k ++ lit ": " ++ v ++ [newline])
    with (((k ++ lit ": ") ++ v) ++ [newline])
    by now rewrite <- !app_assoc.
  rewrite text_one_line.
  unfold Parse, ReaderImp_Parse, Parse_try.
  rewrite (ReadLines_emitted _ (Forall_cons _ Hline (Forall_nil _))).
  cbn [read_lines]. unfold read_line. cbn [p_text p_offset].
  assert (Hc : exists c v', v = c :: v' /\ negb (char_in c blanks) = true).
  { destruct v as [|c v']; [discriminate|]. exists c, v'. split; [reflexivity|].
    unfold IsSequenceStart in Hseq. cbn [length Nat.eqb orb char_at nth] in Hseq.
    destruct (char_eqb c "-"%char) eqn:E; [|discriminate].
    unfold char_eqb in E. apply Ascii.eqb_eq in E. subst c. reflexivity. }
  destruct Hc as [c [v' [Es Hcb]]].
  destruct (mapping_line_parts k v v' c Hk Hnq Es Hcb)
    as [E1 [E2 [E3 [E4 Ev]]]].
  assert (Hdata : (k ++ lit ": ") ++ v = k ++ ":"%char :: " "%char :: v)
    by (rewrite <- app_assoc; reflexivity).
  rewrite Hdata.
  assert (Hpp : snd (PostProcessLines
                       [mkLine (k ++ ":"%char :: " "%char :: v) 1 0 NoneType 0])
                = Throw (ParsingException g_ErrorBlockSequenceNotAllowed 1)).
  { unfold PostProcessLines. cbn [length PostProcessLines_loop].
    unfold PostProcess_round, PostProcessSequence. cbn [Data].
    rewrite E4. cbn [negb].
    unfold PostProcessMapping. cbn [Data]. rewrite E1.
    change (Nat.ltb 1 0) with false. cbv iota.
    rewrite E2. cbn [Nat.eqb andb]. rewrite E3, Ev, Hseq. reflexivity. }
  destruct (PostProcessLines
              [mkLine (k ++ ":"%char :: " "%char :: v) 1 0 NoneType 0])
    as [lines' res].
  simpl in Hpp. subst res. reflexivity.
Qed.

Lemma Parse_sequence_as_map_value_witness :
  Parse NoneNode (lit "list: - a" ++ [newline])
  = (NoneNode, Throw (ParsingException g_ErrorBlockSequenceNotAllowed 1)).
Proof.
  apply (Parse_sequence_as_map_value NoneNode (lit "list") (lit "- a")).
  - reflexivity.
  - unfold good_pline. simpl. repeat split; try discriminate.
    repeat constructor.
  - repeat constructor.
  - reflexivity.
Defined.

(* ================================================================== *)
(** * Round trip: parse after serialize                                 *)
(* ================================================================== *)

(** ** Keys as the emitter writes them *)

















Lemma cite_set_facts (c : ascii) :
  char_in c cite_set = false ->
  char_eqb c dquote = false /\ char_eqb ":"%char c = false
  /\ char_eqb "#"%char c = false /\ char_eqb c "-"%char = false.
Proof. ascii_cases c; repeat split. Qed.

Lemma special_not_cited (c : ascii) :
  char_in c cite_set = false -> char_eqb c dquote = false.
Proof. intros H. now apply cite_set_facts in H. Qed.







(** ** The key in a line: comments and the key separator *)




Lemma prefix_facts (a : str) :
  Forall (fun x => char_in x (lit " -") = true) a ->
  Forall (fun x => char_eqb x dquote = false /\ char_eqb "#"%char x = false
                   /\ char_eqb x backslash = false) a.
Proof.
  apply Forall_impl. intros x. ascii_cases x; repeat split.
Qed.






(** ** Step 1: the emitted text, line by line *)





Section EmittedScalar.
Variable config : SerializeConfig.






End EmittedScalar.


Section Emitted.
Variable config : SerializeConfig.





End Emitted.

(** ** Step 2: ReadLines on the emitted text *)

Lemma line_char_space : line_char space = true.
Proof. reflexivity. Qed.




Lemma prefix_plain (a : str) :
  Forall (fun x => char_in x (lit " -") = true) a -> plain_text a.
Proof.
  intros H. apply prefix_facts in H. eapply Forall_impl; [|exact H].
  intros x [H1 [H2 _]]. now split.
Qed.


Section ReadText.

















End ReadText.

(** ** The emitted lines are lines that ReadLines hands on *)
















(** *** The pieces of a folded payload *)




Section Pieces.
Variable config : SerializeConfig.

End Pieces.






Section EmittedText.
Variable config : SerializeConfig.
Hypothesis indentation : 2 <= SpaceIndentation config.








End EmittedText.

(** ** Step 3: PostProcessLines on the lines read *)












(** *** Lines that start with a key *)






(** *** A folded payload *)




(** *** The lines of a tree *)





Section PostProcessEmitted.
Variable config : SerializeConfig.
Hypothesis indentation : 2 <= SpaceIndentation config.














End PostProcessEmitted.

(** *** The builders on the lines of a tree *)







Section BuildEmitted.
Variable config : SerializeConfig.
Hypothesis indentation : 2 <= SpaceIndentation config.



End BuildEmitted.

(** *** Parse after Serialize *)

Section RoundTrip.
Variable config : SerializeConfig.
Hypothesis indentation : 2 <= SpaceIndentation config.









End RoundTrip.


(** Trees outside [roundtrip_tree] that are not read back.  Payloads: a
    space at the end, the empty payload and [---] as the whole document,
    the empty payload as the last value and as a sequence entry, a value
    that starts a sequence entry (after its key and under it), a block
    indicator after its key, a character above 125, a payload folded as the
    whole document, as a sequence entry or under its key, and one folded
    into a piece that ends in a space.  Keys: a quoted key with two [#],
    with two [:] or with a backslash at its end, a bare key with a space in
    front, the empty key.  Shapes: a map without entries, a sequence with a
    gap in its indices. *)
Lemma outside_roundtrip_tree :
  let c := mkConfig 2 64 false false in
  let c5 := mkConfig 2 5 false false in
  let under := mkConfig 2 5 false true in
  let v := ScalarNode (lit "v") in
  (reparse c (ScalarNode (lit "a ")) = (ScalarNode (lit "a"), Ok tt)
   /\ reparse c (ScalarNode []) = (NoneNode, Ok tt)
   /\ reparse c (ScalarNode (lit "---")) = (NoneNode, Ok tt)
   /\ reparse c (MapNode [(lit "k", ScalarNode [])])
      = (NoneNode, Throw (ParsingException g_ErrorUnexpectedDocumentEnd 1))
   /\ reparse c (SequenceNode [(0%N, ScalarNode []); (1%N, ScalarNode (lit "x"))])
      = (SequenceNode [(0%N, SequenceNode [(0%N, ScalarNode (lit "x"))])], Ok tt)
   /\ reparse c (MapNode [(lit "k", ScalarNode (lit "- a"))])
      = (NoneNode, Throw (ParsingException g_ErrorBlockSequenceNotAllowed 1))
   /\ reparse under (MapNode [(lit "k", ScalarNode (lit "- a"))])
      = (MapNode [(lit "k", SequenceNode [(0%N, ScalarNode (lit "a"))])], Ok tt)
   /\ reparse c (MapNode [(lit "k", ScalarNode (lit ">-")); (lit "z", ScalarNode (lit "x"))])
      = (MapNode [(lit "k", ScalarNode (lit "z: x"))], Ok tt)
   /\ reparse c (ScalarNode (lit "a~"))
      = (NoneNode, Throw (ParsingException g_ErrorInvalidCharacter 1))
   /\ reparse c5 (ScalarNode (lit "one two three"))
      = (NoneNode, Throw (InternalException g_ErrorUnexpectedDocumentEnd 1))
   /\ reparse c5 (SequenceNode [(0%N, ScalarNode (lit "one two three"))])
      = (NoneNode, Throw (ParsingException g_ErrorIncorrectOffset 2))
   /\ reparse under (MapNode [(lit "k", ScalarNode (lit "one two three"))])
      = (NoneNode, Throw (InternalException g_ErrorDiffEntryNotAllowed 2))
   /\ reparse c5 (MapNode [(lit "k", ScalarNode (lit "abcd  efgh"))])
      = (MapNode [(lit "k", ScalarNode (lit "abcd efgh"))], Ok tt))
  /\ (reparse c (MapNode [(lit "a#b#", v)])
      = (ScalarNode (dquote :: lit "a#b"), Ok tt)
     /\ reparse c (MapNode [(lit "a:b:c", v)])
        = (NoneNode, Throw (ParsingException g_ErrorKeyIncorrect 1))
     /\ reparse c (MapNode [(lit "a-" ++ [backslash], v)])
        = (MapNode [(dquote :: lit "a-" ++ [backslash; dquote], v)], Ok tt)
     /\ reparse c (MapNode [(lit " k", v)]) = (MapNode [(lit "k", v)], Ok tt)
     /\ reparse c (MapNode [([], v)])
        = (NoneNode, Throw (ParsingException g_ErrorKeyMissing 1)))
  /\ (reparse c (MapNode []) = (NoneNode, Ok tt)
     /\ reparse c (SequenceNode [(0%N, ScalarNode (lit "a")); (2%N, ScalarNode (lit "b"))])
        = (SequenceNode [(0%N, ScalarNode (lit "a")); (1%N, ScalarNode (lit "b"))],
           Ok tt)).
Proof. repeat split; vm_compute; reflexivity. Qed.
